(** * Neural-Machine-Translation: decoding, collation, label smoothing,
    attention, positional encoding and the BLEU helpers, embedded from
    [src/utils.py] and [src/layers.py].

    Conventions of the embedding.
    - A Python exception (shape mismatch, index out of range, division by
      zero, failed [assert]) is the value [None] of the error monad below.
    - Token ids and tensor sizes are natural numbers; the ids, the pad id
      and [max_padding] of [collate_batch] are Python integers [Z], with
      the conversions to int64 and to double the code performs.
    - Scores (log-probabilities, label-smoothing masses) are rationals [Q].
      Label smoothing computes with exact arithmetic and attention with an
      abstract field of floats; the one addition of beam search is a
      parameter of the model, [score_add], so that it can be exact or
      rounding.
    - The encoder-decoder model used by the decoders is a black box: a record
      of the three calls [encode], [decode], [generator].
    - Strings are lists of characters; [sacrebleu.corpus_bleu], the
      elementary functions of the positional encoding and dropout are
      parameters of the sections that use them. *)

From Stdlib Require Import List ZArith QArith Qround Lia Bool Arith PeanoNat.
From Stdlib Require Import Ascii.
Import ListNotations.

Set Implicit Arguments.

Open Scope nat_scope.

(** ** Error monad *)

Definition bind {A B : Type} (m : option A) (f : A -> option B) : option B :=
  match m with
  | Some a => f a
  | None => None
  end.

Notation "x <- e ;; k" := (bind e (fun x => k))
  (at level 61, e at next level, right associativity).

(** * Part I: the embedding *)

(** ** List utilities *)

(** In-place write [l[i] = v] below the length of [l]. *)
Fixpoint set_nth {A : Type} (i : nat) (v : A) (l : list A) : list A :=
  match l, i with
  | [], _ => []
  | _ :: l', O => v :: l'
  | a :: l', S i' => a :: set_nth i' v l'
  end.

(** [l[-1]]: the last entry, an [IndexError] on the empty list. *)
Definition last_opt {A : Type} (l : list A) : option A :=
  match rev l with
  | [] => None
  | a :: _ => Some a
  end.

(** Monadic map: the first error aborts. *)
Fixpoint mapM {A B : Type} (f : A -> option B) (l : list A)
  : option (list B) :=
  match l with
  | [] => Some []
  | a :: l' => b <- f a ;; bs <- mapM f l' ;; Some (b :: bs)
  end.

(** ** Batch collation ([utils.py], [collate_batch]) *)

Module Collate.

(** Round-to-nearest, ties-to-even, of an integer to [prec] significant
    bits: the integer a binary floating-point number of that precision
    holds after it is assigned [v] (the exponent range is not part of
    it). *)
Definition round_bits (prec v : Z) : Z :=
  let m := Z.abs v in
  let bits := (Z.log2 m + 1)%Z in
  if (bits <=? prec)%Z then v
  else
    let unit := (2 ^ (bits - prec))%Z in
    let q := (m / unit)%Z in
    let r := (m mod unit)%Z in
    let q' := if (unit <? 2 * r)%Z || ((2 * r =? unit)%Z && Z.odd q)
              then (q + 1)%Z else q in
    (Z.sgn v * (q' * unit))%Z.

Definition int64 (z : Z) : bool :=
  (- 9223372036854775808 <=? z)%Z && (z <=? 9223372036854775807)%Z.

(** [torch.tensor(ids, dtype=torch.int64)]: an id outside int64 is an
    error. *)
Definition tensor_int64 (ids : list Z) : option (list Z) :=
  if forallb int64 ids then Some ids else None.

(** The [value] argument of [F.pad] is passed as a C double: a Python
    integer is rounded to 53 significant bits, and one beyond the range of
    doubles is an error. *)
Definition as_double (value : Z) : option Z :=
  let d := round_bits 53 value in
  if (Z.abs d <? 2 ^ 1024)%Z then Some d else None.

(** Filling an int64 tensor with a double: a value outside int64 is an
    error. *)
Definition double_to_int64 (d : Z) : option Z :=
  if int64 d then Some d else None.

(** The integers a double holds exactly: up to [2^53] in magnitude. *)
Definition double_exact (v : Z) : Prop :=
  (Z.abs v <= 9007199254740992)%Z.

(** [torch.nn.functional.pad(t, (0, p), value=v)] on a 1-D int64 tensor: a
    positive [p] appends [p] copies of [v], as the tensor stores it; a
    negative [p] crops [-p] entries from the right end and [p = 0] copies
    the tensor, neither of which writes [v]; a negative resulting size is
    an error. *)
Definition pad (t : list Z) (p : Z) (value : Z) : option (list Z) :=
  value <- as_double value ;;
  let new_dim := (Z.of_nat (length t) + p)%Z in
  if (new_dim <? 0)%Z then None
  else if (0 <? p)%Z then
    value <- double_to_int64 value ;;
    Some (t ++ repeat value (Z.to_nat p))
  else Some (firstn (Z.to_nat new_dim) t).

(** [torch.stack] of 1-D tensors: needs at least one tensor, all of one
    length. *)
Definition stack (l : list (list Z)) : option (list (list Z)) :=
  match l with
  | [] => None
  | r :: rs =>
      if forallb (fun r' => length r' =? length r) rs then Some l else None
  end.

Section CollateBatch.

Variables Text Tok : Type.
Variables src_pipeline tgt_pipeline : Text -> list Tok.
Variables src_vocab tgt_vocab : list Tok -> list Z.

Definition bs_id : list Z := [0%Z].   (* <s> token id *)

Definition eos_id : list Z := [1%Z].  (* </s> token id *)

Definition processed_src (_src : Text) : option (list Z) :=
  ids <- tensor_int64 (src_vocab (src_pipeline _src)) ;;
  Some (bs_id ++ ids ++ eos_id).

Definition processed_tgt (_tgt : Text) : option (list Z) :=
  ids <- tensor_int64 (tgt_vocab (tgt_pipeline _tgt)) ;;
  Some (bs_id ++ ids ++ eos_id).

(** One padded row: [pad(processed, (0, max_padding - len(processed)))];
    [max_padding] is any Python integer. *)
Definition pad_row (max_padding : Z) (pad_id : Z) (processed : list Z)
  : option (list Z) :=
  pad processed (max_padding - Z.of_nat (length processed)) pad_id.

(** The [for (_src, _tgt) in batch] loop, appending to both lists. *)
Fixpoint collate_loop (batch : list (Text * Text)) (max_padding : Z)
    (pad_id : Z) (src_list tgt_list : list (list Z))
  : option (list (list Z) * list (list Z)) :=
  match batch with
  | [] => Some (src_list, tgt_list)
  | (_src, _tgt) :: rest =>
      ps <- processed_src _src ;;
      pt <- processed_tgt _tgt ;;
      s <- pad_row max_padding pad_id ps ;;
      t <- pad_row max_padding pad_id pt ;;
      collate_loop rest max_padding pad_id (src_list ++ [s]) (tgt_list ++ [t])
  end.

Definition collate_batch (batch : list (Text * Text)) (max_padding : Z)
    (pad_id : Z) : option (list (list Z) * list (list Z)) :=
  lists <- collate_loop batch max_padding pad_id [] [] ;;
  src <- stack (fst lists) ;;
  tgt <- stack (snd lists) ;;
  Some (src, tgt).

(** Every id the two vocabularies return for the batch is an int64. *)
Definition ids_fit (batch : list (Text * Text)) : bool :=
  forallb (fun pair =>
             forallb int64 (src_vocab (src_pipeline (fst pair)))
             && forallb int64 (tgt_vocab (tgt_pipeline (snd pair))))
          batch.

End CollateBatch.

End Collate.

(** ** Label smoothing ([layers.py], [LabelSmoothing]) *)

Module LabelSmoothing.

Local Open Scope Q_scope.

(** The module's attributes; [criterion] (the KL divergence with sum
    reduction) is the only part that is not rational arithmetic and stays a
    field of the record. *)
Record t := mk {
  criterion : list (list Q) -> list (list Q) -> Q;
  padding_idx : nat;
  confidence : Q;
  smoothing : Q;
  size : nat;
  true_dist : option (list (list Q))
}.

(** [__init__(size, padding_idx, smoothing)]. *)
Definition init (kl : list (list Q) -> list (list Q) -> Q)
    (size padding_idx : nat) (smoothing : Q) : t :=
  {| criterion := kl;
     padding_idx := padding_idx;
     confidence := 1 - smoothing;
     smoothing := smoothing;
     size := size;
     true_dist := None |}.

(** [smoothing / (size - 2)] on Python numbers: division by zero raises. *)
Definition fill_value (smoothing : Q) (size : nat) : option Q :=
  if (Z.of_nat size - 2 =? 0)%Z then None
  else Some (smoothing / inject_Z (Z.of_nat size - 2)).

(** [true_dist.fill_(v)]. *)
Definition fill_ (x : list (list Q)) (v : Q) : list (list Q) :=
  map (map (fun _ => v)) x.

(** [true_dist.scatter_(1, target.unsqueeze(1), v)]: row [r] gets [v] at
    column [target[r]]; an index outside the row, or more indices than rows,
    is an error. *)
Fixpoint scatter_ (dist : list (list Q)) (target : list nat) (v : Q)
  : option (list (list Q)) :=
  match target, dist with
  | [], _ => Some dist
  | _ :: _, [] => None
  | c :: target', row :: dist' =>
      if c <? length row
      then rest <- scatter_ dist' target' v ;; Some (set_nth c v row :: rest)
      else None
  end.

(** [true_dist[:, c] = v]; [ncols] is the column count of the tensor. *)
Definition set_column (dist : list (list Q)) (ncols c : nat) (v : Q)
  : option (list (list Q)) :=
  if c <? ncols then Some (map (set_nth c v) dist) else None.

(** [torch.nonzero(target == padding_idx)], squeezed to row indices. *)
Definition nonzero_eq (target : list nat) (padding_idx : nat) : list nat :=
  filter (fun r => nth r target (S padding_idx) =? padding_idx)
         (seq 0 (length target)).

(** [true_dist.index_fill_(0, index, v)]: each listed row becomes [v]. *)
Definition index_fill_ (dist : list (list Q)) (index : list nat) (v : Q)
  : list (list Q) :=
  fold_left (fun d r => set_nth r (map (fun _ => v) (nth r d [])) d)
            index dist.

(** The smoothed target distribution built by [forward].  A 2-D tensor is
    a list of rows, so the width tested by [x.size(1) == self.size] is
    read off the rows; a tensor without rows has a width of its own in the
    code, which this representation does not keep. *)
Definition smoothed (self : t) (x : list (list Q)) (target : list nat)
  : option (list (list Q)) :=
  if negb (forallb (fun row => length row =? size self) x) then None
  else
    v <- fill_value (smoothing self) (size self) ;;
    let d0 := fill_ x v in
    d1 <- scatter_ d0 target (confidence self) ;;
    d2 <- set_column d1 (size self) (padding_idx self) 0 ;;
    let mask := nonzero_eq target (padding_idx self) in
    Some (index_fill_ d2 mask 0).

(** [forward(x, target)]: the loss, and the module with [true_dist] set. *)
Definition forward (self : t) (x : list (list Q)) (target : list nat)
  : option (Q * t) :=
  d <- smoothed self x target ;;
  Some (criterion self x d,
        {| criterion := criterion self;
           padding_idx := padding_idx self;
           confidence := confidence self;
           smoothing := smoothing self;
           size := size self;
           true_dist := Some d |}).

(** Sum of a row. *)
Definition row_sum (row : list Q) : Q := fold_right Qplus 0 row.

End LabelSmoothing.

(** ** The tensor substrate used by the attention code

    A dense tensor is a shape and its entries in row-major order.  Every
    operation below is the [torch] operation of the same name, restricted to
    what [layers.py] calls; a call [torch] rejects is [None]. *)

Module Tensor.

Record tensor (A : Type) := mk { shape : list nat; data : list A }.

Definition numel (s : list nat) : nat := fold_right Nat.mul 1 s.

(** Row-major position of the multi-index [idx] in a tensor of shape [s]. *)
Fixpoint offset (s idx : list nat) : nat :=
  match s, idx with
  | _ :: s', i :: idx' => i * numel s' + offset s' idx'
  | _, _ => 0
  end.

(** All multi-indices of a shape, in row-major order. *)
Fixpoint indices (s : list nat) : list (list nat) :=
  match s with
  | [] => [[]]
  | d :: s' => flat_map (fun i => map (cons i) (indices s')) (seq 0 d)
  end.

Definition tabulate {A : Type} (s : list nat) (f : list nat -> A) : tensor A :=
  mk s (map f (indices s)).

(** Broadcast read: [idx] indexes a tensor whose shape [t] broadcasts to;
    the trailing components of [idx] are used and a dimension of size 1 is
    read at 0. *)
Definition bget {A : Type} (d : A) (t : tensor A) (idx : list nat) : A :=
  let own := skipn (length idx - length (shape t)) idx in
  let fix clamp (s i : list nat) : list nat :=
    match s, i with
    | n :: s', k :: i' => (if n =? 1 then 0 else k) :: clamp s' i'
    | _, _ => []
    end in
  nth (offset (shape t) (clamp (shape t) own)) (data t) d.

Fixpoint bshape_rev (a b : list nat) : option (list nat) :=
  match a, b with
  | [], _ => Some b
  | _, [] => Some a
  | x :: a', y :: b' =>
      rest <- bshape_rev a' b' ;;
      if x =? y then Some (x :: rest)
      else if x =? 1 then Some (y :: rest)
      else if y =? 1 then Some (x :: rest)
      else None
  end.

(** [torch.broadcast_shapes]: shapes are aligned at their last dimension;
    two sizes agree when they are equal or one of them is 1. *)
Definition broadcast_shapes (a b : list nat) : option (list nat) :=
  option_map (@rev nat) (bshape_rev (rev a) (rev b)).

Definition tmap {A B : Type} (f : A -> B) (t : tensor A) : tensor B :=
  mk (shape t) (map f (data t)).

(** [t.unsqueeze(dim)]. *)
Definition unsqueeze {A : Type} (dim : nat) (t : tensor A)
  : option (tensor A) :=
  if dim <=? length (shape t)
  then Some (mk (firstn dim (shape t) ++ 1 :: skipn dim (shape t)) (data t))
  else None.

(** [t.repeat(reps)] with one repetition count per dimension of [t]. *)
Definition repeat_ {A : Type} (d : A) (reps : list nat) (t : tensor A)
  : option (tensor A) :=
  if length reps =? length (shape t)
  then
    let s := map (fun p => fst p * snd p) (combine (shape t) reps) in
    Some (tabulate s (fun idx =>
      nth (offset (shape t)
             (map (fun p => snd p mod fst p) (combine (shape t) idx)))
          (data t) d))
  else None.

Definition swap_dims {A : Type} (d : A) (d1 d2 : nat) (l : list A) : list A :=
  map (fun i => if i =? d1 then nth d2 l d
                else if i =? d2 then nth d1 l d
                else nth i l d)
      (seq 0 (length l)).

(** [t.transpose(d1, d2)]. *)
Definition transpose {A : Type} (d : A) (d1 d2 : nat) (t : tensor A)
  : option (tensor A) :=
  if (d1 <? length (shape t)) && (d2 <? length (shape t))
  then
    Some (tabulate (swap_dims 0 d1 d2 (shape t)) (fun idx =>
      nth (offset (shape t) (swap_dims 0 d1 d2 idx)) (data t) d))
  else None.

(** [t.view(s)] on a contiguous tensor. *)
Definition view {A : Type} (s : list nat) (t : tensor A) : option (tensor A) :=
  if numel s =? numel (shape t) then Some (mk s (data t)) else None.

(** [t.view(n, -1, m)]: the middle size is inferred. *)
Definition view_infer {A : Type} (n m : nat) (t : tensor A)
  : option (tensor A) :=
  let total := numel (shape t) in
  if n * m =? 0 then None
  else if total mod (n * m) =? 0 then view [n; total / (n * m); m] t
  else None.

(** [t.masked_fill(mask == 0, v)]: the result has the broadcast shape of
    [t] and [mask]. *)
Definition masked_fill {A : Type} (d : A) (t : tensor A) (mask : tensor Z)
    (v : A) : option (tensor A) :=
  s <- broadcast_shapes (shape t) (shape mask) ;;
  Some (tabulate s (fun idx =>
    if (bget 1%Z mask idx =? 0)%Z then v else bget d t idx)).

End Tensor.

(** ** Attention ([layers.py], [attention] and [MultiHeadedAttention]) *)

Module Attention.

Import Tensor.

(** The floating-point operations of the substrate stay abstract. *)
Class FloatOps (F : Type) := {
  f0 : F;
  fadd : F -> F -> F;
  fmul : F -> F -> F;
  fdiv : F -> F -> F;
  fsqrt : F -> F;
  fexp : F -> F;
  f_of_nat : nat -> F;
  f_neg1e9 : F   (* the literal -1e9 *)
}.

Section Ops.

Context {F : Type} {ops : FloatOps F}.

(** [nn.Dropout(p)(x)] under the current random state and mode. *)
Variable dropout_layer : F -> tensor F -> tensor F.

Definition fsum (l : list F) : F := fold_right fadd f0 l.

(** [torch.matmul] on tensors of rank at least 2: batch dimensions
    broadcast, the inner sizes must agree. *)
Definition matmul (a b : tensor F) : option (tensor F) :=
  let ra := length (shape a) in
  let rb := length (shape b) in
  if (2 <=? ra) && (2 <=? rb) then
    let n := nth (ra - 2) (shape a) 0 in
    let k := nth (ra - 1) (shape a) 0 in
    let k' := nth (rb - 2) (shape b) 0 in
    let m := nth (rb - 1) (shape b) 0 in
    if k =? k' then
      bs <- broadcast_shapes (firstn (ra - 2) (shape a))
                             (firstn (rb - 2) (shape b)) ;;
      Some (tabulate (bs ++ [n; m]) (fun idx =>
        let bidx := firstn (length bs) idx in
        let i := nth (length bs) idx 0 in
        let j := nth (S (length bs)) idx 0 in
        fsum (map (fun l => fmul (bget f0 a (bidx ++ [i; l]))
                                 (bget f0 b (bidx ++ [l; j])))
                  (seq 0 k))))
    else None
  else None.

(** Broadcast addition [a + b]. *)
Definition badd (a b : tensor F) : option (tensor F) :=
  s <- broadcast_shapes (shape a) (shape b) ;;
  Some (tabulate s (fun idx => fadd (bget f0 a idx) (bget f0 b idx))).

(** [torch.nn.Softmax(dim)(t)]. *)
Definition softmax (dim : nat) (t : tensor F) : option (tensor F) :=
  if dim <? length (shape t) then
    let at_ := fun idx => nth (offset (shape t) idx) (data t) f0 in
    Some (tabulate (shape t) (fun idx =>
      fdiv (fexp (at_ idx))
           (fsum (map (fun j => fexp (at_ (set_nth dim j idx)))
                      (seq 0 (nth dim (shape t) 0))))))
  else None.

(** Lines 101-103 of [attention]: the 2-D mask gets a middle dimension,
    repeated [Lq] times, where the code reads [Lq] from [key.shape[1]]. *)
Definition expand_mask2d (key : tensor F) (mask : tensor Z)
  : option (tensor Z) :=
  mask <- unsqueeze 1 mask ;;
  Lq <- nth_error (shape key) 1 ;;
  repeat_ 1%Z [1; Lq; 1] mask.

(** The scores of [attention] after masking and before the softmax. *)
Definition masked_scores (query key : tensor F) (mask : option (tensor Z))
  : option (tensor F) :=
  keyT <- transpose f0 1 2 key ;;
  dk <- nth_error (shape key) 2 ;;
  qk <- matmul query keyT ;;
  let attn_weights := tmap (fun x => fdiv x (fsqrt (f_of_nat dk))) qk in
  match mask with
  | Some mask =>
      if length (shape mask) =? 3 then
        masked_fill f0 attn_weights mask f_neg1e9
      else if length (shape mask) =? 2 then
        mask <- expand_mask2d key mask ;;
        masked_fill f0 attn_weights mask f_neg1e9
      else Some attn_weights
  | None => Some attn_weights
  end.

(** [attention(query, key, value, mask, dropout)]: the pair
    [(attn_out, attn_weights)]. *)
Definition attention (query key value : tensor F) (mask : option (tensor Z))
    (dropout : option F) : option (tensor F * tensor F) :=
  attn_weights <- masked_scores query key mask ;;
  attn_weights <- softmax 2 attn_weights ;;
  let attn_weights :=
    match dropout with
    | Some p => dropout_layer p attn_weights
    | None => attn_weights
    end in
  attn_out <- matmul attn_weights value ;;
  Some (attn_out, attn_weights).

(** [nn.Linear]: [y = x W^T + b]. *)
Record Linear := mkLinear { weight : tensor F; bias : tensor F }.

Definition linear (l : Linear) (x : tensor F) : option (tensor F) :=
  wT <- transpose f0 0 1 (weight l) ;;
  y <- matmul x wT ;;
  badd y (bias l).

(** [clones(module, N)]: [N] deep copies. *)
Definition clones {M : Type} (module : M) (N : nat) : list M := repeat module N.

Record MultiHeadedAttention := mkMHA {
  d_k : nat;
  h : nat;
  linears : list Linear;
  attn : option (tensor F);
  dropout : F
}.

(** The mask branch of [forward] (lines 157-161). *)
Definition apply_mask (self : MultiHeadedAttention) (Lq : nat)
    (attn_weights : tensor F) (mask : option (tensor Z))
  : option (tensor F) :=
  match mask with
  | Some mask =>
      if length (shape mask) =? 3 then
        mask <- unsqueeze 1 mask ;;
        mask <- repeat_ 1%Z [1; h self; 1; 1] mask ;;
        s2 <- nth_error (shape mask) 2 ;;
        mask <- (if s2 =? 1 then repeat_ 1%Z [1; 1; Lq; 1] mask
                 else Some mask) ;;
        masked_fill f0 attn_weights mask f_neg1e9
      else Some attn_weights
  | None => Some attn_weights
  end.

(** One projection split into heads:
    [linears[i](x).contiguous().view(N, L, h, d_k).transpose(1, 2)]. *)
Definition split_heads (self : MultiHeadedAttention) (i N L : nat)
    (x : tensor F) : option (tensor F) :=
  lin <- nth_error (linears self) i ;;
  x <- linear lin x ;;
  x <- view [N; L; h self; d_k self] x ;;
  transpose f0 1 2 x.

(** [MultiHeadedAttention.forward(query, key, value, mask)]: the output
    and the module with [attn] set. *)
Definition forward (self : MultiHeadedAttention) (query key value : tensor F)
    (mask : option (tensor Z)) : option (tensor F * MultiHeadedAttention) :=
  N <- nth_error (shape query) 0 ;;
  Lq <- nth_error (shape query) 1 ;;
  Lk <- nth_error (shape key) 1 ;;
  query <- split_heads self 0 N Lq query ;;
  key <- split_heads self 1 N Lk key ;;
  value <- split_heads self 2 N Lk value ;;
  keyT <- transpose f0 2 3 key ;;
  qk <- matmul query keyT ;;
  let attn_weights := tmap (fun x => fdiv x (fsqrt (f_of_nat (d_k self)))) qk in
  attn_weights <- apply_mask self Lq attn_weights mask ;;
  attn_weights <- softmax 3 attn_weights ;;
  let attn_weights := dropout_layer (dropout self) attn_weights in
  attn_out <- matmul attn_weights value ;;
  attn_out <- transpose f0 1 2 attn_out ;;
  attn_out <- view_infer N (h self * d_k self) attn_out ;;
  lin <- nth_error (linears self) 3 ;;
  x <- linear lin attn_out ;;
  Some (x, {| d_k := d_k self;
              h := h self;
              linears := linears self;
              attn := Some attn_weights;
              dropout := dropout self |}).

End Ops.

(** An instance used to run the attention code on small tensors: exact
    rationals, with a square root that is exact on perfect squares and a
    base-2 exponential of the integer part that underflows to 0. *)
#[global] Instance QOps : FloatOps Q := {|
  f0 := 0%Q;
  fadd := Qplus;
  fmul := Qmult;
  fdiv := Qdiv;
  fsqrt := fun x => inject_Z (Z.sqrt (Qfloor x));
  fexp := fun x => if Qle_bool x (-(64))%Q then 0%Q
                   else Qpower 2 (Qfloor x);
  f_of_nat := fun n => inject_Z (Z.of_nat n);
  f_neg1e9 := (-(1000000000))%Q
|}.

End Attention.

(** ** Decoding ([utils.py], [greedy_decode] and [beam_search_decode]) *)

Module Decoding.

Definition Qltb (a b : Q) : bool := negb (Qle_bool b a).

(** The first entry with the largest score: later entries replace the
    current best only when strictly larger.  This is [torch.max] and Python's
    [max].  [torch.topk] documents no order among equal entries; [topk]
    below takes them in index order, and a statement that compares the
    top-k selection with [torch.max] assumes there is no tie ([untied]). *)
Fixpoint best {A : Type} (c : A * Q) (cs : list (A * Q)) : A * Q :=
  match cs with
  | [] => c
  | c' :: cs' => if Qltb (snd c) (snd c') then best c' cs' else best c cs'
  end.

Definition indexed (l : list Q) : list (nat * Q) :=
  combine (seq 0 (length l)) l.

(** Index part of [torch.max(row)]; an empty row is an error. *)
Definition argmax (row : list Q) : option nat :=
  match indexed row with
  | [] => None
  | c :: cs => Some (fst (best c cs))
  end.

Fixpoint topk_sel (k : nat) (cands : list (nat * Q))
  : option (list (nat * Q)) :=
  match k with
  | O => Some []
  | S k' =>
      match cands with
      | [] => None
      | c :: cs =>
          let b := best c cs in
          rest <- topk_sel k'
                    (filter (fun c' => negb (fst c' =? fst b)) cands) ;;
          Some (b :: rest)
      end
  end.

(** [torch.topk(flat, k)]: the [k] largest entries with their positions, in
    decreasing order; more than [len(flat)] entries is an error. *)
Definition topk (flat : list Q) (k : nat) : option (list (nat * Q)) :=
  topk_sel k (indexed flat).

(** [subsequent_mask(size)]: shape [(1, size, size)], true on and below the
    diagonal. *)
Definition subsequent_mask (size : nat) : list (list (list bool)) :=
  [map (fun i => map (fun j => j <=? i) (seq 0 size)) (seq 0 size)].

(** [t.size(1)] of a 2-D tensor with at least one row. *)
Definition size1 {A : Type} (t : list (list A)) : nat := length (hd [] t).

(** [torch.cat([a, b], dim=1)] on 2-D tensors. *)
Definition cat1 {A : Type} (a b : list (list A)) : option (list (list A)) :=
  if length a =? length b
  then Some (map (fun p => fst p ++ snd p) (combine a b))
  else None.

(** [t.expand(n, *t.shape[1:])]: a leading dimension of size 1 becomes [n]
    copies, a leading dimension [n] is kept, anything else is an error. *)
Definition expand {A : Type} (n : nat) (t : list A) : option (list A) :=
  match t with
  | [a] => Some (repeat a n)
  | _ => if length t =? n then Some t else None
  end.

(** Lines 87 and 125 write the start symbol into a float32 tensor
    ([torch.zeros(1, 1).fill_(start_symbol)]) before converting it to the
    type of [src]; float32 holds every integer up to [2^24] exactly and
    rounds larger ones.  The decoders below keep the start symbol as given,
    which is what the code does in that range.  Statements that name the
    first token, or compare it with the end marker, assume it. *)
Definition float32_exact (n : nat) : Prop := (Z.of_nat n <= 16777216)%Z.

(** The largest entry of [l] occurs once: every entry at another position
    is strictly smaller. *)
Definition single_top (l : list Q) : bool :=
  match indexed l with
  | [] => false
  | c :: cs =>
      let b := best c cs in
      forallb (fun c' => (fst c' =? fst b) || Qltb (snd c') (snd b))
              (c :: cs)
  end.

Section Decoders.

Variables Src MaskRow MemRow Hidden : Type.

(** The model call contract: tensors are lists over their batch dimension;
    [decode] returns, per batch row, one hidden state per target position;
    [generator] returns one row of log-probabilities per hidden state.
    [score_add] is the addition of the generator's dtype, the [+] of line
    149 on score tensors: a rounding addition for float32, [Qplus] when
    the arithmetic is taken exact. *)
Record Model := mkModel {
  encode : Src -> list MaskRow -> list MemRow;
  decode : list MemRow -> list MaskRow -> list (list nat)
           -> list (list (list bool)) -> list (list Hidden);
  generator : list Hidden -> list (list Q);
  score_add : Q -> Q -> Q
}.

Variable model : Model.

(** Lines 89-92 and 133-138: decode, take the last position, generate. *)
Definition next_log_probs (memory : list MemRow) (src_mask : list MaskRow)
    (ys : list (list nat)) : option (list (list Q)) :=
  let out := decode model memory src_mask ys (subsequent_mask (size1 ys)) in
  last_pos <- mapM (@last_opt Hidden) out ;;
  Some (generator model last_pos).

(** The model answers the decode calls of a greedy run: a non-empty batch
    of non-empty distributions for every non-empty partial target. *)
Definition answers (memory : list MemRow) (src_mask : list MaskRow) : Prop :=
  forall row, row <> [] ->
    exists p ps,
      next_log_probs memory src_mask [row] = Some (p :: ps)
      /\ Forall (fun r => r <> []) (p :: ps).

(** The generator never emits a log-probability that is exactly 0. *)
Definition never_zero (memory : list MemRow) (src_mask : list MaskRow)
  : Prop :=
  forall ys prob,
    next_log_probs memory src_mask ys = Some prob ->
    Forall (Forall (fun q => ~ (q == 0)%Q)) prob.

(** One iteration of the loop of [greedy_decode]. *)
Definition greedy_step (memory : list MemRow) (src_mask : list MaskRow)
    (ys : list (list nat)) : option (list (list nat)) :=
  prob <- next_log_probs memory src_mask ys ;;
  next_word <- mapM argmax prob ;;
  next_word <- nth_error next_word 0 ;;
  cat1 ys [[next_word]].

Fixpoint greedy_loop (n : nat) (memory : list MemRow)
    (src_mask : list MaskRow) (ys : list (list nat))
  : option (list (list nat)) :=
  match n with
  | O => Some ys
  | S n' =>
      ys <- greedy_step memory src_mask ys ;;
      greedy_loop n' memory src_mask ys
  end.

Definition greedy_decode (src : Src) (src_mask : list MaskRow)
    (max_len start_symbol : nat) : option (list (list nat)) :=
  let memory := encode model src src_mask in
  greedy_loop (max_len - 1) memory src_mask [[start_symbol]].

(** The loop state of [beam_search_decode].  [iterations] and
    [expanded_at] are bookkeeping of the embedding: the number of loop
    bodies run, and the loop counters of the bodies in which lines 178-179
    (the expansion) ran. *)
Record BeamState := mkBeam {
  ys : list (list nat);
  scores : list Q;
  memory : list MemRow;
  src_mask : list MaskRow;
  iterations : nat;
  expanded_at : list nat
}.

(** Line 142: [prob[ys[:, -1] == end_idx, :] = 0]. *)
Definition zero_finished (end_idx : nat) (ys : list (list nat))
    (prob : list (list Q)) : option (list (list Q)) :=
  lasts <- mapM (@last_opt nat) ys ;;
  if length lasts =? length prob then
    Some (map (fun p => if fst p =? end_idx
                        then map (fun _ => 0%Q) (snd p) else snd p)
              (combine lasts prob))
  else None.

(** Line 149: [scores.unsqueeze(1).repeat(1, vocab_size) + prob]. *)
Definition add_scores (scores : list Q) (prob : list (list Q))
  : option (list (list Q)) :=
  if length scores =? length prob then
    Some (map (fun p => map (score_add model (fst p)) (snd p))
              (combine scores prob))
  else None.

(** Lines 158-164: the extension of parent [i] selected with token [j]. *)
Definition extend (end_idx : nat) (ys : list (list nat))
    (prob : list (list Q)) (i j : nat) : option (list nat) :=
  prev_seq <- nth_error ys i ;;
  row <- nth_error prob i ;;
  p <- nth_error row j ;;
  if Qeq_bool p 0 then Some (prev_seq ++ [end_idx])
  else Some (prev_seq ++ [j]).

(** Line 173: [(ys[:, -1] == end_idx).sum() == beam_size]. *)
Definition all_ended (beam_size end_idx : nat) (ys : list (list nat))
  : option bool :=
  lasts <- mapM (@last_opt nat) ys ;;
  Some (length (filter (fun t => t =? end_idx) lasts) =? beam_size).

(** One body of the [for i in range(max_len - 1)] loop; the boolean tells
    whether the body left through [break].  The inner [for k] loop assigns
    [i = rows[k]], so the test of line 177 reads the row of the last
    selected pair, not the loop counter. *)
Definition beam_iter (beam_size end_idx : nat) (i : nat) (st : BeamState)
  : option (BeamState * bool) :=
  prob <- next_log_probs (memory st) (src_mask st) (ys st) ;;
  prob <- zero_finished end_idx (ys st) prob ;;
  combined <- (if i =? 0 then Some prob else add_scores (scores st) prob) ;;
  top <- topk (concat combined) beam_size ;;
  let rows := map (fun c => fst c / size1 combined) top in
  let cols := map (fun c => fst c mod size1 combined) top in
  let scores' := map (@snd nat Q) top in
  newys <- mapM (fun ij => extend end_idx (ys st) prob (fst ij) (snd ij))
                (combine rows cols) ;;
  match newys with
  | [] => None
  | _ :: _ =>
      let step := i in
      let i := last rows i in
      stop <- all_ended beam_size end_idx newys ;;
      if stop then
        Some (mkBeam newys scores' (memory st) (src_mask st)
                (S (iterations st)) (expanded_at st), true)
      else if i =? 0 then
        memory' <- expand beam_size (memory st) ;;
        src_mask' <- expand beam_size (src_mask st) ;;
        Some (mkBeam newys scores' memory' src_mask'
                (S (iterations st)) (expanded_at st ++ [step]), false)
      else
        Some (mkBeam newys scores' (memory st) (src_mask st)
                (S (iterations st)) (expanded_at st), false)
  end.

(** [n] more bodies of the loop, the next with loop counter [i]. *)
Fixpoint beam_loop (beam_size end_idx : nat) (n i : nat) (st : BeamState)
  : option BeamState :=
  match n with
  | O => Some st
  | S n' =>
      r <- beam_iter beam_size end_idx i st ;;
      if snd r then Some (fst r)
      else beam_loop beam_size end_idx n' (S i) (fst r)
  end.

Definition beam_init (src : Src) (src_mask : list MaskRow)
    (start_symbol : nat) : BeamState :=
  mkBeam [[start_symbol]] [0%Q] (encode model src src_mask) src_mask 0 [].

(** The state when the loop of [beam_search_decode] is left. *)
Definition beam_run (src : Src) (src_mask : list MaskRow)
    (max_len start_symbol beam_size end_idx : nat) : option BeamState :=
  beam_loop beam_size end_idx (max_len - 1) 0
            (beam_init src src_mask start_symbol).

(** [beam_search_decode]: the best-scored hypothesis, as a [(1, L)]
    tensor. *)
Definition beam_search_decode (src : Src) (src_mask : list MaskRow)
    (max_len start_symbol beam_size end_idx : nat)
  : option (list (list nat)) :=
  st <- beam_run src src_mask max_len start_symbol beam_size end_idx ;;
  match combine (ys st) (scores st) with
  | [] => None
  | c :: cs => Some [fst (best c cs)]
  end.

(** Lines 133-149 alone: the scores [torch.topk] selects from in the body
    with loop counter [i]. *)
Definition combined_scores (end_idx : nat) (i : nat) (st : BeamState)
  : option (list (list Q)) :=
  prob <- next_log_probs (memory st) (src_mask st) (ys st) ;;
  prob <- zero_finished end_idx (ys st) prob ;;
  if i =? 0 then Some prob else add_scores (scores st) prob.

(** No tie for the first place along a run of [n] more bodies: in every
    body the loop runs, the scores the top-k selects from have a single
    largest entry.  [torch.topk] and [torch.max] may order equal entries
    differently; without ties the selection of the best entry does not
    depend on that order. *)
Fixpoint untied (beam_size end_idx : nat) (n i : nat) (st : BeamState)
  : bool :=
  match n with
  | O => true
  | S n' =>
      match combined_scores end_idx i st with
      | Some combined =>
          single_top (concat combined)
          && match beam_iter beam_size end_idx i st with
             | Some (st', false) => untied beam_size end_idx n' (S i) st'
             | _ => true
             end
      | None => true
      end
  end.

(** The Python variables of the loop, without the bookkeeping field
    [expanded_at]. *)
Definition loop_vars (st : BeamState)
  : list (list nat) * list Q * list MemRow * list MaskRow * nat :=
  (ys st, scores st, memory st, src_mask st, iterations st).

(** *** The loop as the specification words it

    "After the first step, expand the single encoder memory/mask to
    [beam_size] copies": the same body with the expansion decided by the
    step index alone.  These definitions follow the specification, not the
    source; they are what [beam_iter] is compared with. *)
Definition beam_iter_by_step (beam_size end_idx : nat) (step : nat)
    (st : BeamState) : option (BeamState * bool) :=
  prob <- next_log_probs (memory st) (src_mask st) (ys st) ;;
  prob <- zero_finished end_idx (ys st) prob ;;
  combined <- (if step =? 0 then Some prob
               else add_scores (scores st) prob) ;;
  top <- topk (concat combined) beam_size ;;
  let rows := map (fun c => fst c / size1 combined) top in
  let cols := map (fun c => fst c mod size1 combined) top in
  let scores' := map (@snd nat Q) top in
  newys <- mapM (fun ij => extend end_idx (ys st) prob (fst ij) (snd ij))
                (combine rows cols) ;;
  match newys with
  | [] => None
  | _ :: _ =>
      stop <- all_ended beam_size end_idx newys ;;
      if stop then
        Some (mkBeam newys scores' (memory st) (src_mask st)
                (S (iterations st)) (expanded_at st), true)
      else if step =? 0 then
        memory' <- expand beam_size (memory st) ;;
        src_mask' <- expand beam_size (src_mask st) ;;
        Some (mkBeam newys scores' memory' src_mask'
                (S (iterations st)) (expanded_at st ++ [step]), false)
      else
        Some (mkBeam newys scores' (memory st) (src_mask st)
                (S (iterations st)) (expanded_at st), false)
  end.

Fixpoint beam_loop_by_step (beam_size end_idx : nat) (n step : nat)
    (st : BeamState) : option BeamState :=
  match n with
  | O => Some st
  | S n' =>
      r <- beam_iter_by_step beam_size end_idx step st ;;
      if snd r then Some (fst r)
      else beam_loop_by_step beam_size end_idx n' (S step) (fst r)
  end.

Definition beam_run_by_step (src : Src) (src_mask : list MaskRow)
    (max_len start_symbol beam_size end_idx : nat) : option BeamState :=
  beam_loop_by_step beam_size end_idx (max_len - 1) 0
                    (beam_init src src_mask start_symbol).

End Decoders.

Arguments loop_vars {MaskRow MemRow} st.

(** *** Small concrete models, used to run the decoders *)

(** A model whose next-token distribution depends on the last token only:
    the hidden state at a position is the token there, and [table] maps it
    to the log-probabilities. *)
Definition table_model (table : nat -> list Q)
  : Model unit unit unit nat :=
  {| encode := fun _ _ => [tt];
     decode := fun _ _ ys _ => ys;
     generator := fun last_pos => map table last_pos;
     score_add := Qplus |}.

(** Tables over the vocabulary [0, 1, 2, 3], read with 2 as the start symbol
    and 3 as the end marker unless said otherwise. *)
Definition table_a (last : nat) : list Q :=
  match last with
  | 0 => [-(1); -(2); -(9); -(9)]%Q
  | 1 => [-(5); -(6); -(7); -(9)]%Q
  | _ => [-(1); -(3); -(9); -(9)]%Q
  end.

Definition table_b (last : nat) : list Q :=
  match last with
  | 0 => [-(5); -(6); -(7); -(9)]%Q
  | 1 => [-(1); -(2); -(9); -(9)]%Q
  | _ => [-(1); -(3); -(9); -(9)]%Q
  end.

(** After the start symbol the generator is saturated: log-probability
    exactly 0 for token 0. *)
Definition table_saturated (last : nat) : list Q :=
  match last with
  | 2 => [0; -(30); -(30); -(30)]%Q
  | _ => [-(3); -(2); -(1); -(4)]%Q
  end.

(** Token 0 is followed by the end marker. *)
Definition table_ending (last : nat) : list Q :=
  match last with
  | 0 => [-(9); -(8); -(7); -(1)]%Q
  | 3 => [-(1); -(2); -(3); -(4)]%Q
  | _ => [-(1); -(3); -(9); -(9)]%Q
  end.

(** *** A rounding addition

    [round_q prec x] is the rational with [prec] significant bits nearest
    to [x], ties to even (no exponent range: no subnormals, no overflow);
    [float32_add] is the addition of two float32 values in the normal
    range.  It serves as [score_add] in runs that show where rounding
    creates ties. *)
Definition round_q (prec : Z) (x : Q) : Q :=
  let n := Z.abs (Qnum x) in
  let d := Zpos (Qden x) in
  if (n =? 0)%Z then 0%Q
  else
    let e0 := (Z.log2 n - Z.log2 d)%Z in
    (* e = floor (log2 (n / d)) *)
    let e := if (n * 2 ^ Z.max 0 (- e0) <? d * 2 ^ Z.max 0 e0)%Z
             then (e0 - 1)%Z else e0 in
    let k := (e - (prec - 1))%Z in
    let num := (n * 2 ^ Z.max 0 (- k))%Z in
    let den := (d * 2 ^ Z.max 0 k)%Z in
    let q := (num / den)%Z in
    let r := (num mod den)%Z in
    let q' := if (den <? 2 * r)%Z || ((2 * r =? den)%Z && Z.odd q)
              then (q + 1)%Z else q in
    let m := (Z.sgn (Qnum x) * q')%Z in
    if (0 <=? k)%Z then inject_Z (m * 2 ^ k)
    else (m # Z.to_pos (2 ^ (- k)))%Q.

Definition float32_add (s a : Q) : Q := round_q 24 (s + a).

Definition table_model_float32 (table : nat -> list Q)
  : Model unit unit unit nat :=
  {| encode := fun _ _ => [tt];
     decode := fun _ _ ys _ => ys;
     generator := fun last_pos => map table last_pos;
     score_add := float32_add |}.

(** After token 0 the two best log-probabilities differ by one unit in the
    last place of float32, [2^-23]; all entries are float32 values. *)
Definition table_close (last : nat) : list Q :=
  match last with
  | 0 => [-(8388609 # 8388608); -(1); -(9); -(9)]%Q
  | _ => [-(8); -(20); -(20); -(20)]%Q
  end.

End Decoding.

(** ** BLEU helpers ([utils.py], [remove_start_end_tokens] and
    [compute_corpus_level_bleu]) *)

Module Bleu.

(** [s.startswith(p)] on strings as lists of characters. *)
Fixpoint startswith (p s : list ascii) : bool :=
  match p, s with
  | [], _ => true
  | _ :: _, [] => false
  | a :: p', b :: s' => Ascii.eqb a b && startswith p' s'
  end.

(** [s.endswith(p)]. *)
Definition endswith (p s : list ascii) : bool :=
  startswith (rev p) (rev s).

(** The marker [<s>]. *)
Definition bos : list ascii := ["<"%char; "s"%char; ">"%char].

(** The marker [</s>]. *)
Definition eos : list ascii :=
  ["<"%char; "/"%char; "s"%char; ">"%char].

(** [sent[3:]] after a leading [<s>], then [sent[:-4]] if what is left
    ends with [</s>]. *)
Definition remove_start_end_tokens (sent : list ascii) : list ascii :=
  let sent := if startswith bos sent then skipn 3 sent else sent in
  let sent := if endswith eos sent then firstn (length sent - 4) sent
              else sent in
  sent.

Section Score.

(** [sacrebleu.corpus_bleu(hyps, [refs]).score], the external scorer. *)
Variable corpus_bleu : list (list ascii) -> list (list (list ascii)) -> Q.

Definition compute_corpus_level_bleu (refs hyps : list (list ascii)) : Q :=
  let refs := map remove_start_end_tokens refs in
  let hyps := map remove_start_end_tokens hyps in
  corpus_bleu hyps [refs].

End Score.

End Bleu.

(** ** Positional encoding ([utils.py], [PositionalEncoding]) *)

Module PositionalEncoding.

Import Tensor Attention.

(** The index [bget] reads a tensor of shape [s] at: a dimension of size 1
    is read at 0. *)
Fixpoint clamp (s idx : list nat) : list nat :=
  match s, idx with
  | n :: s', k :: idx' => (if n =? 1 then 0 else k) :: clamp s' idx'
  | _, _ => []
  end.

(** [t[:, :stop]] on a tensor of rank at least 2. *)
Definition slice1 {A : Type} (d : A) (stop : nat) (t : tensor A)
  : option (tensor A) :=
  match shape t with
  | d0 :: d1 :: rest =>
      Some (tabulate (d0 :: Nat.min stop d1 :: rest)
                     (fun idx => nth (offset (shape t) idx) (data t) d))
  | _ => None
  end.

Section Encoding.

Context {F : Type} {ops : FloatOps F}.

(** [math.sin], [math.cos] and [**] on floats. *)
Variables fsin fcos : F -> F.
Variable fpow : F -> F -> F.
Variable dropout_layer : F -> tensor F -> tensor F.

(** [pe[pos, col] = v]. *)
Definition set2 (pos col : nat) (v : F) (pe : list (list F))
  : list (list F) :=
  set_nth pos (set_nth col v (nth pos pe [])) pe.

(** [pos / 10000 ** ((2 * i) / d_model)]. *)
Definition angle (d_model pos i : nat) : F :=
  fdiv (f_of_nat pos)
       (fpow (f_of_nat 10000) (fdiv (f_of_nat (2 * i)) (f_of_nat d_model))).

(** The two loops of [__init__] over [torch.zeros(max_len, d_model)]. *)
Definition pe_table (max_len d_model : nat) : list (list F) :=
  fold_left
    (fun pe pos =>
       fold_left
         (fun pe i =>
            set2 pos (2 * i + 1) (fcos (angle d_model pos i))
              (set2 pos (2 * i) (fsin (angle d_model pos i)) pe))
         (seq 0 (d_model / 2)) pe)
    (seq 0 max_len) (repeat (repeat f0 d_model) max_len).

Record t := mkPE { dropout : F; pe : tensor F }.

(** [__init__(d_model, dropout, max_len)]. *)
Definition init (d_model : nat) (dropout : F) (max_len : nat) : t :=
  {| dropout := dropout;
     pe := mk [max_len; d_model] (concat (pe_table max_len d_model)) |}.

(** [forward(x)]: [x + pe.unsqueeze(0)[:, :x.size(1)]], then dropout. *)
Definition forward (self : t) (x : tensor F) : option (tensor F) :=
  pe <- unsqueeze 0 (pe self) ;;
  L <- nth_error (shape x) 1 ;;
  pe <- slice1 f0 L pe ;;
  x <- badd x pe ;;
  Some (dropout_layer (dropout self) x).

End Encoding.

End PositionalEncoding.

(** * Part II: properties *)

Lemma bind_Some {A B : Type} (m : option A) (f : A -> option B) (b : B) :
  bind m f = Some b -> exists a, m = Some a /\ f a = Some b.
Proof.
  destruct m as [a|]; simpl; intros H; [exists a; auto | discriminate].
Qed.

(** Inversion of a successful monadic step in a hypothesis. *)
Tactic Notation "bind_inv" hyp(H) "as" ident(a) ident(E) :=
  apply bind_Some in H; destruct H as [a [E H]].

(** ** Collation *)

Section CollateProps.

Import Collate.

Variables Text Tok : Type.
Variables src_pipeline tgt_pipeline : Text -> list Tok.
Variables src_vocab tgt_vocab : list Tok -> list Z.

Local Notation "'src_ids' s" := (src_vocab (src_pipeline s))
  (at level 10, s at level 9).
Local Notation "'tgt_ids' t" := (tgt_vocab (tgt_pipeline t))
  (at level 10, t at level 9).
Local Notation "'collate'" :=
  (collate_batch src_pipeline tgt_pipeline src_vocab tgt_vocab).

(** A double holds an integer of magnitude up to [2^53] unchanged, and
    such an integer is an int64. *)
Lemma round_bits_exact (v : Z) : double_exact v -> round_bits 53 v = v.
Proof.
  unfold double_exact, round_bits. intros Hv. cbv zeta.
  destruct (Z.leb_spec (Z.log2 (Z.abs v) + 1) 53) as [_|Hbits];
    [reflexivity|].
  assert (Hpos : (0 < Z.abs v)%Z).
  { destruct (Z.eq_dec (Z.abs v) 0) as [E|E]; [|lia].
    rewrite E in Hbits. simpl in Hbits. lia. }
  assert (Hlow : (2 ^ 53 <= Z.abs v)%Z).
  { apply Z.le_trans with (2 ^ Z.log2 (Z.abs v))%Z.
    - apply Z.pow_le_mono_r; lia.
    - apply Z.log2_spec. exact Hpos. }
  assert (E : Z.abs v = 9007199254740992%Z).
  { change (2 ^ 53)%Z with 9007199254740992%Z in Hlow. lia. }
  rewrite E. destruct v as [|v|v]; simpl in E; try discriminate;
    injection E as ->; reflexivity.
Qed.

Lemma as_double_exact (v : Z) : double_exact v -> as_double v = Some v.
Proof.
  intros Hv. unfold as_double. rewrite (round_bits_exact Hv). cbv zeta.
  destruct (Z.ltb_spec (Z.abs v) (2 ^ 1024)) as [_|H]; [reflexivity|].
  unfold double_exact in Hv.
  assert (9007199254740992 < 2 ^ 1024)%Z by reflexivity. lia.
Qed.

Lemma double_to_int64_exact (v : Z) :
  double_exact v -> double_to_int64 v = Some v.
Proof.
  unfold double_exact, double_to_int64, int64. intros Hv.
  destruct (Z.leb_spec (- 9223372036854775808) v); [|lia].
  destruct (Z.leb_spec v 9223372036854775807); [reflexivity|lia].
Qed.

(** What [pad_row] returns: the sequence right-padded when it fits, its
    first [max_padding] entries when it does not, an error for a negative
    [max_padding]. *)
Lemma pad_row_fits max_padding pad_id processed :
  double_exact pad_id ->
  (Z.of_nat (length processed) <= max_padding)%Z ->
  pad_row max_padding pad_id processed
  = Some (processed
            ++ repeat pad_id (Z.to_nat max_padding - length processed)).
Proof.
  intros Hpad Hle. unfold pad_row, pad.
  rewrite (as_double_exact Hpad). cbn [bind].
  destruct (Z.ltb_spec
    (Z.of_nat (length processed)
     + (max_padding - Z.of_nat (length processed))) 0); [lia|].
  destruct (Z.ltb_spec 0 (max_padding - Z.of_nat (length processed)))
    as [Hp|Hp].
  - rewrite (double_to_int64_exact Hpad). cbn [bind].
    do 3 f_equal. lia.
  - replace (Z.to_nat max_padding - length processed) with 0 by lia.
    cbn [repeat]. rewrite app_nil_r. f_equal.
    apply firstn_all2. lia.
Qed.

Lemma pad_row_overflow max_padding pad_id processed :
  double_exact pad_id ->
  (0 <= max_padding)%Z ->
  (max_padding < Z.of_nat (length processed))%Z ->
  pad_row max_padding pad_id processed
  = Some (firstn (Z.to_nat max_padding) processed).
Proof.
  intros Hpad H0 Hlt. unfold pad_row, pad.
  rewrite (as_double_exact Hpad). cbn [bind].
  destruct (Z.ltb_spec
    (Z.of_nat (length processed)
     + (max_padding - Z.of_nat (length processed))) 0); [lia|].
  destruct (Z.ltb_spec 0 (max_padding - Z.of_nat (length processed)));
    [lia|].
  do 2 f_equal. lia.
Qed.

Lemma pad_row_negative max_padding pad_id processed :
  (max_padding < 0)%Z -> pad_row max_padding pad_id processed = None.
Proof.
  intros Hneg. unfold pad_row, pad.
  destruct (as_double pad_id); [|reflexivity]. cbn [bind].
  destruct (Z.ltb_spec
    (Z.of_nat (length processed)
     + (max_padding - Z.of_nat (length processed))) 0); [reflexivity|lia].
Qed.

Lemma pad_row_total max_padding pad_id processed :
  double_exact pad_id -> (0 <= max_padding)%Z ->
  exists row, pad_row max_padding pad_id processed = Some row
              /\ length row = Z.to_nat max_padding.
Proof.
  intros Hpad H0.
  destruct (Z.le_gt_cases (Z.of_nat (length processed)) max_padding)
    as [Hle|Hgt].
  - rewrite pad_row_fits by assumption. eexists; split; [reflexivity|].
    rewrite length_app, repeat_length. lia.
  - rewrite pad_row_overflow by (assumption || lia).
    eexists; split; [reflexivity|].
    apply firstn_length_le. lia.
Qed.

Lemma processed_src_fits (s : Text) :
  forallb int64 (src_ids s) = true ->
  processed_src src_pipeline src_vocab s
  = Some (bs_id ++ src_ids s ++ eos_id).
Proof.
  intros H. unfold processed_src, tensor_int64. now rewrite H.
Qed.

Lemma processed_tgt_fits (t : Text) :
  forallb int64 (tgt_ids t) = true ->
  processed_tgt tgt_pipeline tgt_vocab t
  = Some (bs_id ++ tgt_ids t ++ eos_id).
Proof.
  intros H. unfold processed_tgt, tensor_int64. now rewrite H.
Qed.

(** The loop appends, row by row, what [pad_row] returns. *)
Lemma collate_loop_rows max_padding pad_id batch :
  double_exact pad_id -> (0 <= max_padding)%Z ->
  ids_fit src_pipeline tgt_pipeline src_vocab tgt_vocab batch = true ->
  forall src_list tgt_list,
  exists srcs tgts,
    collate_loop src_pipeline tgt_pipeline src_vocab tgt_vocab
      batch max_padding pad_id src_list tgt_list
    = Some (src_list ++ srcs, tgt_list ++ tgts)
    /\ length srcs = length batch /\ length tgts = length batch
    /\ Forall (fun r => length r = Z.to_nat max_padding) srcs
    /\ Forall (fun r => length r = Z.to_nat max_padding) tgts
    /\ forall i s t, nth_error batch i = Some (s, t) ->
         (exists r, nth_error srcs i = Some r
                    /\ pad_row max_padding pad_id
                         (bs_id ++ src_ids s ++ eos_id) = Some r)
         /\ (exists r, nth_error tgts i = Some r
                    /\ pad_row max_padding pad_id
                         (bs_id ++ tgt_ids t ++ eos_id) = Some r).
Proof.
  intros Hpad H0.
  induction batch as [|[s0 t0] rest IH]; intros Hfit src_list tgt_list.
  - exists [], []. cbn [collate_loop]. rewrite !app_nil_r.
    repeat (split; [solve [auto]|]).
    intros i s t Hi; destruct i; discriminate.
  - cbn [ids_fit forallb fst snd] in Hfit.
    apply andb_prop in Hfit. destruct Hfit as [Hrow Hfit].
    apply andb_prop in Hrow. destruct Hrow as [Hs Ht].
    cbn [collate_loop].
    rewrite (processed_src_fits _ Hs), (processed_tgt_fits _ Ht).
    cbn [bind].
    destruct (@pad_row_total max_padding pad_id
                (bs_id ++ src_ids s0 ++ eos_id) Hpad H0)
      as [rs [Hrs Ls]].
    destruct (@pad_row_total max_padding pad_id
                (bs_id ++ tgt_ids t0 ++ eos_id) Hpad H0)
      as [rt [Hrt Lt]].
    rewrite Hrs, Hrt. cbn [bind].
    destruct (IH Hfit (src_list ++ [rs]) (tgt_list ++ [rt]))
      as [srcs [tgts [Heq [L1 [L2 [F1 [F2 Hrows]]]]]]].
    exists (rs :: srcs), (rt :: tgts).
    rewrite Heq, <- !app_assoc. simpl.
    repeat (split; [solve [simpl; auto]|]).
    intros i s t Hi; destruct i as [|i]; simpl in *;
      [ injection Hi as -> ->; split; eauto | apply (Hrows i s t Hi) ].
Qed.

Lemma stack_uniform (n : nat) (l : list (list Z)) :
  l <> [] -> Forall (fun r => length r = n) l -> stack l = Some l.
Proof.
  intros Hne Hall. destruct l as [|r rs]; [congruence|].
  simpl. inversion Hall as [|? ? Hr Hrs]; subst.
  replace (forallb (fun r' => length r' =? length r) rs) with true;
    [reflexivity|].
  symmetry. apply forallb_forall. intros x Hx.
  rewrite Forall_forall in Hrs. rewrite (Hrs x Hx). apply Nat.eqb_refl.
Qed.

(** An id outside int64 anywhere in the batch is an error. *)
Lemma collate_loop_bad_ids max_padding pad_id batch :
  ids_fit src_pipeline tgt_pipeline src_vocab tgt_vocab batch = false ->
  forall src_list tgt_list,
    collate_loop src_pipeline tgt_pipeline src_vocab tgt_vocab
      batch max_padding pad_id src_list tgt_list = None.
Proof.
  induction batch as [|[s0 t0] rest IH]; intros Hfit src_list tgt_list;
    [discriminate|].
  cbn [ids_fit forallb fst snd] in Hfit. cbn [collate_loop].
  unfold processed_src, processed_tgt, tensor_int64.
  destruct (forallb int64 (src_ids s0)); [|reflexivity]. cbn [bind].
  destruct (forallb int64 (tgt_ids t0)); [|reflexivity]. cbn [bind].
  cbn [andb] in Hfit.
  destruct (pad_row _ _ _); [|reflexivity]. cbn [bind].
  destruct (pad_row _ _ _); [|reflexivity]. cbn [bind].
  apply IH. exact Hfit.
Qed.

(** On a non-empty batch in range [collate_batch] succeeds, and row [i]
    of each result is the padded row of the [i]-th pair. *)
Lemma collate_batch_rows max_padding pad_id batch i s t :
  double_exact pad_id -> (0 <= max_padding)%Z ->
  ids_fit src_pipeline tgt_pipeline src_vocab tgt_vocab batch = true ->
  nth_error batch i = Some (s, t) ->
  exists src tgt rs rt,
    collate batch max_padding pad_id = Some (src, tgt)
    /\ length src = length batch /\ length tgt = length batch
    /\ Forall (fun r => length r = Z.to_nat max_padding) src
    /\ Forall (fun r => length r = Z.to_nat max_padding) tgt
    /\ nth_error src i = Some rs
    /\ pad_row max_padding pad_id (bs_id ++ src_ids s ++ eos_id) = Some rs
    /\ nth_error tgt i = Some rt
    /\ pad_row max_padding pad_id (bs_id ++ tgt_ids t ++ eos_id) = Some rt.
Proof.
  intros Hpad H0 Hfit Hi. unfold collate_batch.
  destruct (@collate_loop_rows max_padding pad_id batch Hpad H0 Hfit [] [])
    as [srcs [tgts [Heq [L1 [L2 [F1 [F2 Hrows]]]]]]].
  rewrite Heq. simpl.
  assert (Hb : batch <> []) by (destruct batch, i; discriminate).
  assert (Hs : srcs <> []).
  { destruct srcs; [destruct batch; simpl in L1; congruence | discriminate]. }
  assert (Ht : tgts <> []).
  { destruct tgts; [destruct batch; simpl in L2; congruence | discriminate]. }
  rewrite (stack_uniform Hs F1). simpl.
  rewrite (stack_uniform Ht F2). simpl.
  destruct (Hrows i s t Hi) as [[rs [H1 H2]] [rt [H3 H4]]].
  exists srcs, tgts, rs, rt. auto 10.
Qed.

(** C8.  In a batch whose ids are int64 values, with a pad id a double
    holds exactly, a row whose source maps to [k] ids with [k + 2 <=
    max_padding] is collated without error into a row of length exactly
    [max_padding]: start id 0, the [k] ids, end id 1, then
    [max_padding - k - 2] copies of [pad_id]. *)
Theorem collate_batch_row_layout max_padding pad_id batch i _src _tgt ids :
  ids_fit src_pipeline tgt_pipeline src_vocab tgt_vocab batch = true ->
  double_exact pad_id ->
  nth_error batch i = Some (_src, _tgt) ->
  src_vocab (src_pipeline _src) = ids ->
  (Z.of_nat (length ids) + 2 <= max_padding)%Z ->
  exists src tgt row,
    collate_batch src_pipeline tgt_pipeline src_vocab tgt_vocab
      batch max_padding pad_id = Some (src, tgt)
    /\ nth_error src i = Some row
    /\ Z.of_nat (length row) = max_padding
    /\ row = 0%Z :: ids ++ [1%Z]
               ++ repeat pad_id (Z.to_nat max_padding - length ids - 2).
Proof.
  intros Hfit Hpad Hi Hids Hk.
  assert (H0 : (0 <= max_padding)%Z) by lia.
  destruct (@collate_batch_rows max_padding pad_id batch i _ _ Hpad H0 Hfit Hi)
    as [src [tgt [rs [rt [Hc [_ [_ [_ [_ [Hs [Hp _]]]]]]]]]]].
  rewrite Hids in Hp.
  assert (Hlen : length (bs_id ++ ids ++ eos_id) = length ids + 2).
  { unfold bs_id, eos_id. simpl. rewrite length_app. simpl. lia. }
  rewrite pad_row_fits in Hp by (assumption || lia).
  assert (Hrow : rs = 0%Z :: ids ++ [1%Z]
                        ++ repeat pad_id
                             (Z.to_nat max_padding - length ids - 2)).
  { rewrite Hlen in Hp.
    replace (Z.to_nat max_padding - (length ids + 2))
      with (Z.to_nat max_padding - length ids - 2) in Hp by lia.
    unfold bs_id, eos_id in Hp.
    simpl in Hp. rewrite <- app_assoc in Hp. congruence. }
  exists src, tgt, rs. repeat (split; [assumption|]). split; [|exact Hrow].
  rewrite Hrow. simpl. rewrite length_app. simpl. rewrite repeat_length. lia.
Qed.

(** C9.  For a positive [max_padding], a batch whose ids are int64 values
    and a pad id a double holds exactly, a processed sequence longer than
    [max_padding] raises nothing: [collate_batch] returns, and the row is
    the first [max_padding] entries of the bracketed sequence, the rest (at
    least the end id) being dropped and no padding added.  The same holds
    of target rows. *)
Theorem collate_batch_overflow_silent max_padding pad_id batch i _src _tgt :
  (1 <= max_padding)%Z ->
  ids_fit src_pipeline tgt_pipeline src_vocab tgt_vocab batch = true ->
  double_exact pad_id ->
  nth_error batch i = Some (_src, _tgt) ->
  exists src tgt rs rt ps pt,
    collate_batch src_pipeline tgt_pipeline src_vocab tgt_vocab
      batch max_padding pad_id = Some (src, tgt)
    /\ processed_src src_pipeline src_vocab _src = Some ps
    /\ processed_tgt tgt_pipeline tgt_vocab _tgt = Some pt
    /\ ps = 0%Z :: src_vocab (src_pipeline _src) ++ [1%Z]
    /\ pt = 0%Z :: tgt_vocab (tgt_pipeline _tgt) ++ [1%Z]
    /\ nth_error src i = Some rs /\ nth_error tgt i = Some rt
    /\ ((max_padding < Z.of_nat (length ps))%Z ->
        rs = firstn (Z.to_nat max_padding) ps
        /\ Z.of_nat (length rs) = max_padding
        /\ exists dropped, dropped <> [] /\ rs ++ dropped = ps)
    /\ ((max_padding < Z.of_nat (length pt))%Z ->
        rt = firstn (Z.to_nat max_padding) pt
        /\ Z.of_nat (length rt) = max_padding
        /\ exists dropped, dropped <> [] /\ rt ++ dropped = pt).
Proof.
  intros Hmp Hfit Hpad Hi.
  assert (H0 : (0 <= max_padding)%Z) by lia.
  destruct (@collate_batch_rows max_padding pad_id batch i _ _ Hpad H0 Hfit Hi)
    as [src [tgt [rs [rt [Hc [_ [_ [_ [_ [Hs [Hps [Ht Hpt]]]]]]]]]]]].
  assert (Hrow : forallb int64 (src_ids _src) = true
                 /\ forallb int64 (tgt_ids _tgt) = true).
  { unfold ids_fit in Hfit. rewrite forallb_forall in Hfit.
    apply nth_error_In in Hi. apply Hfit in Hi. cbn [fst snd] in Hi.
    now apply andb_prop in Hi. }
  destruct Hrow as [Hfs Hft].
  exists src, tgt, rs, rt,
    (bs_id ++ src_ids _src ++ eos_id), (bs_id ++ tgt_ids _tgt ++ eos_id).
  split; [exact Hc|].
  split; [now apply processed_src_fits|].
  split; [now apply processed_tgt_fits|].
  split; [reflexivity|]. split; [reflexivity|].
  split; [exact Hs|]. split; [exact Ht|].
  split; intros Hov.
  - rewrite pad_row_overflow in Hps by assumption.
    assert (Hrs : rs = firstn (Z.to_nat max_padding)
                         (bs_id ++ src_ids _src ++ eos_id)) by congruence.
    rewrite Hrs. split; [reflexivity|].
    split; [rewrite firstn_length_le; lia|].
    exists (skipn (Z.to_nat max_padding) (bs_id ++ src_ids _src ++ eos_id)).
    split.
    + intros Hnil. apply (f_equal (@length Z)) in Hnil.
      rewrite length_skipn in Hnil. cbn [length] in Hnil. lia.
    + apply firstn_skipn.
  - rewrite pad_row_overflow in Hpt by assumption.
    assert (Hrt : rt = firstn (Z.to_nat max_padding)
                         (bs_id ++ tgt_ids _tgt ++ eos_id)) by congruence.
    rewrite Hrt. split; [reflexivity|].
    split; [rewrite firstn_length_le; lia|].
    exists (skipn (Z.to_nat max_padding) (bs_id ++ tgt_ids _tgt ++ eos_id)).
    split.
    + intros Hnil. apply (f_equal (@length Z)) in Hnil.
      rewrite length_skipn in Hnil. cbn [length] in Hnil. lia.
    + apply firstn_skipn.
Qed.

End CollateProps.

(** ** List updates *)

Lemma length_set_nth {A : Type} (i : nat) (v : A) (l : list A) :
  length (set_nth i v l) = length l.
Proof.
  revert i; induction l as [|a l IH]; intros [|i]; simpl; auto.
Qed.

Lemma nth_error_set_nth_eq {A : Type} (i : nat) (v : A) (l : list A) :
  i < length l -> nth_error (set_nth i v l) i = Some v.
Proof.
  revert i; induction l as [|a l IH]; intros [|i] Hi; simpl in *;
    try lia; auto.
  apply IH. lia.
Qed.

Lemma nth_error_set_nth_neq {A : Type} (i j : nat) (v : A) (l : list A) :
  i <> j -> nth_error (set_nth i v l) j = nth_error l j.
Proof.
  revert i j; induction l as [|a l IH]; intros [|i] [|j] Hij; simpl;
    try congruence; auto.
Qed.

Lemma set_nth_beyond {A : Type} (i : nat) (v : A) (l : list A) :
  length l <= i -> set_nth i v l = l.
Proof.
  revert i; induction l as [|a l IH]; intros [|i] Hi; simpl in *;
    try lia; auto.
  f_equal. apply IH. lia.
Qed.

Lemma map_const_repeat {A B : Type} (v : B) (l : list A) :
  map (fun _ => v) l = repeat v (length l).
Proof.
  induction l as [|a l IH]; simpl; congruence.
Qed.

(** ** Label smoothing *)

Section SmoothingProps.

Import LabelSmoothing.

Lemma row_sum_repeat (v : Q) (n : nat) :
  (row_sum (repeat v n) == inject_Z (Z.of_nat n) * v)%Q.
Proof.
  induction n as [|n IH].
  - simpl. ring.
  - cbn [repeat row_sum fold_right]. fold (row_sum (repeat v n)).
    rewrite IH, Nat2Z.inj_succ. unfold Z.succ. rewrite inject_Z_plus. ring.
Qed.

Lemma row_sum_set_nth (i : nat) (v : Q) (l : list Q) :
  i < length l ->
  (row_sum (set_nth i v l) == row_sum l - nth i l 0 + v)%Q.
Proof.
  revert i; induction l as [|a l IH]; intros [|i] Hi; simpl in *; try lia.
  - fold (row_sum l). ring.
  - fold (row_sum l) (row_sum (set_nth i v l)).
    rewrite IH by lia. ring.
Qed.

(** The scatter on the freshly filled tensor. *)
Lemma scatter_filled (size : nat) (v c : Q) (target : list nat) :
  forall x,
    Forall (fun row => length row = size) x ->
    length target = length x ->
    Forall (fun t => t < size) target ->
    scatter_ (fill_ x v) target c
    = Some (map (fun t => set_nth t c (repeat v size)) target).
Proof.
  unfold fill_.
  induction target as [|t target IH]; intros [|row x] Hx Hlen Ht;
    simpl in *; try discriminate; auto.
  inversion Hx as [|? ? Hrow Hx']; subst.
  inversion Ht as [|? ? Ht0 Ht']; subst.
  rewrite length_map.
  destruct (Nat.ltb_spec t (length row)); [|lia].
  rewrite (IH x Hx') by (auto; lia). simpl.
  now rewrite map_const_repeat.
Qed.

(** Row [r] after [index_fill_]: filled when [r] is listed, kept
    otherwise. *)
Lemma index_fill_nth_error (v : Q) (index : list nat) :
  forall (d : list (list Q)) (r : nat),
    nth_error (index_fill_ d index v) r
    = if existsb (Nat.eqb r) index
      then option_map (map (fun _ => v)) (nth_error d r)
      else nth_error d r.
Proof.
  unfold index_fill_.
  induction index as [|a index IH]; intros d r; simpl; auto.
  rewrite IH.
  destruct (Nat.eqb_spec r a) as [->|Hra]; simpl.
  - destruct (Nat.lt_ge_cases a (length d)) as [Hlt|Hge].
    + rewrite nth_error_set_nth_eq by assumption.
      destruct (nth_error d a) as [row|] eqn:Hd.
      * rewrite (nth_error_nth _ _ _ Hd). simpl.
        destruct (existsb (Nat.eqb a) index); simpl; auto.
        now rewrite map_map.
      * apply nth_error_None in Hd. lia.
    + rewrite set_nth_beyond by assumption.
      apply nth_error_None in Hge. rewrite Hge.
      now destruct (existsb (Nat.eqb a) index).
  - rewrite nth_error_set_nth_neq by congruence. reflexivity.
Qed.

Lemma nonzero_eq_spec (target : list nat) (pad r t : nat) :
  nth_error target r = Some t ->
  existsb (Nat.eqb r) (nonzero_eq target pad) = (t =? pad).
Proof.
  intros Hr. unfold nonzero_eq.
  assert (Hlt : r < length target) by (apply nth_error_Some; congruence).
  destruct (Nat.eqb_spec t pad) as [->|Hne].
  - apply existsb_exists. exists r. split; [|apply Nat.eqb_refl].
    apply filter_In. split; [apply in_seq; lia|].
    rewrite (nth_error_nth _ _ _ Hr). apply Nat.eqb_refl.
  - destruct (existsb _ _) eqn:E; [|reflexivity].
    apply existsb_exists in E. destruct E as [r' [Hin Heq]].
    apply Nat.eqb_eq in Heq. subst r'.
    apply filter_In in Hin. destruct Hin as [_ Hnth].
    rewrite (nth_error_nth _ _ _ Hr) in Hnth.
    apply Nat.eqb_eq in Hnth. congruence.
Qed.

(** The smoothed distribution, row by row. *)
Lemma smoothed_rows kl (size pad : nat) (s : Q) x target :
  size <> 2 -> pad < size ->
  Forall (fun row => length row = size) x ->
  length target = length x ->
  Forall (fun t => t < size) target ->
  exists d,
    smoothed (init kl size pad s) x target = Some d
    /\ length d = length target
    /\ forall r t, nth_error target r = Some t ->
         nth_error d r
         = Some (if t =? pad then repeat 0%Q size
                 else set_nth pad 0%Q
                        (set_nth t (1 - s)%Q
                           (repeat (s / inject_Z (Z.of_nat size - 2))%Q size))).
Proof.
  intros Hsize Hpad Hx Hlen Ht. unfold smoothed. simpl.
  replace (forallb (fun row => length row =? size) x) with true.
  2:{ symmetry. apply forallb_forall. intros row Hin.
      rewrite Forall_forall in Hx. rewrite (Hx row Hin).
      apply Nat.eqb_refl. }
  simpl. unfold fill_value.
  destruct (Z.eqb_spec (Z.of_nat size - 2) 0) as [Hz|_]; [lia|]. simpl.
  rewrite (scatter_filled _ _ Hx Hlen Ht). simpl.
  unfold set_column. destruct (Nat.ltb_spec pad size); [|lia].
  simpl. eexists. split; [reflexivity|]. split.
  - unfold index_fill_.
    assert (Hl : forall (idx : list nat) (d : list (list Q)),
      length (fold_left
        (fun d r => set_nth r (map (fun _ => 0%Q) (nth r d [])) d) idx d)
      = length d).
    { induction idx as [|a idx IH]; intros d; simpl; auto.
      now rewrite IH, length_set_nth. }
    now rewrite Hl, !length_map.
  - intros r t Hr. rewrite index_fill_nth_error.
    rewrite (@nonzero_eq_spec target pad r t Hr), !nth_error_map, Hr. simpl.
    destruct (t =? pad); [|reflexivity].
    rewrite map_const_repeat, !length_set_nth, repeat_length. reflexivity.
Qed.

(** C4.  After [forward], for indices in range and [size >= 3] (so that
    [smoothing / (size - 2)] is defined), every row of [true_dist] whose
    target [t] is not [padding_idx] holds [1 - smoothing] at [t], 0 at
    [padding_idx], [smoothing / (size - 2)] elsewhere, and sums to
    [confidence + smoothing]; every row whose target is [padding_idx] is
    all zero. *)
Theorem label_smoothing_rows kl (size pad : nat) (s : Q) x target :
  3 <= size -> pad < size ->
  Forall (fun row => length row = size) x ->
  length target = length x ->
  Forall (fun t => t < size) target ->
  exists loss self' d,
    forward (init kl size pad s) x target = Some (loss, self')
    /\ true_dist self' = Some d
    /\ length d = length target
    /\ forall r t, nth_error target r = Some t ->
       exists row,
         nth_error d r = Some row /\ length row = size
         /\ (t <> pad ->
             nth_error row t = Some (1 - s)%Q
             /\ nth_error row pad = Some 0%Q
             /\ (forall j, j < size -> j <> t -> j <> pad ->
                   nth_error row j
                   = Some (s / inject_Z (Z.of_nat size - 2))%Q)
             /\ (row_sum row == (1 - s) + s)%Q)
         /\ (t = pad -> row = repeat 0%Q size).
Proof.
  intros Hsize Hpad Hx Hlen Ht.
  destruct (@smoothed_rows kl size pad s x target) as [d [Hd [Hl Hrows]]];
    auto; try lia.
  unfold forward. rewrite Hd. simpl.
  do 3 eexists. split; [reflexivity|]. split; [reflexivity|].
  split; [exact Hl|].
  intros r t Hr. rewrite (Hrows r t Hr).
  assert (Htlt : t < size).
  { rewrite Forall_forall in Ht. apply Ht. eapply nth_error_In; eauto. }
  eexists. split; [reflexivity|].
  destruct (Nat.eqb_spec t pad) as [->|Hne].
  - split; [apply repeat_length|]. split; [congruence | reflexivity].
  - set (v := (s / inject_Z (Z.of_nat size - 2))%Q).
    split; [now rewrite !length_set_nth, repeat_length|].
    split; [|congruence]. intros _.
    split.
    { rewrite nth_error_set_nth_neq by congruence.
      apply nth_error_set_nth_eq. now rewrite repeat_length. }
    split.
    { apply nth_error_set_nth_eq.
      now rewrite length_set_nth, repeat_length. }
    split.
    { intros j Hj Hjt Hjp.
      rewrite !nth_error_set_nth_neq by congruence.
      now apply nth_error_repeat. }
    rewrite row_sum_set_nth
      by (now rewrite length_set_nth, repeat_length).
    rewrite row_sum_set_nth by (now rewrite repeat_length).
    rewrite row_sum_repeat.
    assert (Hp : nth pad (set_nth t (1 - s)%Q (repeat v size)) 0%Q = v).
    { apply nth_error_nth. rewrite nth_error_set_nth_neq by congruence.
      now apply nth_error_repeat. }
    rewrite Hp. rewrite nth_repeat_lt by assumption.
    replace (Z.of_nat size) with ((Z.of_nat size - 2) + 2)%Z by lia.
    rewrite inject_Z_plus. unfold v.
    assert (Hm : ~ (inject_Z (Z.of_nat size - 2) == 0)%Q).
    { unfold Qeq. simpl. lia. }
    change (inject_Z 2) with 2%Q.
    field. exact Hm.
Qed.

End SmoothingProps.

(** ** Decoding *)

Lemma mapM_length {A B : Type} (f : A -> option B) (l : list A) :
  forall l', mapM f l = Some l' -> length l' = length l.
Proof.
  induction l as [|a l IH]; simpl; intros l' H.
  - injection H as <-. reflexivity.
  - bind_inv H as b Eb. bind_inv H as bs Ebs. injection H as <-.
    simpl. f_equal. now apply IH.
Qed.

Lemma last_opt_snoc {A : Type} (l : list A) (a : A) :
  last_opt (l ++ [a]) = Some a.
Proof.
  unfold last_opt. now rewrite rev_unit.
Qed.

Lemma mapM_Forall2 {A B : Type} (f : A -> option B) (l : list A) :
  forall l', mapM f l = Some l' -> Forall2 (fun a b => f a = Some b) l l'.
Proof.
  induction l as [|a l IH]; simpl; intros l' H.
  - injection H as <-. constructor.
  - bind_inv H as b Eb. bind_inv H as bs Ebs. injection H as <-.
    constructor; auto.
Qed.

Lemma last_opt_Some {A : Type} (l : list A) (a : A) :
  last_opt l = Some a -> exists pre, l = pre ++ [a].
Proof.
  unfold last_opt. intros H. destruct (rev l) as [|x r] eqn:E;
    [discriminate|]. injection H as ->.
  exists (rev r). apply (f_equal (@rev A)) in E.
  rewrite rev_involutive in E. exact E.
Qed.

(** *** Selection of the best entry *)

Section SelectionProps.

Import Decoding.

Lemma Qltb_true (a b : Q) : Qltb a b = true -> (a < b)%Q.
Proof.
  unfold Qltb. intros H. apply Qnot_le_lt. intros Hle.
  apply Qle_bool_iff in Hle. rewrite Hle in H. discriminate.
Qed.

Lemma Qltb_false (a b : Q) : Qltb a b = false -> (b <= a)%Q.
Proof.
  unfold Qltb. intros H. apply Qle_bool_iff.
  destruct (Qle_bool b a); [reflexivity | discriminate].
Qed.

(** What [best] returns on an indexed row: an entry no other entry
    exceeds, and the first such. *)
Lemma best_seq_spec (l : list Q) :
  forall a c,
    let b := best c (combine (seq a (length l)) l) in
    (snd c <= snd b)%Q
    /\ (forall j v, nth_error l j = Some v -> (v <= snd b)%Q)
    /\ (b = c
        \/ exists k, fst b = a + k /\ nth_error l k = Some (snd b)
                     /\ (snd c < snd b)%Q
                     /\ forall j v, j < k -> nth_error l j = Some v ->
                                    (v < snd b)%Q).
Proof.
  induction l as [|v0 l IH]; intros a c; cbn [length seq combine best].
  - cbv zeta. split; [apply Qle_refl|]. split; [|left; reflexivity].
    intros j v H; destruct j; discriminate.
  - cbv zeta. cbn [snd].
    destruct (Qltb (snd c) v0) eqn:E.
    + apply Qltb_true in E.
      destruct (IH (S a) (a, v0)) as [H1 [H2 H3]]. cbv zeta in *.
      cbn [fst snd] in *.
      set (b := best (a, v0) (combine (seq (S a) (length l)) l)) in *.
      split; [apply Qlt_le_weak; eapply Qlt_le_trans; eauto|].
      split.
      * intros [|j] v H; simpl in H; [injection H as <-; exact H1|eauto].
      * right. destruct H3 as [Hb|[k [Hk [Hn [Hlt Hfirst]]]]].
        -- exists 0. rewrite Hb. cbn [fst snd nth_error].
           split; [lia|]. split; [reflexivity|]. split; [exact E|].
           intros j v Hj; lia.
        -- exists (S k). split; [lia|]. split; [exact Hn|].
           split; [eapply Qlt_trans; eauto|].
           intros [|j] v Hj H; simpl in H.
           ++ injection H as <-. exact Hlt.
           ++ apply (Hfirst j v); [lia | exact H].
    + apply Qltb_false in E.
      destruct (IH (S a) c) as [H1 [H2 H3]]. cbv zeta in *.
      set (b := best c (combine (seq (S a) (length l)) l)) in *.
      split; [exact H1|]. split.
      * intros [|j] v H; simpl in H;
          [injection H as <-; eapply Qle_trans; eauto | eauto].
      * destruct H3 as [Hb|[k [Hk [Hn [Hlt Hfirst]]]]]; [left; exact Hb|].
        right. exists (S k). split; [lia|]. split; [exact Hn|].
        split; [exact Hlt|].
        intros [|j] v Hj H; simpl in H.
        -- injection H as <-. eapply Qle_lt_trans; eauto.
        -- apply (Hfirst j v); [lia | exact H].
Qed.

(** [argmax] returns the first position of a largest entry. *)
Lemma argmax_first (p : list Q) (w : nat) :
  argmax p = Some w ->
  exists q,
    nth_error p w = Some q
    /\ (forall j v, nth_error p j = Some v -> (v <= q)%Q)
    /\ (forall j v, j < w -> nth_error p j = Some v -> (v < q)%Q).
Proof.
  unfold argmax, indexed. destruct p as [|q0 p]; [discriminate|].
  cbn [length seq combine]. intros H. injection H as <-.
  destruct (best_seq_spec p 1 (0, q0)) as [H1 [H2 H3]]. cbv zeta in *.
  cbn [fst snd] in *.
  set (b := best (0, q0) (combine (seq 1 (length p)) p)) in *.
  exists (snd b). destruct H3 as [Hb|[k [Hk [Hn [Hlt Hfirst]]]]].
  - rewrite Hb in *. cbn [fst snd nth_error] in *.
    split; [reflexivity|]. split.
    + intros [|j] v H; simpl in H; [injection H as <-; apply Qle_refl|eauto].
    + intros j v Hj; lia.
  - rewrite Hk. cbn [Nat.add nth_error]. split; [exact Hn|]. split.
    + intros [|j] v H; simpl in H;
        [injection H as <-; now apply Qlt_le_weak | eauto].
    + intros [|j] v Hj H; simpl in H.
      * injection H as <-. exact Hlt.
      * apply (Hfirst j v); [lia | exact H].
Qed.

End SelectionProps.

Section DecodingProps.

Import Decoding.

Variables Src MaskRow MemRow Hidden : Type.
Variable model : Model Src MaskRow MemRow Hidden.

Lemma argmax_nonempty (row : list Q) :
  row <> [] -> exists w, argmax row = Some w.
Proof.
  destruct row as [|q row]; [congruence|]. intros _.
  unfold argmax, indexed. simpl. eauto.
Qed.

Lemma mapM_argmax_rows (p : list Q) (ps : list (list Q)) :
  Forall (fun r => r <> []) (p :: ps) ->
  exists w ws, argmax p = Some w /\ mapM argmax (p :: ps) = Some (w :: ws).
Proof.
  intros H. inversion H as [|? ? Hp Hps]; subst.
  destruct (argmax_nonempty Hp) as [w Hw].
  assert (Hrest : exists ws, mapM argmax ps = Some ws).
  { clear H Hp Hw. induction ps as [|r ps IH]; simpl; [eauto|].
    inversion Hps as [|? ? Hr Hps']; subst.
    destruct (argmax_nonempty Hr) as [w' ->].
    destruct (IH Hps') as [ws ->]. simpl. eauto. }
  destruct Hrest as [ws Hws].
  exists w, ws. split; [exact Hw|]. simpl. now rewrite Hw, Hws.
Qed.

Lemma greedy_step_appends_argmax memory src_mask row :
  answers model memory src_mask -> row <> [] ->
  exists p ps w,
    next_log_probs model memory src_mask [row] = Some (p :: ps)
    /\ argmax p = Some w
    /\ greedy_step model memory src_mask [row] = Some [row ++ [w]].
Proof.
  intros Hans Hrow. destruct (Hans row Hrow) as [p [ps [Hp Hne]]].
  destruct (mapM_argmax_rows Hne) as [w [ws [Hw Hws]]].
  exists p, ps, w. repeat (split; [assumption|]).
  unfold greedy_step. rewrite Hp. cbn [bind]. rewrite Hws. reflexivity.
Qed.

Lemma greedy_loop_spec memory src_mask (n : nat) :
  answers model memory src_mask ->
  forall row, row <> [] ->
  exists out,
    greedy_loop model n memory src_mask [row] = Some [out]
    /\ length out = length row + n
    /\ firstn (length row) out = row
    /\ forall k, length row <= k < length row + n ->
         exists p ps w,
           next_log_probs model memory src_mask [firstn k out]
           = Some (p :: ps)
           /\ argmax p = Some w
           /\ nth_error out k = Some w.
Proof.
  intros Hans. induction n as [|n IH]; intros row Hrow.
  - exists row. simpl. split; [reflexivity|]. split; [lia|].
    split; [apply firstn_all|]. intros k Hk. lia.
  - destruct (greedy_step_appends_argmax Hans Hrow)
      as [p [ps [w [Hp [Hw Hstep]]]]].
    assert (Hrow' : row ++ [w] <> []) by (destruct row; discriminate).
    destruct (IH (row ++ [w]) Hrow') as [out [Hout [Hlen [Hpre Hsteps]]]].
    rewrite length_app in Hlen, Hpre, Hsteps. simpl in Hlen, Hpre, Hsteps.
    assert (Hpre0 : firstn (length row) out = row).
    { replace (length row) with (Nat.min (length row) (length row + 1))
        at 1 by lia.
      rewrite <- firstn_firstn, Hpre, firstn_app, Nat.sub_diag, firstn_all.
      simpl. apply app_nil_r. }
    exists out. cbn [greedy_loop]. rewrite Hstep. cbn [bind].
    split; [exact Hout|]. split; [lia|]. split; [exact Hpre0|].
    intros k Hk.
    destruct (Nat.eq_dec k (length row)) as [->|Hne].
    + exists p, ps, w. rewrite Hpre0. repeat (split; [assumption|]).
      assert (E : nth_error (firstn (length row + 1) out) (length row)
                  = nth_error out (length row)).
      { rewrite nth_error_firstn.
        destruct (Nat.ltb_spec (length row) (length row + 1)); [auto|lia]. }
      rewrite <- E, Hpre, nth_error_app2, Nat.sub_diag by lia. reflexivity.
    + apply Hsteps. lia.
Qed.

(** What [next_log_probs] hands to the generator: the last position of
    every row the decoder returns, for the causal mask of the length of the
    partial target. *)
Lemma next_log_probs_calls memory src_mask row probs :
  next_log_probs model memory src_mask [row] = Some probs ->
  exists states,
    Forall2 (fun positions h => exists pre, positions = pre ++ [h])
            (decode model memory src_mask [row]
               [map (fun i => map (fun j => j <=? i) (seq 0 (length row)))
                    (seq 0 (length row))])
            states
    /\ generator model states = probs.
Proof.
  unfold next_log_probs, subsequent_mask, size1. cbn [hd].
  intros H. bind_inv H as states E. injection H as <-.
  exists states. split; [|reflexivity].
  apply mapM_Forall2 in E.
  induction E as [|positions h out states' Hh _ IH]; constructor; auto.
  now apply last_opt_Some.
Qed.

(** C5.  For [max_len >= 1], a start symbol float32 holds exactly and a
    model that answers every decode call, [greedy_decode] returns one
    sequence of exactly [max_len] tokens that starts with the start symbol.
    Each of the [max_len - 1] later positions [k] holds the first index of a
    largest entry of the first row the generator returns for the last
    position of the decoder's output on the first [k] tokens (decoded with
    the causal mask of size [k]).  No end token is consulted, so the length
    never depends on the tokens produced. *)
Theorem greedy_decode_fixed_length src src_mask max_len start_symbol :
  1 <= max_len ->
  float32_exact start_symbol ->
  answers model (encode model src src_mask) src_mask ->
  exists out,
    greedy_decode model src src_mask max_len start_symbol = Some [out]
    /\ length out = max_len
    /\ nth_error out 0 = Some start_symbol
    /\ forall k, 1 <= k < max_len ->
         exists states p ps w q,
           Forall2 (fun positions h => exists pre, positions = pre ++ [h])
                   (decode model (encode model src src_mask) src_mask
                      [firstn k out]
                      [map (fun i => map (fun j => j <=? i) (seq 0 k))
                           (seq 0 k)])
                   states
           /\ generator model states = p :: ps
           /\ nth_error out k = Some w
           /\ nth_error p w = Some q
           /\ (forall j v, nth_error p j = Some v -> (v <= q)%Q)
           /\ (forall j v, j < w -> nth_error p j = Some v -> (v < q)%Q).
Proof.
  intros Hlen _ Hans. unfold greedy_decode.
  destruct (@greedy_loop_spec (encode model src src_mask) src_mask
              (max_len - 1) Hans [start_symbol])
    as [out [Hout [Hl [Hpre Hsteps]]]]; [discriminate|].
  simpl in Hl, Hpre, Hsteps.
  exists out. split; [exact Hout|]. split; [lia|]. split.
  - destruct out as [|a out]; [discriminate|]. simpl in *. congruence.
  - intros k Hk.
    destruct (Hsteps k) as [p [ps [w [Hp [Hw Hk']]]]]; [lia|].
    destruct (next_log_probs_calls _ _ _ Hp) as [states [Hst Hgen]].
    rewrite length_firstn, Nat.min_l in Hst by lia.
    destruct (argmax_first _ Hw) as [q [Hq [Hmax Hfirst]]].
    exists states, p, ps, w, q. auto 10.
Qed.

(** *** The loop of [beam_search_decode] *)

Lemma topk_sel_length (k : nat) :
  forall cands top, topk_sel k cands = Some top -> length top = k.
Proof.
  induction k as [|k IH]; simpl; intros cands top H.
  - injection H as <-. reflexivity.
  - destruct cands as [|c cs]; [discriminate|].
    bind_inv H as rest Erest. injection H as <-.
    simpl. f_equal. eapply IH; eauto.
Qed.

(** What one loop body establishes: [beam_size] hypotheses, one more
    iteration, and [break] exactly when the test of line 173 holds. *)
Lemma beam_iter_inv beam_size end_idx i st st' brk :
  beam_iter model beam_size end_idx i st = Some (st', brk) ->
  length (ys st') = beam_size
  /\ all_ended beam_size end_idx (ys st') = Some brk
  /\ iterations st' = S (iterations st).
Proof.
  unfold beam_iter. intros H.
  bind_inv H as prob0 Eprob0. bind_inv H as prob Eprob.
  bind_inv H as combined Ecomb. bind_inv H as top Etop.
  bind_inv H as newys Enew.
  assert (Hlen : length newys = beam_size).
  { apply mapM_length in Enew. rewrite Enew, length_combine, !length_map.
    apply topk_sel_length in Etop. lia. }
  destruct newys as [|r rs]; [discriminate|].
  bind_inv H as stop Estop.
  destruct stop.
  - injection H as <- <-. simpl. auto.
  - destruct (last _ i =? 0).
    + bind_inv H as mem' Emem. bind_inv H as mask' Emask.
      injection H as <- <-. simpl. auto.
    + injection H as <- <-. simpl. auto.
Qed.

Lemma beam_loop_iterations beam_size end_idx (n : nat) :
  forall i st st',
    beam_loop model beam_size end_idx n i st = Some st' ->
    iterations st' <= iterations st + n.
Proof.
  induction n as [|n IH]; simpl; intros i st st' H.
  - injection H as <-. lia.
  - bind_inv H as r E. destruct r as [st1 brk]. simpl in H.
    apply beam_iter_inv in E. destruct E as [_ [_ Hit]].
    destruct brk.
    + injection H as <-. lia.
    + apply IH in H. lia.
Qed.

(** A run that has executed a body and ends in a state that passes the
    test of line 173 left through [break]: a larger budget changes
    nothing. *)
Lemma beam_loop_stable beam_size end_idx (n : nat) :
  forall i st st',
    1 <= n ->
    beam_loop model beam_size end_idx n i st = Some st' ->
    all_ended beam_size end_idx (ys st') = Some true ->
    forall n', n <= n' ->
      beam_loop model beam_size end_idx n' i st = Some st'.
Proof.
  induction n as [|n IH]; intros i st st' Hn H Hend n' Hle; [lia|].
  destruct n' as [|n']; [lia|].
  simpl in *. bind_inv H as r E. rewrite E. cbn [bind].
  destruct r as [st1 brk]. simpl in *.
  destruct brk; [exact H|].
  destruct n as [|n].
  - simpl in H. injection H as <-.
    apply beam_iter_inv in E. destruct E as [_ [E _]]. congruence.
  - apply (IH (S i) st1 st'); auto; lia.
Qed.

Lemma beam_loop_width beam_size end_idx (n : nat) :
  forall i st st',
    1 <= n ->
    beam_loop model beam_size end_idx n i st = Some st' ->
    length (ys st') = beam_size.
Proof.
  induction n as [|n IH]; intros i st st' Hn H; [lia|].
  simpl in H. bind_inv H as r E. destruct r as [st1 brk]. simpl in H.
  apply beam_iter_inv in E. destruct E as [Hw _].
  destruct brk; [injection H as <-; exact Hw|].
  destruct n as [|n]; [simpl in H; injection H as <-; exact Hw|].
  apply (IH (S i) st1 st'); auto; lia.
Qed.

Lemma all_ended_Forall beam_size end_idx (hyps : list (list nat)) :
  length hyps = beam_size ->
  Forall (fun row => last_opt row = Some end_idx) hyps ->
  all_ended beam_size end_idx hyps = Some true.
Proof.
  intros Hlen Hall. unfold all_ended.
  assert (Hm : mapM (@last_opt nat) hyps
               = Some (repeat end_idx (length hyps))).
  { clear Hlen. induction Hall as [|row hyps Hrow _ IH]; simpl; auto.
    now rewrite Hrow, IH. }
  rewrite Hm. cbn [bind]. f_equal.
  assert (Hf : forall n, filter (fun t => t =? end_idx) (repeat end_idx n)
                         = repeat end_idx n).
  { induction n as [|n IH]; simpl; auto.
    now rewrite Nat.eqb_refl, IH. }
  rewrite Hf, repeat_length. apply Nat.eqb_eq. exact Hlen.
Qed.

(** C7.  If within [k <= max_len - 2] loop bodies every hypothesis of the
    beam ends with [end_idx], the loop of [beam_search_decode] is left in
    that very state, having run at most [k] bodies: fewer than the
    [max_len - 1] of the step budget. *)
Theorem beam_search_stops_when_all_ended src src_mask max_len start_symbol
    beam_size end_idx k st :
  1 <= k -> k <= max_len - 2 ->
  beam_loop model beam_size end_idx k 0
            (beam_init model src src_mask start_symbol) = Some st ->
  Forall (fun row => last_opt row = Some end_idx) (ys st) ->
  beam_run model src src_mask max_len start_symbol beam_size end_idx
  = Some st
  /\ iterations st <= k
  /\ iterations st < max_len - 1.
Proof.
  intros Hk Hmax Hrun Hall.
  assert (Hw : length (ys st) = beam_size)
    by (eapply beam_loop_width; eauto).
  assert (Hend := all_ended_Forall Hw Hall).
  assert (Hit := beam_loop_iterations _ _ _ _ _ Hrun). simpl in Hit.
  split; [|lia].
  unfold beam_run. eapply beam_loop_stable; eauto. lia.
Qed.

End DecodingProps.

(** *** Beam search of width 1 against greedy decoding *)

Section BeamOne.

Import Decoding.

Lemma best_In {A : Type} (cs : list (A * Q)) :
  forall c, In (best c cs) (c :: cs).
Proof.
  induction cs as [|c' cs IH]; intros c; simpl; [auto|].
  destruct (Qltb (snd c) (snd c')).
  - right. apply IH.
  - destruct (IH c) as [H|H]; auto.
Qed.

Lemma combine_seq_In (p : list Q) :
  forall a i v,
    In (i, v) (combine (seq a (length p)) p) ->
    a <= i /\ nth_error p (i - a) = Some v.
Proof.
  induction p as [|q p IH]; intros a i v H; simpl in H; [contradiction|].
  destruct H as [H|H].
  - injection H as <- <-. rewrite Nat.sub_diag. auto.
  - apply IH in H. destruct H as [Hle Hn].
    split; [lia|]. replace (i - a) with (S (i - S a)) by lia. exact Hn.
Qed.

Lemma indexed_In (p : list Q) (i : nat) (v : Q) :
  In (i, v) (indexed p) -> nth_error p i = Some v.
Proof.
  intros H. apply combine_seq_In in H. destruct H as [_ H].
  now rewrite Nat.sub_0_r in H.
Qed.

(** Top-1 of a row is its argmax, also after a score is added to every
    entry. *)
Lemma top1_plain (p : list Q) :
  p <> [] ->
  exists idx v,
    topk p 1 = Some [(idx, v)]
    /\ argmax p = Some idx /\ nth_error p idx = Some v.
Proof.
  intros Hp. unfold topk, argmax.
  destruct (indexed p) as [|c cs] eqn:E.
  - destruct p; [congruence | discriminate].
  - exists (fst (best c cs)), (snd (best c cs)). simpl.
    rewrite <- surjective_pairing. repeat split.
    apply indexed_In. rewrite E, <- surjective_pairing. apply best_In.
Qed.

Lemma In_combine_seq (p : list Q) :
  forall a i v,
    nth_error p i = Some v -> In (a + i, v) (combine (seq a (length p)) p).
Proof.
  induction p as [|q p IH]; intros a i v H; [destruct i; discriminate|].
  destruct i as [|i]; simpl in *.
  - injection H as ->. left. f_equal. lia.
  - right. replace (a + S i) with (S a + i) by lia. now apply IH.
Qed.

Lemma In_indexed (p : list Q) (i : nat) (v : Q) :
  nth_error p i = Some v -> In (i, v) (indexed p).
Proof.
  intros H. apply (In_combine_seq p 0 i H).
Qed.

(** Without a tie for the first place, the top-1 of a row to whose entries
    a score was added by a monotone addition is the argmax of the row. *)
Lemma top1_untied (f : Q -> Q) (p : list Q) :
  (forall x y, (x <= y)%Q -> (f x <= f y)%Q) ->
  p <> [] ->
  single_top (map f p) = true ->
  exists idx val v,
    topk (map f p) 1 = Some [(idx, val)]
    /\ argmax p = Some idx /\ nth_error p idx = Some v.
Proof.
  intros Hmono Hp Hsingle.
  assert (Ha : exists w, argmax p = Some w).
  { unfold argmax, indexed. destruct p; [congruence|]. simpl. eauto. }
  destruct Ha as [w Hw].
  destruct (argmax_first _ Hw) as [q [Hq [Hmax _]]].
  unfold topk, single_top in *.
  destruct (indexed (map f p)) as [|c cs] eqn:E.
  - destruct p; [congruence | discriminate].
  - cbn [topk_sel bind]. cbv zeta in Hsingle.
    set (b := best c cs) in *.
    assert (Hin : In b (indexed (map f p)))
      by (rewrite E; apply best_In).
    rewrite (surjective_pairing b) in Hin. apply indexed_In in Hin.
    rewrite nth_error_map in Hin.
    destruct (nth_error p (fst b)) as [pa|] eqn:Epa; [|discriminate].
    injection Hin as Hfa.
    assert (Hwin : In (w, f q) (c :: cs)).
    { rewrite <- E. apply In_indexed. rewrite nth_error_map, Hq.
      reflexivity. }
    rewrite forallb_forall in Hsingle. specialize (Hsingle _ Hwin).
    cbn [fst snd] in Hsingle.
    assert (Hwb : w = fst b).
    { destruct (Nat.eqb_spec w (fst b)) as [Heq|Hne]; [exact Heq|].
      cbn [orb] in Hsingle. apply Qltb_true in Hsingle.
      exfalso. apply (Qlt_not_le _ _ Hsingle).
      rewrite <- Hfa. apply Hmono. eapply Hmax; eauto. }
    exists (fst b), (snd b), pa.
    rewrite <- surjective_pairing. split; [reflexivity|].
    split; [congruence | exact Epa].
Qed.

Lemma expand_one {A : Type} (t t' : list A) :
  expand 1 t = Some t' -> t' = t.
Proof.
  unfold expand. destruct t as [|a [|b t]]; simpl; intros H;
    try discriminate; congruence.
Qed.

Variables Src MaskRow MemRow Hidden : Type.
Variable model : Model Src MaskRow MemRow Hidden.

Lemma greedy_step_shape memory src_mask row next :
  greedy_step model memory src_mask [row] = Some next ->
  exists w, next = [row ++ [w]].
Proof.
  unfold greedy_step. intros H.
  bind_inv H as prob Eprob. bind_inv H as ws Ews. bind_inv H as w Ew.
  unfold cat1 in H. simpl in H. injection H as <-. eauto.
Qed.

Lemma greedy_loop_prefix memory src_mask (n : nat) :
  forall row g,
    greedy_loop model n memory src_mask [row] = Some [g] ->
    firstn (length row) g = row.
Proof.
  induction n as [|n IH]; intros row g H; simpl in H.
  - injection H as <-. apply firstn_all.
  - bind_inv H as next Enext.
    destruct (greedy_step_shape _ _ _ Enext) as [w ->].
    apply IH in H. rewrite length_app in H. simpl in H.
    replace (length row) with (Nat.min (length row) (length row + 1))
      at 1 by lia.
    rewrite <- firstn_firstn, H, firstn_app, Nat.sub_diag, firstn_all.
    simpl. apply app_nil_r.
Qed.

Lemma beam_iter_combined beam_size end_idx i st r :
  beam_iter model beam_size end_idx i st = Some r ->
  exists combined, combined_scores model end_idx i st = Some combined.
Proof.
  unfold beam_iter, combined_scores. intros H.
  bind_inv H as prob0 Eprob0. bind_inv H as prob Eprob.
  bind_inv H as combined Ecomb.
  rewrite Eprob0. cbn [bind]. rewrite Eprob. cbn [bind]. eauto.
Qed.

(** One body of the beam loop at width 1, on a hypothesis that has not
    ended and without a tie for the first place: it appends the token the
    greedy step appends. *)
Lemma beam_iter_one end_idx i st st' brk row l s :
  (forall s x y, (x <= y)%Q ->
                 (score_add model s x <= score_add model s y)%Q) ->
  ys st = [row] -> scores st = [s] ->
  last_opt row = Some l -> l <> end_idx ->
  never_zero model (memory st) (src_mask st) ->
  (forall combined,
     combined_scores model end_idx i st = Some combined ->
     single_top (concat combined) = true) ->
  beam_iter model 1 end_idx i st = Some (st', brk) ->
  exists w s',
    greedy_step model (memory st) (src_mask st) [row] = Some [row ++ [w]]
    /\ ys st' = [row ++ [w]] /\ scores st' = [s']
    /\ memory st' = memory st /\ src_mask st' = src_mask st
    /\ brk = (w =? end_idx).
Proof.
  intros Hmono Hys Hsc Hlast Hlive Hnz Hsingle H. unfold beam_iter in H.
  unfold combined_scores in Hsingle.
  rewrite Hys, Hsc in H, Hsingle.
  bind_inv H as prob0 Eprob0. bind_inv H as prob Eprob.
  rewrite Eprob0 in Hsingle. cbn [bind] in Hsingle.
  rewrite Eprob in Hsingle. cbn [bind] in Hsingle.
  (* line 142 leaves the single live row untouched *)
  assert (Hp : exists p, prob0 = [p] /\ prob = [p]).
  { unfold zero_finished in Eprob. simpl in Eprob.
    rewrite Hlast in Eprob. simpl in Eprob.
    destruct prob0 as [|p [|p' prob0]]; simpl in Eprob; try discriminate.
    destruct (Nat.eqb_spec l end_idx); [congruence|].
    injection Eprob as <-. eauto. }
  destruct Hp as [p [-> ->]].
  bind_inv H as combined Ecomb. bind_inv H as top Etop.
  specialize (Hsingle _ Ecomb).
  (* the joint top-1 is the argmax of the row *)
  assert (Hsel : exists idx val v,
    top = [(idx, val)] /\ size1 combined = length p
    /\ argmax p = Some idx /\ nth_error p idx = Some v).
  { destruct p as [|q p].
    - destruct (i =? 0); [|unfold add_scores in Ecomb; simpl in Ecomb];
        injection Ecomb as <-; discriminate.
    - assert (Hne : q :: p <> []) by discriminate.
      destruct (i =? 0).
      + injection Ecomb as <-. simpl in Etop. rewrite app_nil_r in Etop.
        destruct (top1_plain Hne) as [idx [v [Ht [Ha Hn]]]].
        exists idx, v, v. rewrite Ht in Etop. injection Etop as <-. auto.
      + unfold add_scores in Ecomb. simpl in Ecomb. injection Ecomb as <-.
        cbn [concat] in Etop, Hsingle.
        rewrite app_nil_r in Etop, Hsingle.
        change (score_add model s q :: map (score_add model s) p)
          with (map (score_add model s) (q :: p)) in Etop, Hsingle.
        destruct (top1_untied (score_add model s) (Hmono s) Hne Hsingle)
          as [idx [val [v [Ht [Ha Hn]]]]].
        exists idx, val, v.
        rewrite Ht in Etop. injection Etop as <-.
        unfold size1. simpl. rewrite length_map. auto. }
  destruct Hsel as [idx [val [v [-> [Hsize [Harg Hnth]]]]]].
  assert (Hidx : idx < length p) by (apply nth_error_Some; congruence).
  assert (Hv : Qeq_bool v 0 = false).
  { destruct (Qeq_bool v 0) eqn:E; [|reflexivity].
    apply Qeq_bool_iff in E.
    specialize (Hnz _ _ Eprob0). inversion Hnz as [|? ? Hrow _]; subst.
    rewrite Forall_forall in Hrow.
    exfalso. apply (Hrow v); [eapply nth_error_In; eauto | exact E]. }
  cbn [map combine fst snd mapM] in H. rewrite Hsize in H.
  rewrite (Nat.div_small _ _ Hidx), (Nat.mod_small _ _ Hidx) in H.
  unfold extend in H. cbn [nth_error bind] in H.
  rewrite Hnth in H. cbn [bind] in H. rewrite Hv in H. cbn [bind last] in H.
  unfold all_ended in H. cbn [mapM bind] in H.
  rewrite last_opt_snoc in H. cbn [bind filter] in H.
  exists idx, val.
  assert (Hg : greedy_step model (memory st) (src_mask st) [row]
               = Some [row ++ [idx]]).
  { unfold greedy_step. rewrite Eprob0. cbn [bind mapM]. rewrite Harg.
    reflexivity. }
  split; [exact Hg|].
  destruct (idx =? end_idx); cbn [length Nat.eqb] in H.
  - injection H as <- <-. simpl. auto.
  - bind_inv H as mem' Emem. bind_inv H as mask' Emask.
    apply expand_one in Emem, Emask. subst.
    injection H as <- <-. simpl. auto.
Qed.

(** The loop at width 1: it follows the greedy loop token by token and
    leaves it after the first end marker. *)
Lemma beam_loop_one end_idx (n : nat) :
  (forall s x y, (x <= y)%Q ->
                 (score_add model s x <= score_add model s y)%Q) ->
  forall i st st' row l s g,
    ys st = [row] -> scores st = [s] ->
    last_opt row = Some l -> l <> end_idx ->
    never_zero model (memory st) (src_mask st) ->
    untied model 1 end_idx n i st = true ->
    beam_loop model 1 end_idx n i st = Some st' ->
    greedy_loop model n (memory st) (src_mask st) [row] = Some [g] ->
    exists b s', ys st' = [b] /\ scores st' = [s']
                 /\ b = firstn (length b) g
                 /\ length row <= length b
                 /\ (length b = length g \/ last_opt b = Some end_idx)
                 /\ forall k, length row <= k -> S k < length b ->
                              nth_error g k <> Some end_idx.
Proof.
  intros Hmono.
  induction n as [|n IH]; intros i st st' row l s g Hys Hsc Hlast Hlive Hnz
    Hun Hbeam Hgreedy; cbn [beam_loop greedy_loop untied] in *.
  - injection Hbeam as <-. injection Hgreedy as <-.
    exists row, s. rewrite firstn_all.
    repeat (split; [solve [auto]|]). intros k H1 H2. lia.
  - bind_inv Hbeam as r E. destruct r as [st1 brk]. cbn [fst snd] in Hbeam.
    destruct (beam_iter_combined _ _ _ _ E) as [combined Ec].
    rewrite Ec, E in Hun. apply andb_prop in Hun. destruct Hun as [Hs Hun].
    destruct (@beam_iter_one end_idx i st st1 brk row l s
                Hmono Hys Hsc Hlast Hlive Hnz)
      as [w [s' [Hg [Hys1 [Hsc1 [Hmem [Hmask Hbrk]]]]]]];
      [intros c' Ec'; congruence | exact E |].
    rewrite Hg in Hgreedy. cbn [bind] in Hgreedy.
    assert (Hpre : firstn (length (row ++ [w])) g = row ++ [w])
      by (eapply greedy_loop_prefix; eauto).
    destruct brk.
    + injection Hbeam as <-. exists (row ++ [w]), s'.
      repeat (split; [solve [auto]|]).
      rewrite length_app. cbn [length]. split; [lia|]. split.
      * right. rewrite last_opt_snoc. f_equal. symmetry in Hbrk.
        now apply Nat.eqb_eq in Hbrk.
      * intros k H1 H2. lia.
    + assert (Hw : w <> end_idx).
      { intros ->. rewrite Nat.eqb_refl in Hbrk. discriminate. }
      rewrite <- Hmem, <- Hmask in Hgreedy, Hnz.
      destruct (IH (S i) st1 st' (row ++ [w]) w s' g)
        as [b [s'' [Hb1 [Hb2 [Hb3 [Hb4 [Hb5 Hb6]]]]]]]; auto.
      { apply last_opt_snoc. }
      rewrite length_app in Hb4, Hb6, Hpre. cbn [length] in Hb4, Hb6, Hpre.
      exists b, s''. repeat (split; [solve [auto]|]).
      split; [lia|]. split; [exact Hb5|].
      intros k H1 H2.
      destruct (Nat.eq_dec k (length row)) as [->|Hne]; [|apply Hb6; lia].
      assert (Hk : nth_error g (length row) = Some w).
      { assert (E' : nth_error (firstn (length row + 1) g) (length row)
                     = nth_error g (length row)).
        { rewrite nth_error_firstn.
          destruct (Nat.ltb_spec (length row) (length row + 1));
            [auto|lia]. }
        rewrite <- E', Hpre, nth_error_app2, Nat.sub_diag by lia.
        reflexivity. }
      rewrite Hk. congruence.
Qed.

(** C6, as amended.  When the start symbol is held exactly by float32 and
    is not the end marker, the generator emits no log-probability that is
    exactly 0, the addition of scores is monotone, and no body of the loop
    sees a tie for the first place, beam search of width 1 chooses, at
    every step it takes, the token greedy decoding chooses there, and it
    takes every step up to the first end marker: its output [b] is the
    greedy output [g] cut after the first end marker that follows the
    start symbol, or all of [g] when there is none. *)
Theorem beam1_follows_greedy src src_mask max_len start_symbol end_idx g b :
  float32_exact start_symbol ->
  start_symbol <> end_idx ->
  never_zero model (encode model src src_mask) src_mask ->
  (forall s x y, (x <= y)%Q ->
                 (score_add model s x <= score_add model s y)%Q) ->
  untied model 1 end_idx (max_len - 1) 0
         (beam_init model src src_mask start_symbol) = true ->
  greedy_decode model src src_mask max_len start_symbol = Some [g] ->
  beam_search_decode model src src_mask max_len start_symbol 1 end_idx
  = Some [b] ->
  b = firstn (length b) g
  /\ (length b = length g \/ last_opt b = Some end_idx)
  /\ forall k, 1 <= k -> S k < length b -> nth_error g k <> Some end_idx.
Proof.
  intros _ Hse Hnz Hmono Hun Hg Hb. unfold beam_search_decode, beam_run in Hb.
  bind_inv Hb as st Est. unfold greedy_decode in Hg.
  destruct (@beam_loop_one end_idx (max_len - 1) Hmono 0
              (beam_init model src src_mask start_symbol) st
              [start_symbol] start_symbol 0%Q g)
    as [b' [s' [Hys [Hsc [Hpre [_ [Hstop Hlive]]]]]]]; auto.
  rewrite Hys, Hsc in Hb. simpl in Hb. injection Hb as <-.
  split; [exact Hpre|]. split; [exact Hstop|].
  intros k Hk. apply Hlive. exact Hk.
Qed.

End BeamOne.

(** *** Runs of the decoders on the concrete tables *)

Section TableModels.

Import Decoding.

Lemma table_model_answers (table : nat -> list Q) memory src_mask :
  (forall t, table t <> []) ->
  answers (table_model table) memory src_mask.
Proof.
  intros Ht row Hrow. unfold next_log_probs. simpl.
  destruct (last_opt row) as [l|] eqn:E.
  - exists (table l), []. simpl. split; [reflexivity|].
    constructor; [apply Ht | constructor].
  - unfold last_opt in E. destruct (rev row) as [|a r] eqn:R;
      [|discriminate].
    apply (f_equal (@rev nat)) in R. rewrite rev_involutive in R.
    simpl in R. congruence.
Qed.

Lemma table_model_never_zero (table : nat -> list Q) memory src_mask :
  (forall t, Forall (fun q => ~ (q == 0)%Q) (table t)) ->
  never_zero (table_model table) memory src_mask.
Proof.
  intros Ht hyps prob H. unfold next_log_probs in H. simpl in H.
  bind_inv H as last_pos E. injection H as <-.
  apply Forall_forall. intros r Hr. apply in_map_iff in Hr.
  destruct Hr as [t [<- _]]. apply Ht.
Qed.

Lemma table_ending_never_zero (t : nat) :
  Forall (fun q => ~ (q == 0)%Q) (table_ending t).
Proof.
  destruct t as [|[|[|[|t]]]]; simpl;
    repeat constructor; intros H; discriminate H.
Qed.

(** The guard of line 177 reads [i] after the inner loop has rebound it to
    the parent row of the last selected pair, so lines 178-179 can run
    again in a later body: [expanded_at] records the bodies with counters 0
    and 1 on one model, the body with counter 0 only on another.  A rerun
    expands to the size already held and changes no tensor; the memory
    holds [beam_size] rows from the second body on in both runs. *)
Example beam_expansion_rerun_recorded :
  (exists st,
     beam_run (table_model table_a) tt [tt] 3 2 2 3 = Some st
     /\ ys st = [[2; 0; 0]; [2; 0; 1]]
     /\ expanded_at st = [0; 1]
     /\ length (memory st) = 2)
  /\ (exists st,
     beam_run (table_model table_b) tt [tt] 3 2 2 3 = Some st
     /\ ys st = [[2; 1; 0]; [2; 1; 1]]
     /\ expanded_at st = [0]
     /\ length (memory st) = 2).
Proof.
  split; eexists; (split; [vm_compute; reflexivity|]); repeat split.
Qed.

(** C3.  A parent that has not ended (last token 2, end marker 3) and whose
    selected token 0 has log-probability exactly 0 is extended with the end
    marker, not with the selected token: line 161 takes [prob[i][j] == 0]
    for "the parent has ended". *)
Theorem beam_live_parent_extended_with_end_marker :
  next_log_probs (table_model table_saturated) [tt] [tt] [[2]]
  = Some [[0; -(30); -(30); -(30)]%Q]
  /\ zero_finished 3 [[2]] [[0; -(30); -(30); -(30)]%Q]
     = Some [[0; -(30); -(30); -(30)]%Q]
  /\ topk [0; -(30); -(30); -(30)]%Q 1 = Some [(0, 0%Q)]
  /\ extend 3 [[2]] [[0; -(30); -(30); -(30)]%Q] 0 0 = Some [2; 3]
  /\ exists st,
       beam_run (table_model table_saturated) tt [tt] 3 2 1 3 = Some st
       /\ ys st = [[2; 3]].
Proof.
  repeat (split; [reflexivity|]).
  eexists. split; [vm_compute; reflexivity | reflexivity].
Qed.

(** C6, as stated, fails when the start symbol is the end marker: the
    single hypothesis counts as ended from the first body on, its
    distribution is zeroed, and beam search appends the end marker where
    greedy decoding appends the argmax (token 0 here). *)
Lemma beam1_differs_when_start_is_end :
  greedy_decode (table_model table_a) tt [tt] 3 2 = Some [[2; 0; 0]]
  /\ beam_search_decode (table_model table_a) tt [tt] 3 2 1 2
     = Some [[2; 2]]
  /\ nth_error [2; 0; 0] 1 <> nth_error [2; 2] 1.
Proof.
  split; [vm_compute; reflexivity|].
  split; [vm_compute; reflexivity|]. discriminate.
Qed.

(** Rounding creates ties that exact addition does not have.  After token
    0 the distribution of [table_close] has a single largest entry, at
    index 1; the running score is [-8]; in float32 the two best sums both
    round to [-9], so the scores the top-1 selects from are tied and the
    run is outside the hypothesis [untied] of the amended C6, while with
    exact addition it is inside. *)
Example float32_sums_tie :
  single_top (table_close 0) = true
  /\ argmax (table_close 0) = Some 1
  /\ option_map (map (map Qred))
       (combined_scores (table_model_float32 table_close) 3 1
          (mkBeam [[2; 0]] [-(8)]%Q [tt] [tt] 1 []))
     = Some [[-(9); -(9); -(17); -(17)]%Q]
  /\ untied (table_model_float32 table_close) 1 3 2 0
       (beam_init (table_model_float32 table_close) tt [tt] 2) = false
  /\ untied (table_model table_close) 1 3 2 0
       (beam_init (table_model table_close) tt [tt] 2) = true.
Proof.
  repeat split; vm_compute; reflexivity.
Qed.

(** With the same rounding addition, a run whose sums stay apart: no tie
    in any body, and width-1 beam search returns the greedy output cut
    after the first end marker. *)
Example float32_run_untied :
  untied (table_model_float32 table_ending) 1 3 4 0
    (beam_init (table_model_float32 table_ending) tt [tt] 2) = true
  /\ greedy_decode (table_model_float32 table_ending) tt [tt] 5 2
     = Some [[2; 0; 3; 0; 3]]
  /\ beam_search_decode (table_model_float32 table_ending) tt [tt] 5 2 1 3
     = Some [[2; 0; 3]].
Proof.
  repeat split; vm_compute; reflexivity.
Qed.

End TableModels.

(** ** Attention masks *)

Section AttentionProps.

Import Tensor Attention.

Context {F : Type} {ops : FloatOps F}.
Variable dropout_layer : F -> tensor F -> tensor F.

Lemma bind_ext {A B : Type} (m : option A) (f g : A -> option B) :
  (forall a, f a = g a) -> bind m f = bind m g.
Proof.
  intros H. destruct m; simpl; auto.
Qed.

(** Whenever the query length is neither the key length nor 1 (and the
    key length is not 1), the expanded 2-D mask cannot be broadcast against
    the scores. *)
Lemma masked_scores_2d_mask_cross_lengths (N Lq Lk dk : nat)
    (qd kd : list F) (md : list Z) :
  Lq <> Lk -> Lq <> 1 -> Lk <> 1 ->
  masked_scores (mk [N; Lq; dk] qd) (mk [N; Lk; dk] kd)
                (Some (mk [N; Lk] md)) = None.
Proof.
  intros H1 H2 H3.
  unfold masked_scores, transpose, matmul, expand_mask2d, unsqueeze, repeat_,
    masked_fill, tabulate, tmap, broadcast_shapes.
  cbn [shape data length Nat.ltb Nat.leb andb bind nth_error nth Nat.sub
       firstn skipn app Nat.eqb swap_dims seq map rev bshape_rev option_map
       combine fst snd].
  rewrite !Nat.eqb_refl.
  cbn [shape length Nat.leb Nat.eqb bind nth_error firstn skipn app map rev
       bshape_rev option_map combine fst snd].
  rewrite !Nat.mul_1_r, !Nat.mul_1_l, !Nat.eqb_refl.
  cbn [bind].
  destruct (Nat.eqb_spec Lq Lk); [congruence|].
  destruct (Nat.eqb_spec Lq 1); [congruence|].
  destruct (Nat.eqb_spec Lk 1); [congruence|].
  reflexivity.
Qed.

(** C1.  With a 2-D mask the code repeats the mask [key.shape[1]] times,
    so for a query of length 2 and keys of length 3 the expanded mask has
    shape [(1, 3, 3)] instead of [(1, 2, 3)]; filling the [(1, 2, 3)]
    scores with it is a shape error, and [attention] raises. *)
Theorem attention_2d_mask_expanded_to_key_length
    (q0 q1 k0 k1 k2 v0 v1 v2 : F) (m0 m1 m2 : Z) (dropout : option F) :
  let query := mk [1; 2; 1] [q0; q1] in
  let key := mk [1; 3; 1] [k0; k1; k2] in
  let value := mk [1; 3; 1] [v0; v1; v2] in
  let mask := mk [1; 3] [m0; m1; m2] in
  option_map (@shape F) (masked_scores query key None) = Some [1; 2; 3]
  /\ expand_mask2d key mask
     = Some (mk [1; 3; 3] [m0; m1; m2; m0; m1; m2; m0; m1; m2])
  /\ masked_scores query key (Some mask) = None
  /\ attention dropout_layer query key value (Some mask) dropout = None.
Proof.
  cbv zeta. repeat split; reflexivity.
Qed.

(** C10.  A 2-D mask reaches no branch of [forward]: the scores are left
    as they are, and the call returns what it returns without a mask. *)
Theorem mha_forward_ignores_2d_mask (self : MultiHeadedAttention)
    (query key value : tensor F) (mask : tensor Z) :
  length (shape mask) = 2 ->
  (forall Lq attn_weights,
     apply_mask self Lq attn_weights (Some mask) = Some attn_weights)
  /\ forward dropout_layer self query key value (Some mask)
     = forward dropout_layer self query key value None.
Proof.
  intros Hrank.
  assert (Hm : forall Lq w, apply_mask self Lq w (Some mask) = Some w).
  { intros Lq w. unfold apply_mask. now rewrite Hrank. }
  split; [exact Hm|].
  unfold forward.
  repeat (apply bind_ext; intro).
  now rewrite Hm.
Qed.

End AttentionProps.

(** ** Instances on concrete inputs *)

(** The instance of the specification: [max_padding = 10], [pad_id = 2] and
    a source of five ids. *)
Lemma collate_batch_row_layout_witness :
  let ids := [11; 12; 13; 14; 15]%Z in
  let batch := [(ids, [21; 22]%Z)] in
  Collate.ids_fit (fun s : list Z => s) (fun s : list Z => s)
    (fun s => s) (fun s => s) batch = true
  /\ Collate.double_exact 2
  /\ nth_error batch 0 = Some (ids, [21; 22]%Z)
  /\ (fun s : list Z => s) ((fun s : list Z => s) ids) = ids
  /\ (Z.of_nat (length ids) + 2 <= 10)%Z
  /\ exists src tgt row,
       Collate.collate_batch (fun s => s) (fun s => s) (fun s => s)
         (fun s => s) batch 10 2%Z = Some (src, tgt)
       /\ nth_error src 0 = Some row
       /\ Z.of_nat (length row) = 10%Z
       /\ row = [0; 11; 12; 13; 14; 15; 1; 2; 2; 2]%Z.
Proof.
  cbv zeta.
  split; [reflexivity|]. split; [unfold Collate.double_exact; simpl; lia|].
  split; [reflexivity|]. split; [reflexivity|]. split; [simpl; lia|].
  apply (@collate_batch_row_layout (list Z) Z (fun s => s) (fun s => s)
           (fun s => s) (fun s => s) 10%Z 2%Z
           [([11; 12; 13; 14; 15]%Z, [21; 22]%Z)] 0
           [11; 12; 13; 14; 15]%Z [21; 22]%Z [11; 12; 13; 14; 15]%Z).
  - reflexivity.
  - unfold Collate.double_exact. simpl. lia.
  - reflexivity.
  - reflexivity.
  - simpl. lia.
Defined.

Lemma collate_batch_overflow_silent_witness :
  let s := [11; 12; 13; 14; 15]%Z in
  let t := [21; 22]%Z in
  (1 <= 4)%Z
  /\ Collate.ids_fit (fun s : list Z => s) (fun s : list Z => s)
       (fun s => s) (fun s => s) [(s, t)] = true
  /\ Collate.double_exact 2
  /\ nth_error [(s, t)] 0 = Some (s, t)
  /\ exists src tgt rs rt ps pt,
       Collate.collate_batch (fun s => s) (fun s => s) (fun s => s)
         (fun s => s) [(s, t)] 4 2%Z = Some (src, tgt)
       /\ Collate.processed_src (fun s => s) (fun s => s) s = Some ps
       /\ Collate.processed_tgt (fun s => s) (fun s => s) t = Some pt
       /\ ps = 0%Z :: s ++ [1%Z]
       /\ pt = 0%Z :: t ++ [1%Z]
       /\ nth_error src 0 = Some rs /\ nth_error tgt 0 = Some rt
       /\ ((4 < Z.of_nat (length ps))%Z ->
           rs = firstn (Z.to_nat 4) ps
           /\ Z.of_nat (length rs) = 4%Z
           /\ exists dropped, dropped <> [] /\ rs ++ dropped = ps)
       /\ ((4 < Z.of_nat (length pt))%Z ->
           rt = firstn (Z.to_nat 4) pt
           /\ Z.of_nat (length rt) = 4%Z
           /\ exists dropped, dropped <> [] /\ rt ++ dropped = pt).
Proof.
  cbv zeta. split; [lia|]. split; [reflexivity|].
  split; [unfold Collate.double_exact; simpl; lia|].
  split; [reflexivity|].
  apply (@collate_batch_overflow_silent (list Z) Z (fun s => s) (fun s => s)
           (fun s => s) (fun s => s) 4%Z 2%Z
           [([11; 12; 13; 14; 15]%Z, [21; 22]%Z)] 0
           [11; 12; 13; 14; 15]%Z [21; 22]%Z).
  - lia.
  - reflexivity.
  - unfold Collate.double_exact. simpl. lia.
  - reflexivity.
Defined.

(** The overflowing source row of the instance above, evaluated: the
    source loses two ids and the end id, the target row fits exactly. *)
Example collate_batch_overflow_row :
  Collate.collate_batch (fun s : list Z => s) (fun s => s)
    (fun s : list Z => s) (fun s => s)
    [([11; 12; 13; 14; 15]%Z, [21; 22]%Z)] 4 2%Z
  = Some ([[0; 11; 12; 13]%Z], [[0; 21; 22; 1]%Z]).
Proof. reflexivity. Qed.

(** The error paths of the two conversions and of the width: an id of
    [2^63] is an error, a pad id of [2^53 + 1] is written as [2^53], and a
    negative [max_padding] is an error. *)
Example collate_batch_conversions :
  Collate.collate_batch (fun s : list Z => s) (fun s => s)
    (fun s : list Z => s) (fun s => s)
    [([9223372036854775808]%Z, [21]%Z)] 4 2%Z = None
  /\ Collate.collate_batch (fun s : list Z => s) (fun s => s)
       (fun s : list Z => s) (fun s => s)
       [([11]%Z, [21]%Z)] 4 9007199254740993%Z
     = Some ([[0; 11; 1; 9007199254740992]%Z],
             [[0; 21; 1; 9007199254740992]%Z])
  /\ Collate.collate_batch (fun s : list Z => s) (fun s => s)
       (fun s : list Z => s) (fun s => s)
       [([11]%Z, [21]%Z)] (-1) 2%Z = None.
Proof.
  repeat split; vm_compute; reflexivity.
Qed.

(** The instance of the specification: [size = 5], [padding_idx = 0],
    [smoothing = 0.1]. *)
Lemma label_smoothing_rows_witness :
  let kl := fun _ _ : list (list Q) => 0%Q in
  let x := [[0; 0; 0; 0; 0]; [0; 0; 0; 0; 0]]%Q in
  let target := [2; 0] in
  let s := (1 # 10)%Q in
  3 <= 5 /\ 0 < 5
  /\ Forall (fun row => length row = 5) x
  /\ length target = length x
  /\ Forall (fun t => t < 5) target
  /\ exists loss self' d,
       LabelSmoothing.forward (LabelSmoothing.init kl 5 0 s) x target
       = Some (loss, self')
       /\ LabelSmoothing.true_dist self' = Some d
       /\ length d = length target
       /\ forall r t, nth_error target r = Some t ->
          exists row,
            nth_error d r = Some row /\ length row = 5
            /\ (t <> 0 ->
                nth_error row t = Some (1 - s)%Q
                /\ nth_error row 0 = Some 0%Q
                /\ (forall j, j < 5 -> j <> t -> j <> 0 ->
                      nth_error row j
                      = Some (s / inject_Z (Z.of_nat 5 - 2))%Q)
                /\ (LabelSmoothing.row_sum row == (1 - s) + s)%Q)
            /\ (t = 0 -> row = repeat 0%Q 5).
Proof.
  cbv zeta.
  split; [lia|]. split; [lia|].
  split; [repeat constructor|]. split; [reflexivity|].
  split; [repeat constructor|].
  apply (@label_smoothing_rows (fun _ _ => 0%Q) 5 0 (1 # 10)%Q
           [[0; 0; 0; 0; 0]; [0; 0; 0; 0; 0]]%Q [2; 0]).
  - lia.
  - lia.
  - repeat constructor.
  - reflexivity.
  - repeat constructor.
Defined.

(** The same instance evaluated: the true class gets [0.9], every other
    class but the padding class [0.1 / 3], the padding row is zero. *)
Example label_smoothing_example :
  LabelSmoothing.smoothed
    (LabelSmoothing.init (fun _ _ => 0%Q) 5 0 (1 # 10)%Q)
    [[0; 0; 0; 0; 0]; [0; 0; 0; 0; 0]]%Q [2; 0]
  = Some [[0; 1 # 30; 9 # 10; 1 # 30; 1 # 30]; [0; 0; 0; 0; 0]]%Q.
Proof. reflexivity. Qed.

(** With [size = 2] the division [smoothing / (size - 2)] raises. *)
Example label_smoothing_size_two_raises
    (kl : list (list Q) -> list (list Q) -> Q) (pad : nat) (s : Q)
    (target : list nat) :
  LabelSmoothing.forward (LabelSmoothing.init kl 2 pad s)
    [[0; 0]]%Q target = None.
Proof. reflexivity. Qed.

Lemma greedy_decode_fixed_length_witness :
  let model := Decoding.table_model Decoding.table_a in
  1 <= 3
  /\ Decoding.float32_exact 2
  /\ Decoding.answers model (Decoding.encode model tt [tt]) [tt]
  /\ exists out,
       Decoding.greedy_decode model tt [tt] 3 2 = Some [out]
       /\ length out = 3
       /\ nth_error out 0 = Some 2
       /\ forall k, 1 <= k < 3 ->
            exists states p ps w q,
              Forall2 (fun positions h => exists pre, positions = pre ++ [h])
                (Decoding.decode model (Decoding.encode model tt [tt]) [tt]
                   [firstn k out]
                   [map (fun i => map (fun j => j <=? i) (seq 0 k))
                        (seq 0 k)])
                states
              /\ Decoding.generator model states = p :: ps
              /\ nth_error out k = Some w
              /\ nth_error p w = Some q
              /\ (forall j v, nth_error p j = Some v -> (v <= q)%Q)
              /\ (forall j v, j < w -> nth_error p j = Some v -> (v < q)%Q).
Proof.
  cbv zeta.
  assert (H : Decoding.answers (Decoding.table_model Decoding.table_a)
                (Decoding.encode (Decoding.table_model Decoding.table_a)
                   tt [tt]) [tt]).
  { apply table_model_answers. intros [|[|t]]; discriminate. }
  split; [lia|]. split; [unfold Decoding.float32_exact; lia|].
  split; [exact H|].
  apply (@greedy_decode_fixed_length unit unit unit nat
           (Decoding.table_model Decoding.table_a) tt [tt] 3 2).
  - lia.
  - unfold Decoding.float32_exact. lia.
  - exact H.
Defined.

Lemma beam1_follows_greedy_witness :
  let model := Decoding.table_model Decoding.table_ending in
  Decoding.float32_exact 2
  /\ 2 <> 3
  /\ Decoding.never_zero model (Decoding.encode model tt [tt]) [tt]
  /\ (forall s x y, (x <= y)%Q ->
        (Decoding.score_add model s x <= Decoding.score_add model s y)%Q)
  /\ Decoding.untied model 1 3 (5 - 1) 0 (Decoding.beam_init model tt [tt] 2)
     = true
  /\ Decoding.greedy_decode model tt [tt] 5 2 = Some [[2; 0; 3; 0; 3]]
  /\ Decoding.beam_search_decode model tt [tt] 5 2 1 3 = Some [[2; 0; 3]]
  /\ ([2; 0; 3] = firstn (length [2; 0; 3]) [2; 0; 3; 0; 3]
      /\ (length [2; 0; 3] = length [2; 0; 3; 0; 3]
          \/ last_opt [2; 0; 3] = Some 3)
      /\ forall k, 1 <= k -> S k < length [2; 0; 3] ->
                   nth_error [2; 0; 3; 0; 3] k <> Some 3).
Proof.
  cbv zeta.
  assert (H : Decoding.never_zero (Decoding.table_model Decoding.table_ending)
                (Decoding.encode (Decoding.table_model Decoding.table_ending)
                   tt [tt]) [tt]).
  { apply table_model_never_zero. exact table_ending_never_zero. }
  assert (Hm : forall s x y : Q, (x <= y)%Q -> (s + x <= s + y)%Q).
  { intros s x y Hxy. now apply Qplus_le_r. }
  split; [unfold Decoding.float32_exact; lia|].
  split; [discriminate|]. split; [exact H|]. split; [exact Hm|].
  split; [vm_compute; reflexivity|].
  split; [vm_compute; reflexivity|]. split; [vm_compute; reflexivity|].
  apply (@beam1_follows_greedy unit unit unit nat
           (Decoding.table_model Decoding.table_ending) tt [tt] 5 2 3
           [2; 0; 3; 0; 3] [2; 0; 3]).
  - unfold Decoding.float32_exact. lia.
  - discriminate.
  - exact H.
  - exact Hm.
  - vm_compute. reflexivity.
  - vm_compute. reflexivity.
  - vm_compute. reflexivity.
Defined.

Lemma beam_search_stops_when_all_ended_witness :
  let model := Decoding.table_model Decoding.table_ending in
  let st := Decoding.mkBeam [[2; 0; 3; 3]; [2; 0; 3; 3]]
              [(-2 # 1)%Q; (-2 # 1)%Q] [tt; tt] [tt; tt] 3 [0] in
  1 <= 3 /\ 3 <= 6 - 2
  /\ Decoding.beam_loop model 2 3 3 0 (Decoding.beam_init model tt [tt] 2)
     = Some st
  /\ Forall (fun row => last_opt row = Some 3) (Decoding.ys st)
  /\ (Decoding.beam_run model tt [tt] 6 2 2 3 = Some st
      /\ Decoding.iterations st <= 3
      /\ Decoding.iterations st < 6 - 1).
Proof.
  cbv zeta.
  split; [lia|]. split; [simpl; lia|].
  split; [vm_compute; reflexivity|].
  split; [repeat constructor|].
  apply (@beam_search_stops_when_all_ended unit unit unit nat
           (Decoding.table_model Decoding.table_ending) tt [tt] 6 2 2 3 3).
  - lia.
  - simpl. lia.
  - vm_compute. reflexivity.
  - repeat constructor.
Defined.

Lemma mha_forward_ignores_2d_mask_witness :
  let lin := Attention.mkLinear (Tensor.mk [2; 2] [1; 0; 0; 1]%Q)
                                (Tensor.mk [2] [0; 0]%Q) in
  let self := Attention.mkMHA 1 2 (Attention.clones lin 4) None 0%Q in
  let query := Tensor.mk [1; 2; 2] [1; 2; 3; 4]%Q in
  let key := Tensor.mk [1; 3; 2] [1; 2; 3; 4; 5; 6]%Q in
  let mask := Tensor.mk [1; 3] [1; 1; 0]%Z in
  length (Tensor.shape mask) = 2
  /\ (forall Lq attn_weights,
        Attention.apply_mask self Lq attn_weights (Some mask)
        = Some attn_weights)
  /\ Attention.forward (fun _ x => x) self query key key (Some mask)
     = Attention.forward (fun _ x => x) self query key key None.
Proof.
  cbv zeta. split; [reflexivity|].
  apply (@mha_forward_ignores_2d_mask Q Attention.QOps (fun _ x => x)).
  reflexivity.
Defined.

(** On the same input a 3-D mask does change the attention weights, and
    the call with the 2-D mask returns a value. *)
Example mha_forward_3d_mask_applies :
  let lin := Attention.mkLinear (Tensor.mk [2; 2] [1; 0; 0; 1]%Q)
                                (Tensor.mk [2] [0; 0]%Q) in
  let self := Attention.mkMHA 1 2 (Attention.clones lin 4) None 0%Q in
  let query := Tensor.mk [1; 2; 2] [1; 2; 3; 4]%Q in
  let key := Tensor.mk [1; 3; 2] [1; 2; 3; 4; 5; 6]%Q in
  Attention.forward (fun _ x => x) self query key key
    (Some (Tensor.mk [1; 3] [1; 1; 0]%Z)) <> None
  /\ Attention.forward (fun _ x => x) self query key key
       (Some (Tensor.mk [1; 1; 3] [1; 1; 0]%Z))
     <> Attention.forward (fun _ x => x) self query key key None.
Proof.
  cbv zeta. split; vm_compute; discriminate.
Qed.

(** * Part III: further properties of the code *)

(** ** Decoding: invariants of the beam, errors, composition *)

Section DecodingMore.

Import Decoding.

Lemma best_max {A : Type} (cs : list (A * Q)) :
  forall c c', In c' (c :: cs) -> (snd c' <= snd (best c cs))%Q.
Proof.
  induction cs as [|d cs IH]; intros c c' Hin; simpl.
  - destruct Hin as [<-|[]]. apply Qle_refl.
  - unfold Qltb. destruct (Qle_bool (snd d) (snd c)) eqn:E; simpl.
    + apply Qle_bool_iff in E.
      destruct Hin as [<-|[<-|Hin]].
      * apply IH. now left.
      * apply Qle_trans with (snd c); [exact E|]. apply IH. now left.
      * apply IH. now right.
    + assert (Hlt : (snd c <= snd d)%Q).
      { destruct (Qlt_le_dec (snd c) (snd d)) as [H|H].
        - now apply Qlt_le_weak.
        - apply Qle_bool_iff in H. congruence. }
      destruct Hin as [<-|[<-|Hin]].
      * apply Qle_trans with (snd d); [exact Hlt|]. apply IH. now left.
      * apply IH. now left.
      * apply IH. now right.
Qed.

Lemma topk_sel_In (k : nat) :
  forall cands top,
    topk_sel k cands = Some top -> Forall (fun c => In c cands) top.
Proof.
  induction k as [|k IH]; simpl; intros cands top H.
  - injection H as <-. constructor.
  - destruct cands as [|c cs]; [discriminate|].
    bind_inv H as rest Erest. injection H as <-.
    constructor; [apply best_In|].
    apply IH in Erest. rewrite Forall_forall in *. intros x Hx.
    apply Erest in Hx. apply filter_In in Hx. tauto.
Qed.

Lemma topk_sel_bound (k : nat) :
  forall cands top, topk_sel k cands = Some top -> k <= length cands.
Proof.
  induction k as [|k IH]; simpl; intros cands top H; [lia|].
  destruct cands as [|c cs]; [discriminate|].
  bind_inv H as rest Erest. apply IH in Erest.
  set (b := best c cs) in *.
  assert (Hb : In b (c :: cs)) by apply best_In.
  assert (Hlt : forall l : list (nat * Q), In b l ->
            length (filter (fun c' => negb (fst c' =? fst b)) l) < length l).
  { induction l as [|x l IHl]; intros Hin; [contradiction|].
    simpl. destruct Hin as [->|Hin].
    - rewrite Nat.eqb_refl. simpl.
      pose proof (filter_length_le
                    (fun c' => negb (fst c' =? fst b)) l). lia.
    - specialize (IHl Hin).
      destruct (negb (fst x =? fst b)); simpl; lia. }
  specialize (Hlt _ Hb). lia.
Qed.

Lemma indexed_lt (flat : list Q) (i : nat) (v : Q) :
  In (i, v) (indexed flat) -> i < length flat.
Proof.
  intros H. apply indexed_In in H. apply nth_error_Some. congruence.
Qed.

Lemma expand_length {A : Type} (n : nat) (t t' : list A) :
  expand n t = Some t' -> length t' = n.
Proof.
  unfold expand. intros H.
  destruct t as [|a [|b t]].
  - simpl in H. destruct n; [injection H as <-; reflexivity|discriminate].
  - injection H as <-. apply repeat_length.
  - destruct (Nat.eqb_spec (length (a :: b :: t)) n); [|discriminate].
    injection H as <-. assumption.
Qed.

Variables Src MaskRow MemRow Hidden : Type.
Variable model : Model Src MaskRow MemRow Hidden.

(** What a loop body does to the beam: every new hypothesis is a parent
    with one token appended, and there is one score per hypothesis. *)
Lemma beam_iter_rows beam_size end_idx i st st' brk :
  beam_iter model beam_size end_idx i st = Some (st', brk) ->
  length (scores st') = beam_size
  /\ Forall (fun r => exists prev tok, In prev (ys st) /\ r = prev ++ [tok])
            (ys st').
Proof.
  unfold beam_iter. intros H.
  bind_inv H as prob0 Eprob0. bind_inv H as prob Eprob.
  bind_inv H as combined Ecomb. bind_inv H as top Etop.
  bind_inv H as newys Enew.
  assert (Hs : length (map (@snd nat Q) top) = beam_size).
  { rewrite length_map. eapply topk_sel_length; eauto. }
  assert (Hrows : Forall (fun r => exists prev tok,
                            In prev (ys st) /\ r = prev ++ [tok]) newys).
  { clear H. apply mapM_Forall2 in Enew.
    induction Enew as [|ij r l l' Hf _ IH]; constructor; auto.
    unfold extend in Hf.
    bind_inv Hf as prev Eprev. bind_inv Hf as row Erow.
    bind_inv Hf as p Ep. apply nth_error_In in Eprev.
    destruct (Qeq_bool p 0); injection Hf as <-;
      do 2 eexists; (split; [eassumption|reflexivity]). }
  destruct newys as [|r rs]; [discriminate|].
  bind_inv H as stop Estop.
  destruct stop.
  - injection H as <- <-. simpl. auto.
  - destruct (last _ i =? 0).
    + bind_inv H as mem' Emem. bind_inv H as mask' Emask.
      injection H as <- <-. simpl. auto.
    + injection H as <- <-. simpl. auto.
Qed.

Lemma beam_loop_rows beam_size end_idx start_symbol (n : nat) :
  forall i st st',
    beam_loop model beam_size end_idx n i st = Some st' ->
    Forall (fun r => length r = S (iterations st)
                     /\ hd_error r = Some start_symbol) (ys st) ->
    Forall (fun r => length r = S (iterations st')
                     /\ hd_error r = Some start_symbol) (ys st')
    /\ iterations st' <= iterations st + n.
Proof.
  induction n as [|n IH]; simpl; intros i st st' H Hinv.
  - injection H as <-. split; [assumption|lia].
  - bind_inv H as r E. destruct r as [st1 brk]. simpl in H.
    pose proof (beam_iter_inv _ _ _ _ _ E) as [_ [_ Hit]].
    pose proof (beam_iter_rows _ _ _ _ E) as [_ Hrows].
    assert (Hinv1 : Forall (fun r => length r = S (iterations st1)
                              /\ hd_error r = Some start_symbol) (ys st1)).
    { rewrite Forall_forall in *. intros r Hr.
      destruct (Hrows r Hr) as [prev [tok [Hin ->]]].
      destruct (Hinv prev Hin) as [Hl Hh].
      rewrite length_app, Hit. simpl. split; [lia|].
      destruct prev; [discriminate | exact Hh]. }
    destruct brk.
    + injection H as <-. split; [assumption|lia].
    + destruct (IH _ _ _ H Hinv1) as [H1 H2]. split; [assumption|lia].
Qed.

(** X13.  For a start symbol float32 holds exactly, whatever beam search
    returns is one sequence that starts with the start symbol and has at
    most [max_len] tokens (one token when [max_len] is 0). *)
Theorem beam_search_output_shape src src_mask max_len start_symbol
    beam_size end_idx out :
  float32_exact start_symbol ->
  beam_search_decode model src src_mask max_len start_symbol beam_size
                     end_idx = Some out ->
  exists row,
    out = [row]
    /\ hd_error row = Some start_symbol
    /\ 1 <= length row <= Nat.max 1 max_len.
Proof.
  unfold beam_search_decode, beam_run. intros _ H. bind_inv H as st Est.
  destruct (@beam_loop_rows beam_size end_idx start_symbol (max_len - 1) 0
              (beam_init model src src_mask start_symbol) st Est)
    as [Hinv Hit].
  { repeat constructor. }
  simpl in Hit.
  destruct (combine (ys st) (scores st)) as [|c cs] eqn:Ec; [discriminate|].
  injection H as <-. exists (fst (best c cs)). split; [reflexivity|].
  assert (Hin : In (fst (best c cs)) (ys st)).
  { pose proof (best_In cs c) as Hb. rewrite <- Ec in Hb.
    rewrite (surjective_pairing (best c cs)) in Hb.
    now apply in_combine_l in Hb. }
  rewrite Forall_forall in Hinv. destruct (Hinv _ Hin) as [Hl Hh].
  split; [exact Hh|]. lia.
Qed.

(** X14.  The hypothesis beam search returns has the largest cumulative score of
    the final beam. *)
Theorem beam_search_returns_best_scored src src_mask max_len start_symbol
    beam_size end_idx row :
  beam_search_decode model src src_mask max_len start_symbol beam_size
                     end_idx = Some [row] ->
  exists st s,
    beam_run model src src_mask max_len start_symbol beam_size end_idx
    = Some st
    /\ In (row, s) (combine (ys st) (scores st))
    /\ forall row' s', In (row', s') (combine (ys st) (scores st)) ->
                       (s' <= s)%Q.
Proof.
  unfold beam_search_decode. intros H. bind_inv H as st Est.
  destruct (combine (ys st) (scores st)) as [|c cs] eqn:Ec; [discriminate|].
  injection H as <-. exists st, (snd (best c cs)).
  split; [exact Est|]. rewrite <- surjective_pairing, Ec.
  split; [apply best_In|].
  intros row' s' Hin. apply (@best_max _ cs c (row', s') Hin).
Qed.

(** X15.  A beam of width 0 is an error as soon as the loop runs. *)
Theorem beam_search_zero_width_raises src src_mask max_len start_symbol
    end_idx :
  2 <= max_len ->
  beam_search_decode model src src_mask max_len start_symbol 0 end_idx
  = None.
Proof.
  intros Hlen. unfold beam_search_decode, beam_run.
  destruct (max_len - 1) as [|n] eqn:En; [lia|].
  cbn [beam_loop].
  destruct (beam_iter model 0 end_idx 0
              (beam_init model src src_mask start_symbol))
    as [[st1 brk]|] eqn:E; [|reflexivity].
  exfalso. pose proof (beam_iter_inv _ _ _ _ _ E) as [Hw _].
  pose proof (beam_iter_rows _ _ _ _ E) as [_ Hrows].
  unfold beam_iter in E.
  bind_inv E as prob0 Eprob0. bind_inv E as prob Eprob.
  bind_inv E as combined Ecomb. bind_inv E as top Etop.
  bind_inv E as newys Enew.
  apply topk_sel_length in Etop. destruct top; [|discriminate].
  simpl in Enew. injection Enew as <-. discriminate.
Qed.

(** X16.  A beam wider than the vocabulary is an error at the first step: the
    joint top-k asks for more entries than the single distribution has. *)
Theorem beam_search_wider_than_vocab_raises src src_mask max_len
    start_symbol beam_size end_idx prob :
  2 <= max_len ->
  next_log_probs model (encode model src src_mask) src_mask [[start_symbol]]
  = Some prob ->
  length (concat prob) < beam_size ->
  beam_search_decode model src src_mask max_len start_symbol beam_size
                     end_idx = None.
Proof.
  intros Hlen Hprob Hwide. unfold beam_search_decode, beam_run.
  destruct (max_len - 1) as [|n] eqn:En; [lia|].
  cbn [beam_loop].
  destruct (beam_iter model beam_size end_idx 0
              (beam_init model src src_mask start_symbol))
    as [[st1 brk]|] eqn:E; [|reflexivity].
  exfalso. unfold beam_iter in E. cbn [beam_init memory Decoding.src_mask ys]
    in E.
  rewrite Hprob in E. cbn [bind] in E.
  bind_inv E as prob' Eprob. bind_inv E as combined Ecomb.
  bind_inv E as top Etop.
  cbn [Nat.eqb] in Ecomb. injection Ecomb as <-.
  apply topk_sel_bound in Etop. unfold indexed in Etop.
  rewrite length_combine, length_seq, Nat.min_id in Etop.
  assert (Hsame : length (concat prob') = length (concat prob)).
  { unfold zero_finished in Eprob. bind_inv Eprob as lasts El.
    destruct (length lasts =? length prob) eqn:Eq; [|discriminate].
    injection Eprob as <-. apply Nat.eqb_eq in Eq.
    clear - Eq. revert prob Eq.
    induction lasts as [|l lasts IH]; intros [|p prob] Eq;
      simpl in *; try discriminate; auto.
    rewrite !length_app, (IH prob) by lia.
    destruct (l =? end_idx); now rewrite ?length_map. }
  lia.
Qed.

End DecodingMore.

Section DecodingBatching.

Import Decoding.

Variables Src MaskRow MemRow Hidden : Type.
Variable model : Model Src MaskRow MemRow Hidden.

(** Once memory and mask hold [beam_size] rows, a loop body keeps it so. *)
Lemma beam_iter_keeps_batch beam_size end_idx i st st' brk :
  length (memory st) = beam_size -> length (src_mask st) = beam_size ->
  beam_iter model beam_size end_idx i st = Some (st', brk) ->
  length (memory st') = beam_size /\ length (src_mask st') = beam_size.
Proof.
  intros Hm Hk H. unfold beam_iter in H.
  bind_inv H as prob0 Eprob0. bind_inv H as prob Eprob.
  bind_inv H as combined Ecomb. bind_inv H as top Etop.
  bind_inv H as newys Enew.
  destruct newys as [|r rs]; [discriminate|].
  bind_inv H as stop Estop.
  destruct stop.
  - injection H as <- <-. simpl. auto.
  - destruct (last _ i =? 0).
    + bind_inv H as mem' Emem. bind_inv H as mask' Emask.
      apply expand_length in Emem, Emask.
      injection H as <- <-. simpl. auto.
    + injection H as <- <-. simpl. auto.
Qed.

Lemma beam_loop_keeps_batch beam_size end_idx (n : nat) :
  forall i st st',
    length (memory st) = beam_size -> length (src_mask st) = beam_size ->
    beam_loop model beam_size end_idx n i st = Some st' ->
    length (memory st') = beam_size /\ length (src_mask st') = beam_size.
Proof.
  induction n as [|n IH]; simpl; intros i st st' Hm Hk H.
  - injection H as <-. auto.
  - bind_inv H as r E. destruct r as [st1 brk]. simpl in H.
    edestruct beam_iter_keeps_batch as [Hm1 Hk1];
      [exact Hm | exact Hk | exact E |].
    destruct brk; [injection H as <-; auto|]. eapply IH; eauto.
Qed.

(** The first body, run on the single start hypothesis, selects parent row
    0 only: unless it leaves through [break], it expands memory and mask to
    [beam_size] rows. *)
Lemma beam_iter_first_expands beam_size end_idx st st' row :
  ys st = [row] ->
  beam_iter model beam_size end_idx 0 st = Some (st', false) ->
  length (memory st') = beam_size /\ length (src_mask st') = beam_size.
Proof.
  intros Hys H. unfold beam_iter in H. rewrite Hys in H.
  bind_inv H as prob0 Eprob0. bind_inv H as prob Eprob.
  bind_inv H as combined Ecomb. bind_inv H as top Etop.
  bind_inv H as newys Enew.
  cbn [Nat.eqb] in Ecomb. injection Ecomb as <-.
  assert (Hone : exists p, prob = [p]).
  { unfold zero_finished in Eprob. bind_inv Eprob as lasts El.
    apply mapM_length in El. simpl in El.
    destruct (length lasts =? length prob0) eqn:Eq; [|discriminate].
    apply Nat.eqb_eq in Eq. injection Eprob as <-.
    destruct lasts as [|l [|l' lasts]]; try discriminate.
    destruct prob0 as [|p [|p' prob0]]; try discriminate.
    simpl. eauto. }
  destruct Hone as [p ->].
  assert (Hrows : last (map (fun c => fst c / size1 [p]) top) 0 = 0).
  { apply topk_sel_In in Etop. simpl in Etop. rewrite app_nil_r in Etop.
    unfold size1. simpl.
    assert (Hall : Forall (fun x => x = 0)
                     (map (fun c : nat * Q => fst c / length p) top)).
    { rewrite Forall_forall in *. intros x Hx. apply in_map_iff in Hx.
      destruct Hx as [[idx v] [<- Hin]]. simpl.
      apply Nat.div_small. eapply indexed_lt. apply Etop. exact Hin. }
    clear - Hall.
    induction (map (fun c : nat * Q => fst c / length p) top) as [|x l IH];
      [reflexivity|].
    inversion Hall as [|? ? Hx Hl]; subst.
    destruct l; [reflexivity|]. apply IH. exact Hl. }
  destruct newys as [|r rs]; [discriminate|].
  bind_inv H as stop Estop.
  destruct stop; [discriminate|].
  rewrite Hrows in H. cbn [Nat.eqb] in H.
  bind_inv H as mem' Emem. bind_inv H as mask' Emask.
  apply expand_length in Emem, Emask.
  injection H as <-. simpl. auto.
Qed.

(** X17.  Every decoder call after the first is batched: when the loop has run
    a body without leaving it through [break], memory, mask and beam all
    hold [beam_size] rows. *)
Theorem beam_search_batches_after_first_step src src_mask max_len
    start_symbol beam_size end_idx st :
  beam_run model src src_mask max_len start_symbol beam_size end_idx
  = Some st ->
  1 <= iterations st ->
  all_ended beam_size end_idx (ys st) = Some false ->
  length (memory st) = beam_size
  /\ length (Decoding.src_mask st) = beam_size
  /\ length (ys st) = beam_size.
Proof.
  unfold beam_run. intros H Hit Hend.
  destruct (max_len - 1) as [|n] eqn:En.
  - simpl in H. injection H as <-. simpl in Hit. lia.
  - assert (Hw : length (ys st) = beam_size)
      by (eapply beam_loop_width; [|exact H]; lia).
    cbn [beam_loop] in H. bind_inv H as r E. destruct r as [st1 brk].
    simpl in H. destruct brk.
    + injection H as <-.
      apply beam_iter_inv in E. destruct E as [_ [E _]]. congruence.
    + destruct (@beam_iter_first_expands beam_size end_idx
                  (beam_init model src src_mask start_symbol) st1
                  [start_symbol] eq_refl E) as [Hm Hk].
      edestruct beam_loop_keeps_batch as [Hm' Hk'];
        [exact Hm | exact Hk | exact H |].
      auto.
Qed.

(** X18.  A parent that has ended stays ended: after line 142 has zeroed its
    distribution, its extension appends the end marker whatever token the
    top-k selected for it. *)
Theorem beam_ended_parent_appends_end_marker end_idx hyps prob0 prob
    i j parent new_seq :
  zero_finished end_idx hyps prob0 = Some prob ->
  nth_error hyps i = Some parent ->
  last_opt parent = Some end_idx ->
  extend end_idx hyps prob i j = Some new_seq ->
  new_seq = parent ++ [end_idx].
Proof.
  intros Hz Hi Hlast He. unfold extend in He. rewrite Hi in He.
  cbn [bind] in He. bind_inv He as row Erow. bind_inv He as p Ep.
  assert (Hp : p = 0%Q).
  { unfold zero_finished in Hz. bind_inv Hz as lasts El.
    destruct (length lasts =? length prob0); [|discriminate].
    injection Hz as <-.
    apply mapM_Forall2 in El.
    assert (Hl : nth_error lasts i = Some end_idx).
    { clear - El Hi Hlast. revert i Hi.
      induction El as [|a b l l' Hab _ IH]; intros [|i] Hi;
        simpl in *; try discriminate.
      - injection Hi as ->. congruence.
      - now apply IH. }
    rewrite nth_error_map in Erow.
    destruct (nth_error (combine lasts prob0) i) as [[l r]|] eqn:Ec;
      [|discriminate].
    simpl in Erow.
    assert (l = end_idx).
    { clear - Ec Hl. revert prob0 i Ec Hl.
      induction lasts as [|a lasts IH]; intros [|q prob0] [|i] Ec Hl;
        simpl in *; try discriminate.
      - congruence.
      - eapply IH; eauto. }
    subst l. rewrite Nat.eqb_refl in Erow. injection Erow as <-.
    rewrite nth_error_map in Ep.
    destruct (nth_error r j); [|discriminate]. now injection Ep as <-. }
  subst p. simpl in He. congruence.
Qed.

Lemma greedy_loop_add memory src_mask (a b : nat) :
  forall hyps,
    greedy_loop model (a + b) memory src_mask hyps
    = (mid <- greedy_loop model a memory src_mask hyps ;;
       greedy_loop model b memory src_mask mid).
Proof.
  induction a as [|a IH]; intros hyps; simpl; [reflexivity|].
  destruct (greedy_step model memory src_mask hyps); simpl; auto.
Qed.

Lemma greedy_loop_single memory src_mask (n : nat) :
  forall row out,
    greedy_loop model n memory src_mask [row] = Some out ->
    exists g, out = [g] /\ length g = length row + n.
Proof.
  induction n as [|n IH]; simpl; intros row out H.
  - injection H as <-. exists row. split; [reflexivity|lia].
  - bind_inv H as next Enext.
    edestruct greedy_step_shape as [w Hw]; [exact Enext|]. subst next.
    destruct (IH _ _ H) as [g [-> Hl]]. exists g. split; [reflexivity|].
    rewrite length_app in Hl. simpl in Hl. lia.
Qed.

(** X12.  Greedy decoding with a larger budget extends the output of a smaller
    one: the first run is an initial segment of the second, and has
    [max(1, max_len)] tokens. *)
Theorem greedy_decode_prefix_monotone src src_mask max_len max_len'
    start_symbol g g' :
  max_len <= max_len' ->
  greedy_decode model src src_mask max_len start_symbol = Some [g] ->
  greedy_decode model src src_mask max_len' start_symbol = Some [g'] ->
  g = firstn (length g) g' /\ length g = Nat.max 1 max_len.
Proof.
  unfold greedy_decode. intros Hle Hg Hg'.
  replace (max_len' - 1)
    with ((max_len - 1) + ((max_len' - 1) - (max_len - 1))) in Hg' by lia.
  rewrite greedy_loop_add, Hg in Hg'. cbn [bind] in Hg'.
  apply greedy_loop_prefix in Hg'.
  apply greedy_loop_single in Hg. destruct Hg as [g0 [Heq Hl]].
  injection Heq as <-. simpl in Hl. split; [now symmetry|lia].
Qed.

(** *** The expansion against the step index *)

Lemma expand_same {A : Type} (n : nat) (t : list A) :
  length t = n -> expand n t = Some t.
Proof.
  unfold expand. intros H. destruct t as [|a [|b t]].
  - now rewrite <- H.
  - simpl in H. now rewrite <- H.
  - rewrite H, Nat.eqb_refl. reflexivity.
Qed.

(** On a single distribution every selected entry has parent row 0. *)
Lemma first_body_rows (p : list Q) (k i : nat) (top : list (nat * Q)) :
  topk (concat [p]) k = Some top ->
  last (map (fun c => fst c / size1 [p]) top) i = (if k =? 0 then i else 0).
Proof.
  intros Etop. pose proof (topk_sel_length _ _ Etop) as Hlen.
  apply topk_sel_In in Etop. simpl in Etop. rewrite app_nil_r in Etop.
  unfold size1. simpl.
  assert (Hall : Forall (fun x => x = 0)
                   (map (fun c : nat * Q => fst c / length p) top)).
  { rewrite Forall_forall in *. intros x Hx. apply in_map_iff in Hx.
    destruct Hx as [[idx v] [<- Hin]]. simpl.
    apply Nat.div_small. eapply indexed_lt. apply Etop. exact Hin. }
  destruct top as [|c top]; [subst k; reflexivity|].
  simpl in Hlen. subst k. cbn [Nat.eqb].
  clear - Hall.
  remember (map (fun c : nat * Q => fst c / length p) (c :: top)) as l
    eqn:El.
  assert (Hne : l <> []) by (subst l; discriminate).
  clear El. induction Hall as [|x l Hx Hl IH]; [congruence|].
  destruct l as [|y l]; [exact Hx|].
  change (last (x :: y :: l) i) with (last (y :: l) i).
  apply IH. discriminate.
Qed.

(** One body of the code against one body of the step-guarded loop, from
    states with the same Python variables. *)
Lemma beam_iter_vs_step beam_size end_idx i st st_s :
  loop_vars st = loop_vars st_s ->
  (i = 0 -> exists row, ys st = [row]) ->
  (i <> 0 -> length (memory st) = beam_size
             /\ length (src_mask st) = beam_size) ->
  option_map (fun r => (loop_vars (fst r), snd r))
             (beam_iter model beam_size end_idx i st)
  = option_map (fun r => (loop_vars (fst r), snd r))
               (beam_iter_by_step model beam_size end_idx i st_s).
Proof.
  destruct st as [y sc mem mask it ex], st_s as [y' sc' mem' mask' it' ex'].
  unfold loop_vars. cbn [ys scores memory src_mask iterations].
  intros Hv H0 Hn. injection Hv as <- <- <- <- <-.
  unfold beam_iter, beam_iter_by_step.
  cbn [ys scores memory src_mask iterations expanded_at].
  destruct (next_log_probs model mem mask y) as [prob0|] eqn:Eprob0;
    [|reflexivity]. cbn [bind].
  destruct (zero_finished end_idx y prob0) as [prob|] eqn:Eprob;
    [|reflexivity]. cbn [bind].
  destruct (if i =? 0 then Some prob else add_scores model sc prob)
    as [combined|] eqn:Ecomb; [|reflexivity]. cbn [bind].
  destruct (topk (concat combined) beam_size) as [top|] eqn:Etop;
    [|reflexivity]. cbn [bind].
  destruct (mapM _ _) as [[|r rs]|] eqn:Enew; [reflexivity| |reflexivity].
  cbn [bind].
  destruct (all_ended beam_size end_idx (r :: rs)) as [[|]|] eqn:Eend;
    [reflexivity| |reflexivity]. cbn [bind].
  destruct (Nat.eqb_spec i 0) as [->|Hi].
  - (* the first body: every selected pair has parent row 0 *)
    destruct (H0 eq_refl) as [row ->].
    injection Ecomb as <-.
    assert (Hone : exists p, prob = [p]).
    { unfold zero_finished in Eprob. bind_inv Eprob as lasts El.
      apply mapM_length in El. simpl in El.
      destruct (length lasts =? length prob0) eqn:Eq; [|discriminate].
      apply Nat.eqb_eq in Eq. injection Eprob as <-.
      destruct lasts as [|l [|l' lasts]]; try discriminate.
      destruct prob0 as [|p [|p' prob0]]; try discriminate.
      simpl. eauto. }
    destruct Hone as [p ->].
    rewrite (@first_body_rows p beam_size 0 top Etop).
    assert (Hk : (beam_size =? 0) = false).
    { apply Nat.eqb_neq. intros ->.
      apply topk_sel_length in Etop. destruct top; [|discriminate].
      simpl in Enew. discriminate. }
    rewrite Hk. cbn [Nat.eqb].
    destruct (expand beam_size mem); [|reflexivity]. cbn [bind].
    destruct (expand beam_size mask); reflexivity.
  - (* a later body: a rerun of the expansion changes nothing *)
    destruct (Hn Hi) as [Hm Hk].
    destruct (last _ i =? 0); [|reflexivity].
    rewrite (@expand_same _ _ _ Hm), (@expand_same _ _ _ Hk). reflexivity.
Qed.

Lemma beam_loop_vs_step beam_size end_idx (n : nat) :
  forall i st st_s,
    loop_vars st = loop_vars st_s ->
    (i = 0 -> exists row, ys st = [row]) ->
    (i <> 0 -> length (memory st) = beam_size
               /\ length (src_mask st) = beam_size) ->
    option_map loop_vars (beam_loop model beam_size end_idx n i st)
    = option_map loop_vars
        (beam_loop_by_step model beam_size end_idx n i st_s).
Proof.
  induction n as [|n IH]; intros i st st_s Hv H0 Hn;
    cbn [beam_loop beam_loop_by_step]; [simpl; now f_equal|].
  pose proof (@beam_iter_vs_step beam_size end_idx i st st_s Hv H0 Hn)
    as Hstep.
  destruct (beam_iter model beam_size end_idx i st) as [[st1 brk]|] eqn:E;
    destruct (beam_iter_by_step model beam_size end_idx i st_s)
      as [[st1' brk']|] eqn:E'; cbn [option_map fst snd] in Hstep;
    try discriminate; [|reflexivity].
  assert (Hv1 : loop_vars st1 = loop_vars st1') by congruence.
  assert (Hb : brk' = brk) by congruence. subst brk'. clear Hstep.
  cbn [bind fst snd].
  destruct brk; [cbn [option_map]; now f_equal|].
  apply IH; [exact Hv1 | intros; discriminate |].
  intros _. destruct (Nat.eq_dec i 0) as [->|Hi].
  - destruct (H0 eq_refl) as [row Hrow].
    eapply beam_iter_first_expands; eauto.
  - destruct (Hn Hi) as [Hm Hk]. eapply beam_iter_keeps_batch; eauto.
Qed.

(** After a body that does not leave the loop, memory and mask are
    [beam_size] copies of the single encoder memory and mask: the first
    body makes them so, the later bodies keep them. *)
Lemma beam_iter_copies beam_size end_idx i st st' m mk :
  (i = 0 -> (exists row, ys st = [row])
            /\ memory st = [m] /\ src_mask st = [mk]) ->
  (i <> 0 -> memory st = repeat m beam_size
             /\ src_mask st = repeat mk beam_size) ->
  beam_iter model beam_size end_idx i st = Some (st', false) ->
  memory st' = repeat m beam_size /\ src_mask st' = repeat mk beam_size.
Proof.
  intros H0 Hn H.
  assert (Hst : loop_vars st = loop_vars st) by reflexivity.
  assert (Hpre0 : i = 0 -> exists row, ys st = [row])
    by (intros Hi; apply H0; exact Hi).
  assert (Hpren : i <> 0 -> length (memory st) = beam_size
                            /\ length (src_mask st) = beam_size).
  { intros Hi. destruct (Hn Hi) as [-> ->]. now rewrite !repeat_length. }
  pose proof (@beam_iter_vs_step beam_size end_idx i st st Hst Hpre0 Hpren)
    as Hs.
  rewrite H in Hs.
  destruct (beam_iter_by_step model beam_size end_idx i st)
    as [[st_s brk]|] eqn:E; [|discriminate].
  cbn [option_map fst snd] in Hs.
  assert (Hv : loop_vars st' = loop_vars st_s) by congruence.
  assert (Hb : brk = false) by congruence. subst brk. clear Hs.
  unfold loop_vars in Hv. injection Hv as _ _ Hm Hk _.
  rewrite Hm, Hk. clear Hm Hk Hst Hpre0 Hpren H.
  unfold beam_iter_by_step in E.
  bind_inv E as prob0 Eprob0. bind_inv E as prob Eprob.
  bind_inv E as combined Ecomb. bind_inv E as top Etop.
  bind_inv E as newys Enew.
  destruct newys as [|r rs]; [discriminate|].
  bind_inv E as stop Estop. destruct stop; [discriminate|].
  destruct (Nat.eqb_spec i 0) as [Hi|Hi].
  - destruct (H0 Hi) as [_ [Hm Hk]]. rewrite Hm, Hk in E.
    cbn [expand bind] in E. injection E as <-. simpl. auto.
  - injection E as <-. simpl. apply Hn. exact Hi.
Qed.

Lemma beam_loop_copies beam_size end_idx (n : nat) :
  forall i st st' m mk,
    (i = 0 -> (exists row, ys st = [row])
              /\ memory st = [m] /\ src_mask st = [mk]) ->
    (i <> 0 -> memory st = repeat m beam_size
               /\ src_mask st = repeat mk beam_size) ->
    1 <= n ->
    beam_loop model beam_size end_idx n i st = Some st' ->
    all_ended beam_size end_idx (ys st') = Some false ->
    memory st' = repeat m beam_size /\ src_mask st' = repeat mk beam_size.
Proof.
  induction n as [|n IH]; intros i st st' m mk H0 Hn Hle H Hend; [lia|].
  cbn [beam_loop] in H. bind_inv H as r E. destruct r as [st1 brk].
  cbn [fst snd] in H. destruct brk.
  - injection H as <-. apply beam_iter_inv in E.
    destruct E as [_ [E _]]. congruence.
  - pose proof (@beam_iter_copies beam_size end_idx i st st1 m mk H0 Hn E)
      as Hc.
    destruct n as [|n]; [simpl in H; injection H as <-; exact Hc|].
    apply (IH (S i) st1 st' m mk); auto; [intros; discriminate | lia].
Qed.

(** C2.  The loop of [beam_search_decode] and the loop whose expansion is
    decided by the step index alone (after the first step, and only then)
    compute the same hypotheses, scores, memory and mask, for every model
    and input.  When the encoder memory and the mask have one row, a run of
    one or more bodies that is not left through [break] ends with memory
    and mask being exactly [beam_size] copies of them and with
    [beam_size] hypotheses: from the second body on the decoder is called
    on the whole beam. *)
Theorem beam_expansion_follows_step_index src src_mask max_len start_symbol
    beam_size end_idx :
  option_map loop_vars
    (beam_run model src src_mask max_len start_symbol beam_size end_idx)
  = option_map loop_vars
      (beam_run_by_step model src src_mask max_len start_symbol beam_size
                        end_idx)
  /\ forall k st m mk,
       encode model src src_mask = [m] -> src_mask = [mk] ->
       1 <= k ->
       beam_loop model beam_size end_idx k 0
                 (beam_init model src src_mask start_symbol) = Some st ->
       all_ended beam_size end_idx (ys st) = Some false ->
       memory st = repeat m beam_size
       /\ Decoding.src_mask st = repeat mk beam_size
       /\ length (ys st) = beam_size.
Proof.
  split.
  - unfold beam_run, beam_run_by_step. apply beam_loop_vs_step.
    + reflexivity.
    + intros _. exists [start_symbol]. reflexivity.
    + intros H. congruence.
  - intros k st m mk Hm Hk Hle Hrun Hend.
    destruct (@beam_loop_copies beam_size end_idx k 0
                (beam_init model src src_mask start_symbol) st m mk)
      as [H1 H2]; auto.
    + intros _. unfold beam_init. cbn [ys memory Decoding.src_mask].
      rewrite Hm, Hk. eauto.
    + intros H. congruence.
    + repeat (split; [assumption|]). eapply beam_loop_width; eauto.
Qed.

End DecodingBatching.

(** ** Collation: shape of the result *)

Section CollateMore.

Import Collate.

Variables Text Tok : Type.
Variables src_pipeline tgt_pipeline : Text -> list Tok.
Variables src_vocab tgt_vocab : list Tok -> list Z.

Lemma pad_row_starts_with_bs (ids : list Z) max_padding pad_id row :
  double_exact pad_id -> (1 <= max_padding)%Z ->
  pad_row max_padding pad_id (bs_id ++ ids ++ eos_id) = Some row ->
  hd_error row = Some 0%Z.
Proof.
  intros Hpad Hmp H.
  destruct (Z.le_gt_cases (Z.of_nat (length (bs_id ++ ids ++ eos_id)))
                          max_padding) as [Hle|Hgt].
  - rewrite pad_row_fits in H by assumption. injection H as <-. reflexivity.
  - rewrite pad_row_overflow in H by (assumption || lia).
    injection H as <-.
    destruct (Z.to_nat max_padding) eqn:E; [lia|]. reflexivity.
Qed.

(** X1.  [collate_batch] raises on the empty batch, on a batch with an id
    outside int64, and on a non-empty batch with a negative [max_padding].
    For a non-empty batch of int64 ids, a pad id a double holds exactly and
    [max_padding >= 1] it returns: the two results have one row per pair
    of the batch, every row has length [max_padding] and starts with the
    start id, whether or not the sequence fits. *)
Theorem collate_batch_shape batch max_padding pad_id :
  (batch = [] ->
   collate_batch src_pipeline tgt_pipeline src_vocab tgt_vocab
     batch max_padding pad_id = None)
  /\ (ids_fit src_pipeline tgt_pipeline src_vocab tgt_vocab batch = false ->
      collate_batch src_pipeline tgt_pipeline src_vocab tgt_vocab
        batch max_padding pad_id = None)
  /\ ((max_padding < 0)%Z -> batch <> [] ->
      collate_batch src_pipeline tgt_pipeline src_vocab tgt_vocab
        batch max_padding pad_id = None)
  /\ ((1 <= max_padding)%Z -> double_exact pad_id ->
      ids_fit src_pipeline tgt_pipeline src_vocab tgt_vocab batch = true ->
      batch <> [] ->
      exists src tgt,
        collate_batch src_pipeline tgt_pipeline src_vocab tgt_vocab
          batch max_padding pad_id = Some (src, tgt)
        /\ length src = length batch /\ length tgt = length batch
        /\ Forall (fun r => Z.of_nat (length r) = max_padding) (src ++ tgt)
        /\ Forall (fun r => hd_error r = Some 0%Z) (src ++ tgt)).
Proof.
  split; [intros ->; reflexivity|].
  split.
  { intros Hbad. unfold collate_batch.
    now rewrite (@collate_loop_bad_ids _ _ src_pipeline tgt_pipeline
                   src_vocab tgt_vocab max_padding pad_id batch Hbad). }
  split.
  { intros Hneg Hne. unfold collate_batch.
    destruct batch as [|[s0 t0] rest]; [congruence|].
    cbn [collate_loop].
    destruct (processed_src _ _ s0); [|reflexivity]. cbn [bind].
    destruct (processed_tgt _ _ t0); [|reflexivity]. cbn [bind].
    now rewrite pad_row_negative. }
  intros Hmp Hpad Hfit Hne.
  assert (H0 : (0 <= max_padding)%Z) by lia.
  destruct batch as [|[s0 t0] rest] eqn:Eb; [congruence|].
  rewrite <- Eb in *.
  assert (Hi : nth_error batch 0 = Some (s0, t0)) by (now rewrite Eb).
  destruct (@collate_batch_rows _ _ src_pipeline tgt_pipeline src_vocab
              tgt_vocab max_padding pad_id batch 0 s0 t0 Hpad H0 Hfit Hi)
    as [src [tgt [_ [_ [Hc [L1 [L2 [F1 [F2 _]]]]]]]]].
  exists src, tgt. split; [exact Hc|]. split; [exact L1|].
  split; [exact L2|]. split.
  - apply Forall_app. split; eapply Forall_impl; try eassumption;
      cbv beta; intros r Hr; lia.
  - apply Forall_app.
    split; apply Forall_forall; intros r Hr;
      apply In_nth_error in Hr; destruct Hr as [i Hr].
    + assert (Hlt : i < length batch).
      { rewrite <- L1. apply nth_error_Some. congruence. }
      destruct (nth_error batch i) as [[s t]|] eqn:Ei;
        [|apply nth_error_None in Ei; lia].
      destruct (@collate_batch_rows _ _ src_pipeline tgt_pipeline src_vocab
                  tgt_vocab max_padding pad_id batch i s t Hpad H0 Hfit Ei)
        as [src' [tgt' [rs [rt [Hc' [_ [_ [_ [_ [Hs [Hp _]]]]]]]]]]].
      assert (rs = r) by congruence. subst rs.
      eapply pad_row_starts_with_bs; eauto.
    + assert (Hlt : i < length batch).
      { rewrite <- L2. apply nth_error_Some. congruence. }
      destruct (nth_error batch i) as [[s t]|] eqn:Ei;
        [|apply nth_error_None in Ei; lia].
      destruct (@collate_batch_rows _ _ src_pipeline tgt_pipeline src_vocab
                  tgt_vocab max_padding pad_id batch i s t Hpad H0 Hfit Ei)
        as [src' [tgt' [rs [rt [Hc' [_ [_ [_ [_ [_ [_ [Ht Hp]]]]]]]]]]]].
      assert (rt = r) by congruence. subst rt.
      eapply pad_row_starts_with_bs; eauto.
Qed.

End CollateMore.

(** ** BLEU helpers *)

Section BleuProps.

Import Bleu.

Lemma startswith_app (p s : list ascii) : startswith p (p ++ s) = true.
Proof.
  induction p as [|a p IH]; simpl; [reflexivity|].
  now rewrite Ascii.eqb_refl, IH.
Qed.

Lemma startswith_split (p : list ascii) :
  forall s, startswith p s = true -> s = p ++ skipn (length p) s.
Proof.
  induction p as [|a p IH]; intros s H; simpl in *; [reflexivity|].
  destruct s as [|b s]; [discriminate|].
  apply andb_prop in H. destruct H as [Hab Hp].
  apply Ascii.eqb_eq in Hab. subst b. simpl. f_equal. now apply IH.
Qed.

Lemma endswith_app (p s : list ascii) : endswith p (s ++ p) = true.
Proof.
  unfold endswith. rewrite rev_app_distr. apply startswith_app.
Qed.

Lemma endswith_split (p s : list ascii) :
  endswith p s = true -> s = firstn (length s - length p) s ++ p.
Proof.
  unfold endswith. intros H. apply startswith_split in H.
  apply (f_equal (@rev ascii)) in H.
  rewrite rev_involutive, rev_app_distr, rev_involutive, length_rev in H.
  set (r := rev (skipn (length p) (rev s))) in H. clearbody r. subst s.
  rewrite length_app, Nat.add_sub, firstn_app, Nat.sub_diag, firstn_all.
  simpl. now rewrite app_nil_r.
Qed.

Lemma strip_bracketed (body : list ascii) :
  remove_start_end_tokens (bos ++ body ++ eos) = body.
Proof.
  unfold remove_start_end_tokens.
  rewrite startswith_app.
  change (skipn 3 (bos ++ body ++ eos)) with (body ++ eos).
  rewrite endswith_app, length_app.
  change (length eos) with 4.
  replace (length body + 4 - 4) with (length body) by lia.
  rewrite firstn_app, Nat.sub_diag, firstn_all. simpl. apply app_nil_r.
Qed.

(** X2.  Round trip: a sentence bracketed with [<s>] and [</s>] is returned
    without the two markers, whatever it contains (also when it contains
    or ends with markers itself: one layer is removed). *)
Theorem remove_start_end_tokens_bracketed (body : list ascii) :
  remove_start_end_tokens (bos ++ body ++ eos) = body.
Proof.
  exact (strip_bracketed body).
Qed.

(** X3.  The result is the sentence with at most one leading [<s>] and at most
    one trailing [</s>] cut off, and nothing else changed; the leading
    marker is cut exactly when the sentence starts with it. *)
Theorem remove_start_end_tokens_cuts_markers (sent : list ascii) :
  exists pre suf,
    sent = pre ++ remove_start_end_tokens sent ++ suf
    /\ (pre = bos /\ startswith bos sent = true
        \/ pre = [] /\ startswith bos sent = false)
    /\ (suf = eos \/ suf = []).
Proof.
  unfold remove_start_end_tokens.
  destruct (startswith bos sent) eqn:Es.
  - apply startswith_split in Es. change (length bos) with 3 in Es.
    set (rest := skipn 3 sent) in *.
    destruct (endswith eos rest) eqn:Ee.
    + apply endswith_split in Ee. change (length eos) with 4 in Ee.
      exists bos, eos. rewrite <- Ee. auto.
    + exists bos, []. rewrite app_nil_r. auto.
  - destruct (endswith eos sent) eqn:Ee.
    + apply endswith_split in Ee. change (length eos) with 4 in Ee.
      exists [], eos. simpl. auto.
    + exists [], []. simpl. rewrite app_nil_r. auto.
Qed.

Variable corpus_bleu : list (list ascii) -> list (list (list ascii)) -> Q.

(** X4.  Bracketing every reference and hypothesis with the two markers does
    not change the score: the scorer sees the bare sentences. *)
Theorem compute_corpus_level_bleu_ignores_markers
    (refs hyps : list (list ascii)) :
  compute_corpus_level_bleu corpus_bleu
    (map (fun s => bos ++ s ++ eos) refs)
    (map (fun s => bos ++ s ++ eos) hyps)
  = corpus_bleu hyps [refs].
Proof.
  unfold compute_corpus_level_bleu. rewrite !map_map.
  rewrite (map_ext _ (fun s => s) strip_bracketed).
  rewrite (map_ext (fun s => remove_start_end_tokens (bos ++ s ++ eos))
             (fun s => s) strip_bracketed).
  now rewrite !map_id.
Qed.

End BleuProps.

(** ** Label smoothing: errors and dependence on the input *)

Section SmoothingMore.

Import LabelSmoothing.

Lemma scatter_succeeds (size : nat) (c : Q) (target : list nat) :
  forall d,
    Forall (fun row => length row = size) d ->
    ((exists d', scatter_ d target c = Some d')
     <-> length target <= length d /\ Forall (fun t => t < size) target).
Proof.
  induction target as [|t target IH]; intros d Hd; simpl.
  - split; [intros _; split; [lia|constructor]|].
    intros _. destruct d; simpl; eauto.
  - destruct d as [|row d].
    + split; [intros [d' H]; discriminate | intros [Hl _]; simpl in Hl; lia].
    + inversion Hd as [|? ? Hrow Hd']; subst.
      specialize (IH d Hd'). simpl.
      destruct (Nat.ltb_spec t (length row)) as [Hlt|Hge].
      * split.
        -- intros [d' H]. bind_inv H as rest Erest.
           destruct IH as [IH _]. destruct (IH (ex_intro _ rest Erest)).
           split; [lia|]. constructor; assumption.
        -- intros [Hl Ht]. inversion Ht; subst.
           destruct IH as [_ IH]. destruct IH as [rest Hrest];
             [split; [lia|assumption]|].
           rewrite Hrest. simpl. eauto.
      * split; [intros [d' H]; discriminate|].
        intros [_ Ht]. inversion Ht; subst. lia.
Qed.

(** X5.  On an input [x] with at least one row, [forward] returns exactly
    when [x] has [size] columns, [size] is not 2, there are no more targets
    than rows, and every target and the padding index are below [size]; in
    every other case it raises.  (A tensor without rows still has a width,
    which a list of rows does not record: that case is left out.) *)
Theorem label_smoothing_forward_succeeds_iff (self : t) x target :
  x <> [] ->
  (exists loss self', forward self x target = Some (loss, self'))
  <-> Forall (fun row => length row = size self) x
      /\ size self <> 2
      /\ length target <= length x
      /\ Forall (fun c => c < size self) target
      /\ padding_idx self < size self.
Proof.
  intros _. unfold forward, smoothed, fill_value, set_column.
  assert (Hx : forallb (fun row => length row =? size self) x = true
               <-> Forall (fun row => length row = size self) x).
  { rewrite forallb_forall, Forall_forall.
    split; intros H r Hr; specialize (H r Hr);
      [now apply Nat.eqb_eq | now apply Nat.eqb_eq]. }
  assert (Hfill : forall v,
            Forall (fun row => length row = size self) x ->
            Forall (fun row => length row = size self) (fill_ x v)).
  { intros v H. unfold fill_. apply Forall_forall. intros r Hr.
    apply in_map_iff in Hr. destruct Hr as [r0 [<- Hr0]].
    rewrite length_map. rewrite Forall_forall in H. now apply H. }
  split.
  - intros [loss [self' H]]. bind_inv H as d Ed. clear H.
    destruct (forallb _ x) eqn:Ef; [|discriminate]. simpl in Ed.
    destruct Hx as [Hx _]. specialize (Hx eq_refl).
    destruct (Z.eqb_spec (Z.of_nat (size self) - 2) 0); [discriminate|].
    simpl in Ed. bind_inv Ed as d1 E1.
    destruct (Nat.ltb_spec (padding_idx self) (size self)); [|discriminate].
    destruct (scatter_succeeds (confidence self) target
                (Hfill (smoothing self / inject_Z (Z.of_nat (size self) - 2))%Q
                   Hx)) as [Hs _].
    destruct (Hs (ex_intro _ d1 E1)) as [Hl Ht].
    unfold fill_ in Hl. rewrite length_map in Hl.
    repeat split; auto; lia.
  - intros [Hrows [Hsz [Hl [Ht Hp]]]].
    destruct Hx as [_ Hx]. rewrite (Hx Hrows). simpl.
    destruct (Z.eqb_spec (Z.of_nat (size self) - 2) 0); [lia|]. simpl.
    destruct (scatter_succeeds (confidence self) target
                (Hfill (smoothing self / inject_Z (Z.of_nat (size self) - 2))%Q
                   Hrows)) as [_ Hs].
    destruct Hs as [d1 Hd1].
    { split; [|assumption]. unfold fill_. now rewrite length_map. }
    rewrite Hd1. simpl.
    destruct (Nat.ltb_spec (padding_idx self) (size self)); [|lia].
    simpl. eauto.
Qed.

(** X6.  The smoothed distribution depends on [x] through its shape only: the
    entries of [x] are overwritten before they are read. *)
Theorem label_smoothing_dist_ignores_entries (self : t) x x' target :
  map (@length Q) x = map (@length Q) x' ->
  smoothed self x target = smoothed self x' target.
Proof.
  intros Hshape. unfold smoothed.
  assert (Hf : forall v, fill_ x v = fill_ x' v).
  { intros v. unfold fill_.
    rewrite (map_ext _ (fun row => repeat v (length row))
               (map_const_repeat v)).
    rewrite (map_ext (map (fun _ : Q => v))
               (fun row => repeat v (length row)) (map_const_repeat v)).
    rewrite <- (map_map (@length Q) (repeat v) x),
            <- (map_map (@length Q) (repeat v) x').
    now rewrite Hshape. }
  assert (Hmap : forall l : list (list Q),
            forallb (fun row => length row =? size self) l
            = forallb (fun n => n =? size self) (map (@length Q) l)).
  { induction l as [|r l IH]; simpl; [reflexivity|]. now rewrite IH. }
  assert (Hb : forallb (fun row => length row =? size self) x
               = forallb (fun row => length row =? size self) x').
  { now rewrite (Hmap x), (Hmap x'), Hshape. }
  rewrite Hb. destruct (forallb _ x'); simpl; [|reflexivity].
  destruct (fill_value (smoothing self) (size self)); simpl; [|reflexivity].
  now rewrite Hf.
Qed.

End SmoothingMore.

(** ** Tensors: reading what was tabulated *)

Section TensorProps.

Import Tensor.

Lemma length_flat_map_const {A B : Type} (g : A -> list B) (m : nat)
    (l : list A) :
  (forall a, In a l -> length (g a) = m) ->
  length (flat_map g l) = length l * m.
Proof.
  induction l as [|a l IH]; intros H; simpl; [reflexivity|].
  rewrite length_app, IH, (H a); auto. { now left. }
  intros b Hb. apply H. now right.
Qed.

Lemma length_indices (s : list nat) : length (indices s) = numel s.
Proof.
  induction s as [|d s IH]; simpl; [reflexivity|].
  rewrite (@length_flat_map_const _ _ _ (numel s)), length_seq; auto.
  intros a _. now rewrite length_map.
Qed.

Lemma offset_lt (s : list nat) :
  forall idx, Forall2 lt idx s -> offset s idx < numel s.
Proof.
  induction s as [|d s IH]; intros idx H; inversion H; subst; simpl.
  - lia.
  - specialize (IH _ H4). nia.
Qed.

Lemma nth_flat_map_blocks {B : Type} (g : nat -> list B) (m : nat) (dflt : B) :
  (forall a, length (g a) = m) ->
  forall d a i o, i < d -> o < m ->
    nth (i * m + o) (flat_map g (seq a d)) dflt = nth o (g (a + i)) dflt.
Proof.
  intros Hg. induction d as [|d IH]; intros a i o Hi Ho; [lia|].
  simpl. destruct i as [|i].
  - rewrite app_nth1 by (rewrite Hg; lia). simpl. now rewrite Nat.add_0_r.
  - rewrite app_nth2 by (rewrite Hg; simpl; lia).
    rewrite Hg. replace (S i * m + o - m) with (i * m + o) by (simpl; lia).
    rewrite IH by lia. f_equal. f_equal. lia.
Qed.

Lemma nth_indices (s : list nat) :
  forall idx, Forall2 lt idx s -> nth (offset s idx) (indices s) [] = idx.
Proof.
  induction s as [|d s IH]; intros idx H; inversion H; subst; simpl.
  - reflexivity.
  - pose proof (offset_lt H4) as Hlt.
    rewrite (@nth_flat_map_blocks _ _ (numel s)); auto.
    + simpl. rewrite (nth_indep _ [] (x :: [])).
      * rewrite (map_nth (cons x)). f_equal. now apply IH.
      * now rewrite length_map, length_indices.
    + intros a. now rewrite length_map, length_indices.
Qed.

(** Reading a tabulated tensor at an index within its shape gives the
    tabulated function at that index. *)
Lemma bget_tabulate {A : Type} (d : A) (s : list nat) (f : list nat -> A)
    (idx : list nat) :
  Forall2 lt idx s -> bget d (tabulate s f) idx = f idx.
Proof.
  intros H. unfold bget, tabulate. cbn [shape data].
  rewrite (Forall2_length H), Nat.sub_diag. cbn [skipn].
  assert (Hc : forall s idx, Forall2 lt idx s ->
    (fix clamp (s i : list nat) : list nat :=
       match s, i with
       | n :: s', k :: i' => (if n =? 1 then 0 else k) :: clamp s' i'
       | _, _ => []
       end) s idx = idx).
  { clear. induction s as [|n s IH]; intros idx H; inversion H; subst;
      [reflexivity|].
    rewrite IH by assumption.
    destruct (Nat.eqb_spec n 1); [f_equal; lia | reflexivity]. }
  rewrite Hc by assumption.
  rewrite (nth_indep _ d (f [])).
  - rewrite (map_nth f). now rewrite nth_indices.
  - rewrite length_map, length_indices. now apply offset_lt.
Qed.

End TensorProps.

(** ** Attention: what the masks do, and shapes *)

Section AttentionMore.

Import Tensor Attention.

Context {F : Type} {ops : FloatOps F}.
Variable dropout_layer : F -> tensor F -> tensor F.

(** The raw product [query . key^T] of two batched matrices. *)
Lemma raw_scores_shape (N Lq Lk dk : nat) (qd kd : list F) :
  exists keyT qk,
    transpose f0 1 2 (mk [N; Lk; dk] kd) = Some keyT
    /\ matmul (mk [N; Lq; dk] qd) keyT = Some qk
    /\ shape qk = [N; Lq; Lk].
Proof.
  unfold transpose, matmul, tabulate, broadcast_shapes.
  cbn [shape data length Nat.ltb Nat.leb andb bind nth_error nth Nat.sub
       firstn skipn app Nat.eqb swap_dims seq map rev bshape_rev option_map
       combine fst snd].
  do 2 eexists. split; [reflexivity|].
  cbn [shape data length Nat.ltb Nat.leb andb bind nth_error nth Nat.sub
       firstn skipn app Nat.eqb swap_dims seq map rev bshape_rev option_map
       combine fst snd].
  rewrite !Nat.eqb_refl.
  cbn [bind option_map rev app shape]. split; reflexivity.
Qed.

Lemma masked_fill_same_shape (s : list nat) (d : list F) (md : list Z) :
  masked_fill f0 (mk s d) (mk s md) f_neg1e9
  = Some (tabulate s (fun idx =>
      if (bget 1%Z (mk s md) idx =? 0)%Z then f_neg1e9
      else bget f0 (mk s d) idx)).
Proof.
  unfold masked_fill, broadcast_shapes. cbn [shape].
  assert (H : forall a, bshape_rev a a = Some a).
  { induction a as [|x a IH]; simpl; [reflexivity|].
    now rewrite IH, Nat.eqb_refl. }
  rewrite H. cbn [option_map bind]. now rewrite rev_involutive.
Qed.

(** X7.  A 3-D mask of the scores' shape fills exactly the entries where it is
    0: entry [(n, i, j)] of the masked scores is [-1e9] when
    [mask[n, i, j] = 0] and the scaled product otherwise. *)
Theorem masked_scores_3d_mask_fills (N Lq Lk dk : nat) (qd kd : list F)
    (md : list Z) :
  exists scores filled,
    masked_scores (mk [N; Lq; dk] qd) (mk [N; Lk; dk] kd) None = Some scores
    /\ masked_scores (mk [N; Lq; dk] qd) (mk [N; Lk; dk] kd)
         (Some (mk [N; Lq; Lk] md)) = Some filled
    /\ shape scores = [N; Lq; Lk] /\ shape filled = [N; Lq; Lk]
    /\ forall n i j, n < N -> i < Lq -> j < Lk ->
         bget f0 filled [n; i; j]
         = if (bget 1%Z (mk [N; Lq; Lk] md) [n; i; j] =? 0)%Z
           then f_neg1e9 else bget f0 scores [n; i; j].
Proof.
  destruct (raw_scores_shape N Lq Lk dk qd kd) as [keyT [qk [Ht [Hm Hs]]]].
  unfold masked_scores. rewrite Ht. cbn [bind shape nth_error].
  rewrite Hm. cbn [bind shape length Nat.eqb].
  destruct qk as [sq dq]. cbn [shape] in Hs. subst sq.
  unfold tmap. cbn [shape data].
  rewrite masked_fill_same_shape.
  do 2 eexists. split; [reflexivity|]. split; [reflexivity|].
  split; [reflexivity|]. split; [reflexivity|].
  intros n i j Hn Hi Hj.
  rewrite bget_tabulate; [reflexivity|].
  repeat constructor; assumption.
Qed.

(** X8.  In self-attention (query and key of one length) the 2-D mask does what
    its docstring says: key position [j] of batch [n] is filled for every
    query row exactly when [mask[n, j]] is 0. *)
Theorem masked_scores_2d_mask_self_attention (N L dk : nat)
    (qd kd : list F) (md : list Z) :
  exists scores filled,
    masked_scores (mk [N; L; dk] qd) (mk [N; L; dk] kd) None = Some scores
    /\ masked_scores (mk [N; L; dk] qd) (mk [N; L; dk] kd)
         (Some (mk [N; L] md)) = Some filled
    /\ shape scores = [N; L; L] /\ shape filled = [N; L; L]
    /\ forall n i j, n < N -> i < L -> j < L ->
         bget f0 filled [n; i; j]
         = if (bget 1%Z (mk [N; L] md) [n; j] =? 0)%Z
           then f_neg1e9 else bget f0 scores [n; i; j].
Proof.
  destruct (raw_scores_shape N L L dk qd kd) as [keyT [qk [Ht [Hm Hs]]]].
  unfold masked_scores. rewrite Ht. cbn [bind shape nth_error].
  rewrite Hm. cbn [bind shape length Nat.eqb].
  destruct qk as [sq dq]. cbn [shape] in Hs. subst sq.
  unfold tmap, expand_mask2d, unsqueeze, repeat_.
  cbn [shape data length Nat.leb Nat.eqb bind nth_error firstn skipn app
       map combine fst snd].
  rewrite !Nat.mul_1_r, !Nat.mul_1_l.
  unfold tabulate at 1.
  rewrite masked_fill_same_shape.
  do 2 eexists. split; [reflexivity|]. split; [reflexivity|].
  split; [reflexivity|]. split; [reflexivity|].
  intros n i j Hn Hi Hj.
  rewrite bget_tabulate by (repeat constructor; assumption).
  match goal with
  | |- context [bget 1%Z {| shape := ?s; data := map ?f (indices ?s) |} ?idx]
    => change {| shape := s; data := map f (indices s) |}
         with (tabulate s f);
       rewrite (@bget_tabulate Z 1%Z s f idx)
         by (repeat constructor; assumption)
  end.
  unfold bget at 2.
  cbn [shape data length Nat.sub skipn map fst snd offset numel fold_right].
  rewrite (Nat.mod_small n N), (Nat.mod_small j L), Nat.mod_1_r
    by assumption.
  match goal with
  | |- (if (nth ?A md _ =? 0)%Z then _ else _)
       = (if (nth ?B md _ =? 0)%Z then _ else _)
    => replace B with A; [reflexivity|]
  end.
  destruct (Nat.eqb_spec N 1) as [->|_], (Nat.eqb_spec L 1) as [->|_]; lia.
Qed.

(** X9.  Without a mask, [attention] on well-shaped inputs returns an output of
    shape [(N, Lq, d_v)] and weights of shape [(N, Lq, Lk)], provided the
    dropout keeps the shape of its argument. *)
Theorem attention_output_shapes (N Lq Lk dk dv : nat) (qd kd vd : list F)
    (dropout : option F) :
  (forall p t, shape (dropout_layer p t) = shape t) ->
  exists attn_out attn_weights,
    attention dropout_layer (mk [N; Lq; dk] qd) (mk [N; Lk; dk] kd)
              (mk [N; Lk; dv] vd) None dropout
    = Some (attn_out, attn_weights)
    /\ shape attn_out = [N; Lq; dv]
    /\ shape attn_weights = [N; Lq; Lk].
Proof.
  intros Hdrop.
  destruct (raw_scores_shape N Lq Lk dk qd kd) as [keyT [qk [Ht [Hm Hs]]]].
  unfold attention, masked_scores. rewrite Ht. cbn [bind shape nth_error].
  rewrite Hm. cbn [bind].
  destruct qk as [sq dq]. cbn [shape] in Hs. subst sq.
  unfold tmap, softmax. cbn [shape data length Nat.ltb Nat.leb bind].
  set (w := match dropout with
            | Some p => dropout_layer p _
            | None => _
            end).
  assert (Hw : shape w = [N; Lq; Lk]).
  { unfold w. destruct dropout; [rewrite Hdrop|]; reflexivity. }
  clearbody w. destruct w as [sw dw]. cbn [shape] in Hw. subst sw.
  unfold matmul, broadcast_shapes, tabulate.
  cbn [shape data length Nat.ltb Nat.leb andb bind nth_error nth Nat.sub
       firstn skipn app Nat.eqb rev bshape_rev option_map].
  rewrite !Nat.eqb_refl.
  cbn [bind option_map rev app shape].
  do 2 eexists. split; [reflexivity|]. split; reflexivity.
Qed.

(** *** Shapes through [MultiHeadedAttention.forward] *)

Ltac shape_cbn :=
  cbn [shape data weight bias length Nat.ltb Nat.leb andb bind nth_error nth
       Nat.sub
       firstn skipn app Nat.eqb swap_dims seq map rev bshape_rev option_map
       combine fst snd numel fold_right].

Lemma linear_shape (l : Linear) (x : tensor F) (D N L : nat) :
  shape (weight l) = [D; D] -> shape (bias l) = [D] ->
  shape x = [N; L; D] ->
  exists y, linear l x = Some y /\ shape y = [N; L; D].
Proof.
  destruct l as [[sw dw] [sb db]], x as [sx dx]. cbn [weight bias shape].
  intros -> -> ->.
  unfold linear, transpose, matmul, badd, broadcast_shapes, tabulate.
  shape_cbn. rewrite ?Nat.eqb_refl. shape_cbn. rewrite ?Nat.eqb_refl.
  shape_cbn. eexists. split; reflexivity.
Qed.

Lemma split_heads_shape (self : MultiHeadedAttention) (i N L : nat)
    (l : Linear) (x : tensor F) :
  nth_error (linears self) i = Some l ->
  shape (weight l) = [h self * d_k self; h self * d_k self] ->
  shape (bias l) = [h self * d_k self] ->
  shape x = [N; L; h self * d_k self] ->
  exists y, split_heads self i N L x = Some y
            /\ shape y = [N; h self; L; d_k self].
Proof.
  intros Hl Hw Hb Hx. unfold split_heads. rewrite Hl. cbn [bind].
  destruct (linear_shape l x Hw Hb Hx) as [y [Hy Hs]].
  rewrite Hy. cbn [bind]. destruct y as [sy dy]. cbn [shape] in Hs. subst sy.
  unfold view. cbn [shape].
  replace (numel [N; L; h self; d_k self]
           =? numel [N; L; h self * d_k self]) with true
    by (symmetry; apply Nat.eqb_eq; simpl; nia).
  cbn [bind]. unfold transpose, tabulate. shape_cbn.
  eexists. split; reflexivity.
Qed.

Lemma apply_mask_shape (self : MultiHeadedAttention) (N Lq Lk : nat)
    (w : tensor F) (mask : option (tensor Z)) :
  shape w = [N; h self; Lq; Lk] ->
  (mask = None
   \/ exists Lm md, mask = Some (mk [N; Lm; Lk] md) /\ (Lm = 1 \/ Lm = Lq)) ->
  exists w', apply_mask self Lq w mask = Some w'
             /\ shape w' = [N; h self; Lq; Lk].
Proof.
  intros Hw [->|[Lm [md [-> HLm]]]]; [simpl; eauto|].
  destruct w as [sw dw]. cbn [shape] in Hw. subst sw.
  unfold apply_mask, unsqueeze, repeat_, masked_fill, broadcast_shapes,
    tabulate.
  shape_cbn.
  rewrite ?(Nat.mul_1_r N), ?(Nat.mul_1_r Lm), ?(Nat.mul_1_r Lk),
    ?(Nat.mul_1_l (h self)).
  destruct (Nat.eqb_spec Lm 1) as [->|Hne].
  - shape_cbn.
    rewrite ?(Nat.mul_1_r N), ?(Nat.mul_1_r Lk), ?(Nat.mul_1_r (h self)),
      ?(Nat.mul_1_l Lq), ?Nat.eqb_refl.
    shape_cbn. eexists. split; reflexivity.
  - destruct HLm as [-> | ->]; [congruence|].
    shape_cbn. rewrite ?Nat.eqb_refl. shape_cbn.
    eexists. split; reflexivity.
Qed.

Lemma transpose12_shape4 (x : tensor F) (a b c d : nat) :
  shape x = [a; b; c; d] ->
  exists y, transpose f0 1 2 x = Some y /\ shape y = [a; c; b; d].
Proof.
  destruct x as [sx dx]. cbn [shape]. intros ->.
  unfold transpose, tabulate. shape_cbn. eexists. split; reflexivity.
Qed.

Lemma transpose23_shape4 (x : tensor F) (a b c d : nat) :
  shape x = [a; b; c; d] ->
  exists y, transpose f0 2 3 x = Some y /\ shape y = [a; b; d; c].
Proof.
  destruct x as [sx dx]. cbn [shape]. intros ->.
  unfold transpose, tabulate. shape_cbn. eexists. split; reflexivity.
Qed.

Lemma matmul_shape4 (x y : tensor F) (N H n k m : nat) :
  shape x = [N; H; n; k] -> shape y = [N; H; k; m] ->
  exists z, matmul x y = Some z /\ shape z = [N; H; n; m].
Proof.
  destruct x as [sx dx], y as [sy dy]. cbn [shape]. intros -> ->.
  unfold matmul, broadcast_shapes, tabulate. shape_cbn.
  rewrite ?Nat.eqb_refl. shape_cbn. eexists. split; reflexivity.
Qed.

Lemma softmax3_shape4 (x : tensor F) (a b c d : nat) :
  shape x = [a; b; c; d] ->
  exists y, softmax 3 x = Some y /\ shape y = [a; b; c; d].
Proof.
  destruct x as [sx dx]. cbn [shape]. intros ->.
  unfold softmax, tabulate. shape_cbn. eexists. split; reflexivity.
Qed.

Lemma view_infer_merges_heads (x : tensor F) (N L H dk : nat) :
  0 < N -> 0 < H -> 0 < dk ->
  shape x = [N; L; H; dk] ->
  exists y, view_infer N (H * dk) x = Some y /\ shape y = [N; L; H * dk].
Proof.
  destruct x as [sx dx]. cbn [shape]. intros HN HH Hdk ->.
  unfold view_infer, view. cbn [shape numel fold_right].
  destruct (Nat.eqb_spec (N * (H * dk)) 0) as [E0|_]; [nia|].
  assert (Htot : N * (L * (H * (dk * 1))) = L * (N * (H * dk))) by nia.
  rewrite Htot, Nat.Div0.mod_mul. cbn [Nat.eqb].
  rewrite Nat.div_mul by nia.
  replace (N * (L * (H * dk * 1)) =? L * (N * (H * dk))) with true
    by (symmetry; apply Nat.eqb_eq; nia).
  eexists. split; reflexivity.
Qed.

(** X11.  For any valid sizes, with no mask or a 3-D mask whose query dimension
    is 1 or [Lq], [forward] returns an output of shape [(N, Lq, d_model)]
    and stores attention weights of shape [(N, h, Lq, Lk)]. *)
Theorem mha_forward_shapes (self : MultiHeadedAttention)
    (N Lq Lk : nat) (query key value : tensor F)
    (mask : option (tensor Z)) :
  let d_model := h self * d_k self in
  0 < N -> 0 < h self -> 0 < d_k self ->
  length (linears self) = 4 ->
  Forall (fun l => shape (weight l) = [d_model; d_model]
                   /\ shape (bias l) = [d_model]) (linears self) ->
  (forall p t, shape (dropout_layer p t) = shape t) ->
  shape query = [N; Lq; d_model] ->
  shape key = [N; Lk; d_model] ->
  shape value = [N; Lk; d_model] ->
  (mask = None
   \/ exists Lm md, mask = Some (mk [N; Lm; Lk] md) /\ (Lm = 1 \/ Lm = Lq)) ->
  exists x self' a,
    forward dropout_layer self query key value mask = Some (x, self')
    /\ shape x = [N; Lq; d_model]
    /\ attn self' = Some a
    /\ shape a = [N; h self; Lq; Lk].
Proof.
  intros d_model HN Hh Hdk Hlen Hlin Hdrop Hq Hk Hv Hmask.
  destruct (linears self) as [|l0 [|l1 [|l2 [|l3 [|]]]]] eqn:El;
    try discriminate.
  inversion Hlin as [|? ? [Hw0 Hb0] Hlin1]; subst.
  inversion Hlin1 as [|? ? [Hw1 Hb1] Hlin2]; subst.
  inversion Hlin2 as [|? ? [Hw2 Hb2] Hlin3]; subst.
  inversion Hlin3 as [|? ? [Hw3 Hb3] _]; subst.
  unfold forward. rewrite Hq, Hk. cbn [nth_error bind].
  destruct (@split_heads_shape self 0 N Lq l0 query) as [q [Eq Sq]];
    auto; [now rewrite El|].
  destruct (@split_heads_shape self 1 N Lk l1 key) as [k [Ek Sk]];
    auto; [now rewrite El|].
  destruct (@split_heads_shape self 2 N Lk l2 value) as [v [Ev Sv]];
    auto; [now rewrite El|].
  rewrite Eq, Ek, Ev. cbn [bind].
  destruct (transpose23_shape4 k Sk) as [kT [EkT SkT]].
  rewrite EkT. cbn [bind].
  destruct (matmul_shape4 q kT Sq SkT) as [qk [Eqk Sqk]].
  rewrite Eqk. cbn [bind].
  destruct (@apply_mask_shape self N Lq Lk
              (tmap (fun x => fdiv x (fsqrt (f_of_nat (d_k self)))) qk) mask
              Sqk Hmask) as [w [Ew Sw]].
  rewrite Ew. cbn [bind].
  destruct (softmax3_shape4 w Sw) as [sm [Esm Ssm]].
  rewrite Esm. cbn [bind].
  assert (Sa : shape (dropout_layer (dropout self) sm)
               = [N; h self; Lq; Lk]) by (now rewrite Hdrop).
  destruct (matmul_shape4 _ v Sa Sv) as [o [Eo So]].
  rewrite Eo. cbn [bind].
  destruct (transpose12_shape4 o So) as [oT [EoT SoT]].
  rewrite EoT. cbn [bind].
  destruct (view_infer_merges_heads oT HN Hh Hdk SoT) as [m [Em Sm]].
  rewrite Em. cbn [bind]. rewrite El. cbn [nth_error bind].
  destruct (linear_shape l3 m Hw3 Hb3 Sm) as [x [Ex Sx]].
  rewrite Ex. cbn [bind].
  do 3 eexists. split; [reflexivity|]. cbn [attn].
  split; [exact Sx|]. split; [reflexivity | exact Sa].
Qed.

End AttentionMore.

(** ** Positional encoding *)

Lemma nth_set_nth {A : Type} (d : A) (i j : nat) (v : A) (l : list A) :
  nth j (set_nth i v l) d
  = if (j =? i) && (i <? length l) then v else nth j l d.
Proof.
  revert i j; induction l as [|a l IH]; intros i j.
  - replace (i <? length (@nil A)) with false
      by (symmetry; apply Nat.ltb_ge; simpl; lia).
    rewrite andb_false_r. now destruct i.
  - destruct i as [|i], j as [|j]; simpl; auto.
Qed.

Lemma map_length_set_nth {A : Type} (i : nat) (r : list A)
    (l : list (list A)) :
  length r = length (nth i l []) ->
  map (@length A) (set_nth i r l) = map (@length A) l.
Proof.
  revert i; induction l as [|a l IH]; intros [|i] H; simpl in *; auto.
  - now rewrite H.
  - now rewrite IH.
Qed.

Section EncodingProps.

Import Tensor Attention PositionalEncoding.

Context {F : Type} {ops : FloatOps F}.
Variables fsin fcos : F -> F.
Variable fpow : F -> F -> F.
Variable dropout_layer : F -> tensor F -> tensor F.

Local Notation "'entry' pe pos c" := (nth c (nth pos pe []) f0)
  (at level 10, pe at level 9, pos at level 9, c at level 9).

Lemma set2_lengths (pos col : nat) (v : F) (pe : list (list F)) :
  map (@length F) (set2 pos col v pe) = map (@length F) pe.
Proof.
  unfold set2. apply map_length_set_nth. apply length_set_nth.
Qed.

Lemma row_length (pe pe' : list (list F)) (pos : nat) :
  map (@length F) pe' = map (@length F) pe ->
  length (nth pos pe' []) = length (nth pos pe [])
  /\ length pe' = length pe.
Proof.
  intros H. split.
  - change (length (nth pos pe' [])) with (length (nth pos pe' (@nil F))).
    rewrite <- (map_nth (@length F) pe' []),
            <- (map_nth (@length F) pe []). now rewrite H.
  - rewrite <- (length_map (@length F) pe'), H. apply length_map.
Qed.

Lemma entry_set2 (pos col : nat) (v : F) (pe : list (list F))
    (pos' c' : nat) :
  pos < length pe -> col < length (nth pos pe []) ->
  entry (set2 pos col v pe) pos' c'
  = if (pos' =? pos) && (c' =? col) then v else entry pe pos' c'.
Proof.
  intros Hp Hc. unfold set2. rewrite nth_set_nth.
  destruct (Nat.ltb_spec pos (length pe)); [|lia].
  rewrite andb_true_r.
  destruct (Nat.eqb_spec pos' pos) as [->|Hne]; simpl; [|reflexivity].
  rewrite nth_set_nth.
  destruct (Nat.ltb_spec col (length (nth pos pe []))); [|lia].
  now rewrite andb_true_r.
Qed.

(** The value the loops write at column [c] of row [pos]. *)
Local Notation "'trig' d pos c" :=
  (if Nat.even c then fsin (angle fpow d pos (c / 2))
   else fcos (angle fpow d pos (c / 2)))
  (at level 10, d at level 9, pos at level 9, c at level 9).

Lemma inner_loop_spec (d pos : nat) (k : nat) :
  forall pe,
    pos < length pe -> length (nth pos pe []) = d -> 2 * k <= d ->
    let pe' := fold_left
                 (fun pe i =>
                    set2 pos (2 * i + 1) (fcos (angle fpow d pos i))
                      (set2 pos (2 * i) (fsin (angle fpow d pos i)) pe))
                 (seq 0 k) pe in
    map (@length F) pe' = map (@length F) pe
    /\ forall pos' c',
         entry pe' pos' c'
         = if (pos' =? pos) && (c' <? 2 * k) then trig d pos c'
           else entry pe pos' c'.
Proof.
  induction k as [|k IH]; intros pe Hp Hrow Hk; cbv zeta.
  - cbn [seq fold_left]. split; [reflexivity|]. intros pos' c'.
    replace (c' <? 2 * 0) with false by (symmetry; apply Nat.ltb_ge; lia).
    now rewrite andb_false_r.
  - rewrite seq_S, fold_left_app. cbn [fold_left Nat.add].
    destruct (IH pe Hp Hrow) as [Hl He]; [lia|]. cbv zeta in Hl, He.
    set (pe1 := fold_left _ (seq 0 k) pe) in *.
    destruct (row_length pe pe1 pos Hl) as [Hr1 Hn1].
    split.
    + now rewrite !set2_lengths.
    + intros pos' c'.
      pose proof (set2_lengths pos (2 * k) (fsin (angle fpow d pos k)) pe1)
        as Hl2.
      destruct (row_length pe1 _ pos Hl2) as [Hr2 Hn2].
      rewrite entry_set2 by lia. rewrite entry_set2 by lia. rewrite He.
      destruct (Nat.eqb_spec pos' pos) as [->|Hne]; cbn [andb]; [|reflexivity].
      destruct (Nat.eqb_spec c' (2 * k + 1)) as [->|H1].
      * destruct (Nat.ltb_spec (2 * k + 1) (2 * S k)); [|lia].
        replace (Nat.even (2 * k + 1)) with false.
        2:{ symmetry. rewrite Nat.add_1_r, Nat.even_succ.
            apply Bool.negb_true_iff. rewrite Nat.negb_odd.
            apply Nat.even_spec. now exists k. }
        replace ((2 * k + 1) / 2) with k; [reflexivity|].
        apply Nat.div_unique with 1; lia.
      * destruct (Nat.eqb_spec c' (2 * k)) as [->|H0].
        -- destruct (Nat.ltb_spec (2 * k) (2 * S k)); [|lia].
           replace (Nat.even (2 * k)) with true
             by (symmetry; apply Nat.even_spec; now exists k).
           replace (2 * k / 2) with k; [reflexivity|].
           apply Nat.div_unique with 0; lia.
        -- destruct (Nat.ltb_spec c' (2 * k)), (Nat.ltb_spec c' (2 * S k));
             try lia; reflexivity.
Qed.

Lemma outer_loop_spec (d : nat) (p : nat) :
  forall pe,
    p <= length pe -> Forall (fun r => length r = d) pe ->
    let pe' := fold_left
                 (fun pe pos =>
                    fold_left
                      (fun pe i =>
                         set2 pos (2 * i + 1) (fcos (angle fpow d pos i))
                           (set2 pos (2 * i) (fsin (angle fpow d pos i)) pe))
                      (seq 0 (d / 2)) pe)
                 (seq 0 p) pe in
    map (@length F) pe' = map (@length F) pe
    /\ forall pos' c',
         entry pe' pos' c'
         = if (pos' <? p) && (c' <? 2 * (d / 2)) then trig d pos' c'
           else entry pe pos' c'.
Proof.
  induction p as [|p IH]; intros pe Hp Hrows; cbv zeta.
  - cbn [seq fold_left]. split; reflexivity.
  - rewrite seq_S, fold_left_app. cbn [fold_left Nat.add].
    destruct (IH pe) as [Hl He]; [lia|assumption|]. cbv zeta in Hl, He.
    set (pe1 := fold_left _ (seq 0 p) pe) in *.
    destruct (row_length pe pe1 p Hl) as [Hr1 Hn1].
    assert (Hrow : length (nth p pe1 []) = d).
    { rewrite Hr1. rewrite Forall_forall in Hrows. apply Hrows.
      apply nth_In. lia. }
    destruct (@inner_loop_spec d p (d / 2) pe1) as [Hl2 He2];
      [lia | exact Hrow | |].
    { pose proof (Nat.Div0.mul_div_le d 2). lia. }
    cbv zeta in Hl2, He2. split; [congruence|].
    intros pos' c'. rewrite He2, He.
    destruct (Nat.eqb_spec pos' p) as [->|Hne]; cbn [andb].
    + destruct (Nat.ltb_spec p (S p)); [|lia]. cbn [andb].
      destruct (c' <? 2 * (d / 2)); [reflexivity|].
      destruct (Nat.ltb_spec p p); [lia|]. reflexivity.
    + destruct (Nat.ltb_spec pos' p), (Nat.ltb_spec pos' (S p));
        try lia; reflexivity.
Qed.

Lemma positional_encoding_rows (max_len d_model : nat) :
  length (pe_table fsin fcos fpow max_len d_model) = max_len
  /\ Forall (fun row => length row = d_model)
            (pe_table fsin fcos fpow max_len d_model).
Proof.
  unfold pe_table.
  set (zeros := repeat (repeat f0 d_model) max_len).
  assert (Hz : Forall (fun r : list F => length r = d_model) zeros).
  { apply Forall_forall. intros r Hr. apply repeat_spec in Hr. subst r.
    apply repeat_length. }
  assert (Hzl : length zeros = max_len) by apply repeat_length.
  destruct (@outer_loop_spec d_model max_len zeros) as [Hl _];
    [lia | exact Hz |]. cbv zeta in Hl.
  set (table := fold_left _ (seq 0 max_len) zeros) in *.
  destruct (row_length zeros table 0 Hl) as [_ Hn].
  split; [lia|].
  apply Forall_forall. intros r Hr.
  apply (In_nth _ _ []) in Hr. destruct Hr as [n [Hn' <-]].
  destruct (row_length zeros table n Hl) as [Hr _]. rewrite Hr.
  rewrite Forall_forall in Hz. apply Hz. apply nth_In. lia.
Qed.

(** X19.  The table built by [__init__]: [max_len] rows of [d_model] entries;
    column [2i] of row [pos] holds the sine and column [2i + 1] the cosine
    of [pos / 10000 ** (2i / d_model)], for every [i < d_model // 2]; when
    [d_model] is odd the last column is left at zero. *)
Theorem positional_encoding_table (max_len d_model : nat) :
  let table := pe_table fsin fcos fpow max_len d_model in
  length table = max_len
  /\ Forall (fun row => length row = d_model) table
  /\ forall pos, pos < max_len ->
       (forall i, i < d_model / 2 ->
          nth (2 * i) (nth pos table []) f0
          = fsin (angle fpow d_model pos i)
          /\ nth (2 * i + 1) (nth pos table []) f0
             = fcos (angle fpow d_model pos i))
       /\ (Nat.odd d_model = true ->
           nth (d_model - 1) (nth pos table []) f0 = f0).
Proof.
  cbv zeta. unfold pe_table.
  set (zeros := repeat (repeat f0 d_model) max_len).
  assert (Hz : Forall (fun r : list F => length r = d_model) zeros).
  { apply Forall_forall. intros r Hr. apply repeat_spec in Hr. subst r.
    apply repeat_length. }
  assert (Hzl : length zeros = max_len) by apply repeat_length.
  destruct (@outer_loop_spec d_model max_len zeros) as [Hl He];
    [lia | exact Hz |]. cbv zeta in Hl, He.
  set (table := fold_left _ (seq 0 max_len) zeros) in *.
  destruct (row_length zeros table 0 Hl) as [_ Hn].
  split; [lia|]. split.
  - apply Forall_forall. intros r Hr.
    apply (In_nth _ _ []) in Hr. destruct Hr as [n [Hn' <-]].
    destruct (row_length zeros table n Hl) as [Hr _]. rewrite Hr.
    rewrite Forall_forall in Hz. apply Hz. apply nth_In. lia.
  - intros pos Hpos. split.
    + intros i Hi. rewrite !He.
      destruct (Nat.ltb_spec pos max_len); [|lia]. cbn [andb].
      destruct (Nat.ltb_spec (2 * i) (2 * (d_model / 2))); [|lia].
      destruct (Nat.ltb_spec (2 * i + 1) (2 * (d_model / 2))); [|lia].
      replace (Nat.even (2 * i)) with true
        by (symmetry; apply Nat.even_spec; now exists i).
      replace (Nat.even (2 * i + 1)) with false.
      2:{ symmetry. rewrite Nat.add_1_r, Nat.even_succ.
          apply Bool.negb_true_iff. rewrite Nat.negb_odd.
          apply Nat.even_spec. now exists i. }
      replace (2 * i / 2) with i
        by (apply Nat.div_unique with 0; lia).
      replace ((2 * i + 1) / 2) with i
        by (apply Nat.div_unique with 1; lia).
      split; reflexivity.
    + intros Hodd. rewrite He.
      apply Nat.odd_spec in Hodd. destruct Hodd as [m Hm].
      assert (Hdiv : d_model / 2 = m)
        by (symmetry; apply Nat.div_unique with 1; lia).
      rewrite Hdiv.
      destruct (Nat.ltb_spec (d_model - 1) (2 * m)); [lia|].
      rewrite andb_false_r. unfold zeros.
      rewrite nth_repeat_lt by lia.
      apply nth_repeat.
Qed.

Lemma nth_concat_uniform {A : Type} (dflt : A) (d : nat)
    (rows : list (list A)) :
  Forall (fun r => length r = d) rows ->
  forall l c, l < length rows -> c < d ->
    nth (l * d + c) (concat rows) dflt = nth c (nth l rows []) dflt.
Proof.
  induction rows as [|r rows IH]; intros Hrows l c Hl Hc; simpl in Hl;
    [lia|].
  inversion Hrows as [|? ? Hr Hrows']; subst. simpl concat.
  destruct l as [|l].
  - simpl. now rewrite app_nth1 by lia.
  - rewrite app_nth2 by (simpl; lia).
    replace (S l * length r + c - length r) with (l * length r + c)
      by (simpl; lia).
    rewrite IH by (auto; lia). reflexivity.
Qed.

Lemma bget_tabulate_clamp {A : Type} (d : A) (s : list nat)
    (f : list nat -> A) (idx : list nat) :
  length idx = length s -> Forall2 lt (clamp s idx) s ->
  bget d (tabulate s f) idx = f (clamp s idx).
Proof.
  intros Hlen H. unfold bget, tabulate. cbn [shape data].
  rewrite Hlen, Nat.sub_diag. cbn [skipn].
  change ((fix clamp (s i : list nat) : list nat :=
             match s, i with
             | n :: s', k :: i' => (if n =? 1 then 0 else k) :: clamp s' i'
             | _, _ => []
             end) s idx) with (clamp s idx).
  rewrite (nth_indep _ d (f [])).
  - rewrite (map_nth f). now rewrite nth_indices.
  - rewrite length_map, length_indices. now apply offset_lt.
Qed.

(** X20.  A sequence no longer than [max_len] gets the table added position by
    position: entry [(n, l, c)] of the sum is [x[n, l, c] + pe[l, c]], in
    every batch row. *)
Theorem positional_encoding_forward_adds (d_model max_len N L : nat)
    (p : F) (xd : list F) :
  L <= max_len ->
  exists y,
    forward dropout_layer (init fsin fcos fpow d_model p max_len)
            (mk [N; L; d_model] xd)
    = Some (dropout_layer p y)
    /\ shape y = [N; L; d_model]
    /\ forall n l c, n < N -> l < L -> c < d_model ->
         bget f0 y [n; l; c]
         = fadd (bget f0 (mk [N; L; d_model] xd) [n; l; c])
                (nth c (nth l (pe_table fsin fcos fpow max_len d_model) [])
                     f0).
Proof.
  intros HL. unfold forward, init, unsqueeze, slice1, badd, broadcast_shapes.
  cbn [pe PositionalEncoding.dropout shape data length Nat.leb firstn skipn
       app bind nth_error rev bshape_rev option_map].
  rewrite (Nat.min_l L max_len HL).
  match goal with
  | |- context [shape (tabulate ?s ?f)] =>
      change (shape (tabulate s f)) with s
  end.
  cbn [rev app bind].
  rewrite !Nat.eqb_refl.
  assert (Hb : (if N =? 1 then Some [N]
                else if N =? 1 then Some [1]
                else Some [N]) = Some [N]).
  { destruct (N =? 1); reflexivity. }
  cbn [bind]. rewrite Hb. cbn [bind option_map rev app].
  eexists. split; [reflexivity|]. split; [reflexivity|].
  intros n l c Hn Hl Hc.
  rewrite bget_tabulate by (repeat constructor; assumption).
  f_equal.
  assert (Hcl : clamp [1; L; d_model] [n; l; c] = [0; l; c]).
  { cbn [clamp Nat.eqb].
    destruct (Nat.eqb_spec L 1), (Nat.eqb_spec d_model 1);
      repeat f_equal; lia. }
  rewrite bget_tabulate_clamp;
    [|reflexivity | rewrite Hcl; repeat constructor; lia].
  rewrite Hcl. cbn [offset numel fold_right].
  destruct (positional_encoding_rows max_len d_model) as [Hlen Hrows].
  replace (0 * (max_len * (d_model * 1)) + (l * (d_model * 1) + (c * 1 + 0)))
    with (l * d_model + c) by lia.
  apply nth_concat_uniform; auto. lia.
Qed.

(** X21.  A sequence longer than [max_len] is an error (for [max_len >= 2]; a
    table of one row would be broadcast instead). *)
Theorem positional_encoding_forward_too_long (d_model max_len N L : nat)
    (p : F) (xd : list F) :
  2 <= max_len -> max_len < L ->
  forward dropout_layer (init fsin fcos fpow d_model p max_len)
          (mk [N; L; d_model] xd) = None.
Proof.
  intros Hm HL. unfold forward, init, unsqueeze, slice1, badd,
    broadcast_shapes.
  cbn [pe PositionalEncoding.dropout shape data length Nat.leb firstn skipn
       app bind nth_error rev bshape_rev option_map].
  rewrite (Nat.min_r L max_len) by lia.
  match goal with
  | |- context [shape (tabulate ?s ?f)] =>
      change (shape (tabulate s f)) with s
  end.
  cbn [rev app bind].
  destruct (Nat.eqb_spec L max_len); [lia|].
  destruct (Nat.eqb_spec L 1); [lia|].
  destruct (Nat.eqb_spec max_len 1); [lia|].
  destruct (N =? 1); reflexivity.
Qed.

End EncodingProps.

(** ** Instances of the further properties on concrete inputs *)

Lemma beam_search_output_shape_witness :
  let model := Decoding.table_model Decoding.table_ending in
  Decoding.float32_exact 2
  /\ Decoding.beam_search_decode model tt [tt] 5 2 1 3 = Some [[2; 0; 3]]
  /\ exists row,
       [[2; 0; 3]] = [row]
       /\ hd_error row = Some 2
       /\ 1 <= length row <= Nat.max 1 5.
Proof.
  cbv zeta. split; [unfold Decoding.float32_exact; lia|].
  split; [vm_compute; reflexivity|].
  apply (@beam_search_output_shape unit unit unit nat
           (Decoding.table_model Decoding.table_ending) tt [tt] 5 2 1 3
           [[2; 0; 3]]).
  - unfold Decoding.float32_exact. lia.
  - vm_compute. reflexivity.
Defined.

Lemma beam_search_returns_best_scored_witness :
  let model := Decoding.table_model Decoding.table_a in
  Decoding.beam_search_decode model tt [tt] 3 2 2 3 = Some [[2; 0; 0]]
  /\ exists st s,
       Decoding.beam_run model tt [tt] 3 2 2 3 = Some st
       /\ In ([2; 0; 0], s)
             (combine (Decoding.ys st) (Decoding.scores st))
       /\ forall row' s',
            In (row', s') (combine (Decoding.ys st) (Decoding.scores st)) ->
            (s' <= s)%Q.
Proof.
  cbv zeta. split; [vm_compute; reflexivity|].
  apply (@beam_search_returns_best_scored unit unit unit nat
           (Decoding.table_model Decoding.table_a) tt [tt] 3 2 2 3
           [2; 0; 0]).
  vm_compute. reflexivity.
Defined.

Lemma beam_search_zero_width_raises_witness :
  2 <= 3
  /\ Decoding.beam_search_decode (Decoding.table_model Decoding.table_a)
       tt [tt] 3 2 0 3 = None.
Proof.
  split; [lia|].
  apply (@beam_search_zero_width_raises unit unit unit nat
           (Decoding.table_model Decoding.table_a) tt [tt] 3 2 3).
  lia.
Defined.

Lemma beam_search_wider_than_vocab_raises_witness :
  let model := Decoding.table_model Decoding.table_a in
  let prob := [[-(1); -(3); -(9); -(9)]%Q] in
  2 <= 3
  /\ Decoding.next_log_probs model (Decoding.encode model tt [tt]) [tt] [[2]]
     = Some prob
  /\ length (concat prob) < 5
  /\ Decoding.beam_search_decode model tt [tt] 3 2 5 3 = None.
Proof.
  cbv zeta. split; [lia|]. split; [reflexivity|]. split; [simpl; lia|].
  apply (@beam_search_wider_than_vocab_raises unit unit unit nat
           (Decoding.table_model Decoding.table_a) tt [tt] 3 2 5 3
           [[-(1); -(3); -(9); -(9)]%Q]).
  - lia.
  - reflexivity.
  - simpl. lia.
Defined.

Lemma beam_search_batches_after_first_step_witness :
  let model := Decoding.table_model Decoding.table_a in
  let st := Decoding.mkBeam [[2; 0; 0]; [2; 0; 1]]
              [(-2 # 1)%Q; (-3 # 1)%Q] [tt; tt] [tt; tt] 2 [0; 1] in
  Decoding.beam_run model tt [tt] 3 2 2 3 = Some st
  /\ 1 <= Decoding.iterations st
  /\ Decoding.all_ended 2 3 (Decoding.ys st) = Some false
  /\ length (Decoding.memory st) = 2
  /\ length (Decoding.src_mask st) = 2
  /\ length (Decoding.ys st) = 2.
Proof.
  cbv zeta. split; [vm_compute; reflexivity|]. split; [simpl; lia|].
  split; [vm_compute; reflexivity|].
  apply (@beam_search_batches_after_first_step unit unit unit nat
           (Decoding.table_model Decoding.table_a) tt [tt] 3 2 2 3).
  - vm_compute. reflexivity.
  - simpl. lia.
  - vm_compute. reflexivity.
Defined.

Lemma beam_ended_parent_appends_end_marker_witness :
  let hyps := [[2; 3]; [2; 0]] in
  let prob0 := [[-(1); -(2); -(3); -(4)]; [-(5); -(6); -(7); -(8)]]%Q in
  let prob := [[0; 0; 0; 0]; [-(5); -(6); -(7); -(8)]]%Q in
  Decoding.zero_finished 3 hyps prob0 = Some prob
  /\ nth_error hyps 0 = Some [2; 3]
  /\ last_opt [2; 3] = Some 3
  /\ Decoding.extend 3 hyps prob 0 1 = Some [2; 3; 3]
  /\ [2; 3; 3] = [2; 3] ++ [3].
Proof.
  cbv zeta. split; [vm_compute; reflexivity|]. split; [reflexivity|].
  split; [reflexivity|]. split; [vm_compute; reflexivity|].
  apply (@beam_ended_parent_appends_end_marker 3 [[2; 3]; [2; 0]]
           [[-(1); -(2); -(3); -(4)]; [-(5); -(6); -(7); -(8)]]%Q
           [[0; 0; 0; 0]; [-(5); -(6); -(7); -(8)]]%Q 0 1 [2; 3] [2; 3; 3]).
  - vm_compute. reflexivity.
  - reflexivity.
  - reflexivity.
  - vm_compute. reflexivity.
Defined.

Lemma greedy_decode_prefix_monotone_witness :
  let model := Decoding.table_model Decoding.table_a in
  3 <= 5
  /\ Decoding.greedy_decode model tt [tt] 3 2 = Some [[2; 0; 0]]
  /\ Decoding.greedy_decode model tt [tt] 5 2 = Some [[2; 0; 0; 0; 0]]
  /\ [2; 0; 0] = firstn (length [2; 0; 0]) [2; 0; 0; 0; 0]
  /\ length [2; 0; 0] = Nat.max 1 3.
Proof.
  cbv zeta. split; [lia|]. split; [vm_compute; reflexivity|].
  split; [vm_compute; reflexivity|].
  apply (@greedy_decode_prefix_monotone unit unit unit nat
           (Decoding.table_model Decoding.table_a) tt [tt] 3 5 2
           [2; 0; 0] [2; 0; 0; 0; 0]).
  - lia.
  - vm_compute. reflexivity.
  - vm_compute. reflexivity.
Defined.

Lemma label_smoothing_dist_ignores_entries_witness :
  let self := LabelSmoothing.init (fun _ _ => 0%Q) 5 0 (1 # 10)%Q in
  let x := [[0; 0; 0; 0; 0]; [0; 0; 0; 0; 0]]%Q in
  let x' := [[1; 2; 3; 4; 5]; [6; 7; 8; 9; 10]]%Q in
  map (@length Q) x = map (@length Q) x'
  /\ LabelSmoothing.smoothed self x [2; 0]
     = LabelSmoothing.smoothed self x' [2; 0].
Proof.
  cbv zeta. split; [reflexivity|].
  apply (@label_smoothing_dist_ignores_entries
           (LabelSmoothing.init (fun _ _ => 0%Q) 5 0 (1 # 10)%Q)
           [[0; 0; 0; 0; 0]; [0; 0; 0; 0; 0]]%Q
           [[1; 2; 3; 4; 5]; [6; 7; 8; 9; 10]]%Q [2; 0]).
  reflexivity.
Defined.

Lemma attention_output_shapes_witness :
  let dropout_layer := fun (_ : Q) (t : Tensor.tensor Q) => t in
  (forall p t, Tensor.shape (dropout_layer p t) = Tensor.shape t)
  /\ exists attn_out attn_weights,
       Attention.attention dropout_layer
         (Tensor.mk [1; 2; 2] [1; 2; 3; 4]%Q)
         (Tensor.mk [1; 3; 2] [1; 2; 3; 4; 5; 6]%Q)
         (Tensor.mk [1; 3; 2] [1; 0; 0; 1; 1; 1]%Q) None (Some (1 # 10)%Q)
       = Some (attn_out, attn_weights)
       /\ Tensor.shape attn_out = [1; 2; 2]
       /\ Tensor.shape attn_weights = [1; 2; 3].
Proof.
  cbv zeta. split; [reflexivity|].
  apply (@attention_output_shapes Q Attention.QOps (fun _ t => t)
           1 2 3 2 2 [1; 2; 3; 4]%Q [1; 2; 3; 4; 5; 6]%Q
           [1; 0; 0; 1; 1; 1]%Q (Some (1 # 10)%Q)).
  reflexivity.
Defined.

Lemma mha_forward_shapes_witness :
  let dropout_layer := fun (_ : Q) (t : Tensor.tensor Q) => t in
  let lin := Attention.mkLinear (Tensor.mk [2; 2] [1; 0; 0; 1]%Q)
                                (Tensor.mk [2] [0; 0]%Q) in
  let self := Attention.mkMHA 1 2 (Attention.clones lin 4) None 0%Q in
  let query := Tensor.mk [1; 2; 2] [1; 2; 3; 4]%Q in
  let key := Tensor.mk [1; 3; 2] [1; 2; 3; 4; 5; 6]%Q in
  let mask := Some (Tensor.mk [1; 1; 3] [1; 1; 0]%Z) in
  let d_model := Attention.h self * Attention.d_k self in
  0 < 1 /\ 0 < Attention.h self /\ 0 < Attention.d_k self
  /\ length (Attention.linears self) = 4
  /\ Forall (fun l => Tensor.shape (Attention.weight l) = [d_model; d_model]
                      /\ Tensor.shape (Attention.bias l) = [d_model])
            (Attention.linears self)
  /\ (forall p t, Tensor.shape (dropout_layer p t) = Tensor.shape t)
  /\ Tensor.shape query = [1; 2; d_model]
  /\ Tensor.shape key = [1; 3; d_model]
  /\ (mask = None
      \/ exists Lm md, mask = Some (Tensor.mk [1; Lm; 3] md)
                       /\ (Lm = 1 \/ Lm = 2))
  /\ exists x self' a,
       Attention.forward dropout_layer self query key key mask
       = Some (x, self')
       /\ Tensor.shape x = [1; 2; d_model]
       /\ Attention.attn self' = Some a
       /\ Tensor.shape a = [1; Attention.h self; 2; 3].
Proof.
  cbv zeta.
  split; [lia|]. split; [simpl; lia|]. split; [simpl; lia|].
  split; [reflexivity|].
  split; [repeat constructor|]. split; [reflexivity|].
  split; [reflexivity|]. split; [reflexivity|].
  split;
    [right; exists 1, [1; 1; 0]%Z; split; [reflexivity | left; reflexivity]|].
  apply (@mha_forward_shapes Q Attention.QOps (fun _ t => t)
           (Attention.mkMHA 1 2
              (Attention.clones
                 (Attention.mkLinear (Tensor.mk [2; 2] [1; 0; 0; 1]%Q)
                                     (Tensor.mk [2] [0; 0]%Q)) 4)
              None 0%Q)
           1 2 3
           (Tensor.mk [1; 2; 2] [1; 2; 3; 4]%Q)
           (Tensor.mk [1; 3; 2] [1; 2; 3; 4; 5; 6]%Q)
           (Tensor.mk [1; 3; 2] [1; 2; 3; 4; 5; 6]%Q)
           (Some (Tensor.mk [1; 1; 3] [1; 1; 0]%Z))).
  - lia.
  - simpl. lia.
  - simpl. lia.
  - reflexivity.
  - repeat constructor.
  - reflexivity.
  - reflexivity.
  - reflexivity.
  - reflexivity.
  - right. exists 1, [1; 1; 0]%Z. split; [reflexivity | left; reflexivity].
Defined.

Lemma positional_encoding_forward_adds_witness :
  let sin_ := fun x : Q => x in
  let cos_ := fun x : Q => (1 - x)%Q in
  let pow_ := fun x y : Q => (x * (1 + y))%Q in
  let dropout_layer := fun (_ : Q) (t : Tensor.tensor Q) => t in
  let x := Tensor.mk [1; 2; 2] [1; 2; 3; 4]%Q in
  2 <= 3
  /\ exists y,
       PositionalEncoding.forward dropout_layer
         (PositionalEncoding.init sin_ cos_ pow_ 2 0%Q 3) x
       = Some (dropout_layer 0%Q y)
       /\ Tensor.shape y = [1; 2; 2]
       /\ forall n l c, n < 1 -> l < 2 -> c < 2 ->
            Tensor.bget Attention.f0 y [n; l; c]
            = Attention.fadd (Tensor.bget Attention.f0 x [n; l; c])
                (nth c (nth l (PositionalEncoding.pe_table sin_ cos_ pow_
                                 3 2) [])
                     Attention.f0).
Proof.
  cbv zeta. split; [lia|].
  apply (@positional_encoding_forward_adds Q Attention.QOps
           (fun x : Q => x) (fun x : Q => (1 - x)%Q)
           (fun x y : Q => (x * (1 + y))%Q) (fun _ t => t)
           2 3 1 2 0%Q [1; 2; 3; 4]%Q).
  lia.
Defined.

Lemma positional_encoding_forward_too_long_witness :
  2 <= 3 /\ 3 < 4
  /\ PositionalEncoding.forward (fun (_ : Q) (t : Tensor.tensor Q) => t)
       (PositionalEncoding.init (fun x : Q => x) (fun x : Q => (1 - x)%Q)
          (fun x y : Q => (x * (1 + y))%Q) 2 0%Q 3)
       (Tensor.mk [1; 4; 2] [1; 2; 3; 4; 5; 6; 7; 8]%Q)
     = None.
Proof.
  split; [lia|]. split; [lia|].
  apply (@positional_encoding_forward_too_long Q Attention.QOps
           (fun x : Q => x) (fun x : Q => (1 - x)%Q)
           (fun x y : Q => (x * (1 + y))%Q) (fun _ t => t)
           2 3 1 4 0%Q [1; 2; 3; 4; 5; 6; 7; 8]%Q).
  - lia.
  - lia.
Defined.

Lemma label_smoothing_forward_succeeds_iff_witness :
  let self := LabelSmoothing.init (fun _ _ => 0%Q) 5 0 (1 # 10)%Q in
  let x := [[0; 0; 0; 0; 0]; [0; 0; 0; 0; 0]]%Q in
  x <> []
  /\ ((exists loss self',
         LabelSmoothing.forward self x [2; 0] = Some (loss, self'))
      <-> Forall (fun row => length row = LabelSmoothing.size self) x
          /\ LabelSmoothing.size self <> 2
          /\ length [2; 0] <= length x
          /\ Forall (fun c => c < LabelSmoothing.size self) [2; 0]
          /\ LabelSmoothing.padding_idx self < LabelSmoothing.size self).
Proof.
  cbv zeta. split; [discriminate|].
  apply (@label_smoothing_forward_succeeds_iff
           (LabelSmoothing.init (fun _ _ => 0%Q) 5 0 (1 # 10)%Q)
           [[0; 0; 0; 0; 0]; [0; 0; 0; 0; 0]]%Q [2; 0]).
  discriminate.
Defined.

(** The run in which the expansion statement runs twice (bodies 0 and 1):
    the same variables as the step-guarded loop, and two copies of memory
    and mask at the end. *)
Lemma beam_expansion_follows_step_index_witness :
  let model := Decoding.table_model Decoding.table_a in
  let st := Decoding.mkBeam [[2; 0; 0]; [2; 0; 1]]
              [(-2 # 1)%Q; (-3 # 1)%Q] [tt; tt] [tt; tt] 2 [0; 1] in
  option_map Decoding.loop_vars (Decoding.beam_run model tt [tt] 3 2 2 3)
  = option_map Decoding.loop_vars
      (Decoding.beam_run_by_step model tt [tt] 3 2 2 3)
  /\ Decoding.beam_loop model 2 3 2 0 (Decoding.beam_init model tt [tt] 2)
     = Some st
  /\ Decoding.all_ended 2 3 (Decoding.ys st) = Some false
  /\ Decoding.memory st = repeat tt 2
  /\ Decoding.src_mask st = repeat tt 2
  /\ length (Decoding.ys st) = 2.
Proof.
  cbv zeta.
  destruct (@beam_expansion_follows_step_index unit unit unit nat
              (Decoding.table_model Decoding.table_a) tt [tt] 3 2 2 3)
    as [H1 H2].
  split; [exact H1|].
  split; [vm_compute; reflexivity|]. split; [vm_compute; reflexivity|].
  apply (H2 2 (Decoding.mkBeam [[2; 0; 0]; [2; 0; 1]]
                 [(-2 # 1)%Q; (-3 # 1)%Q] [tt; tt] [tt; tt] 2 [0; 1])
            tt tt).
  - reflexivity.
  - reflexivity.
  - lia.
  - vm_compute. reflexivity.
  - vm_compute. reflexivity.
Defined.
